(** * Request-transformation core of the HTTP proxy (src/proxy/common.ts)

    A shallow embedding of [setupOutgoing], the cookie rewriters and the
    connection helpers, together with the properties of the specification
    that were checked against them.

    Conventions of the embedding:
    - a JavaScript string is a [string] of 8-bit characters (header
      values reach the proxy decoded as latin-1); the regular-expression
      engine works on the underlying [list ascii];
    - a loosely typed property is a [jsval]; [JUndefined] is what reading
      an absent property yields;
    - an object used as a dictionary is a [gmap string _] of its own
      properties; the cookie rewrite map, which the code searches with
      [in], has the properties of its prototype chain beside them;
    - a [URLSearchParams] is the ordered list of its name/value pairs;
    - code that can throw returns a [result];
    - [setupOutgoing] passes on the options object it may write; where
      it matters which objects are shared, the objects are held in a
      store under their references. *)

From Stdlib Require Import ZArith Ascii String List Bool Lia.
From stdpp Require Import base option list gmap strings pretty.

Local Open Scope Z_scope.

(* ===================================================================== *)
(** * Characters and strings *)
(* ===================================================================== *)

Module Chars.

Definition code (c : ascii) : nat := nat_of_ascii c.

(** [\s] restricted to the 8-bit range: TAB, LF, VT, FF, CR, SPACE and
    NO-BREAK SPACE (U+00A0). *)
Definition is_space (c : ascii) : bool :=
  let n := code c in
  ((9 <=? n) && (n <=? 13) || (n =? 32) || (n =? 160))%nat.

(** [\d] *)
Definition is_digit (c : ascii) : bool :=
  let n := code c in ((48 <=? n) && (n <=? 57))%nat.

(** Canonicalize of the [i] flag (no [u] flag): the upper-case mapping
    of a character, kept only when it is again a single code unit and
    does not move a non-ASCII character into ASCII.  On 8-bit
    characters: [a-z] and the accented lower-case letters U+00E0..U+00FE
    (U+00F7, the division sign, apart) move down by 32; every other
    character is equivalent to itself only. *)
Definition canon (c : ascii) : ascii :=
  let n := code c in
  if ((97 <=? n) && (n <=? 122)
      || (224 <=? n) && (n <=? 254) && negb (n =? 247))%nat
  then ascii_of_nat (n - 32) else c.

Definition eqb_ci (a b : ascii) : bool := Ascii.eqb (canon a) (canon b).

(** The characters an attribute name is made of in this development:
    ASCII letters, digits, [-] and [_].  None of them is special in a
    regular expression, none is white space, [;] or [=]. *)
Definition is_name_char (c : ascii) : bool :=
  let n := code c in
  ((48 <=? n) && (n <=? 57) || (65 <=? n) && (n <=? 90)
   || (97 <=? n) && (n <=? 122) || (n =? 45) || (n =? 95))%nat.

Definition chars (s : string) : list ascii := list_ascii_of_string s.
Definition str (l : list ascii) : string := string_of_list_ascii l.

End Chars.

Import Chars.

(* ===================================================================== *)
(** * A backtracking matcher for the regular expressions of the source *)
(* ===================================================================== *)

Module Regex.

(** The constructs the four patterns of common.ts use.  A character
    class is its membership test; [x+] is [Seq x (Star x)]. *)
Inductive re : Type :=
| Eps
| Chr (p : ascii -> bool)
| Bol                       (* ^ *)
| Eol                       (* $ *)
| Seq (a b : re)
| Alt (a b : re)
| Star (a : re).

Definition Plus (a : re) : re := Seq a (Star a).

(** A position in the subject: the index reached and what is left. *)
Record cursor : Type := Cursor { pos : nat; rest : list ascii }.

Definition advance (c : cursor) (t : list ascii) : cursor :=
  Cursor (S (pos c)) t.

Section Matcher.
Context {R : Type}.

(** Greedy repetition: try one more iteration (which has to consume
    something), and fall back to the continuation. *)
Fixpoint star_loop (step : (cursor -> option R) -> cursor -> option R)
    (k : cursor -> option R) (fuel : nat) (c : cursor) : option R :=
  match fuel with
  | O => k c
  | S fuel' =>
      match step (fun c' =>
                    if (length (rest c') <? length (rest c))%nat
                    then star_loop step k fuel' c' else None) c with
      | Some x => Some x
      | None => k c
      end
  end.

(** [m r k c]: match [r] at [c], then run the continuation [k] on the
    cursor reached; alternatives are tried in priority order. *)
Fixpoint m (r : re) (k : cursor -> option R) (c : cursor) : option R :=
  match r with
  | Eps => k c
  | Chr p =>
      match rest c with
      | x :: t => if p x then k (advance c t) else None
      | [] => None
      end
  | Bol => if (pos c =? 0)%nat then k c else None
  | Eol => match rest c with [] => k c | _ :: _ => None end
  | Seq a b => m a (m b k) c
  | Alt a b =>
      match m a k c with
      | Some x => Some x
      | None => m b k c
      end
  | Star a => star_loop (m a) k (length (rest c)) c
  end.

(** Leftmost match: the first start index at which [run] succeeds. *)
Fixpoint search_from (run : cursor -> option R) (i : nat)
    (s : list ascii) : option (nat * R) :=
  match run (Cursor i s) with
  | Some x => Some (i, x)
  | None =>
      match s with
      | [] => None
      | _ :: t => search_from run (S i) t
      end
  end.

End Matcher.

(** A literal, with and without the [i] flag. *)
Definition lit (s : string) : re :=
  foldr (fun x r => Seq (Chr (Ascii.eqb x)) r) Eps (chars s).
Definition lit_ci (s : string) : re :=
  foldr (fun x r => Seq (Chr (eqb_ci x)) r) Eps (chars s).

Definition is_char (x : ascii) : ascii -> bool := Ascii.eqb x.

(** [RegExp.prototype.test] of a pattern without the [g] flag. *)
Definition test (r : re) (s : string) : bool :=
  match search_from (m r Some) 0 (chars s) with
  | Some _ => true
  | None => false
  end.

(** The leftmost match of a pattern made of two parts in sequence: the
    start index, the cursor between the parts and the cursor at the
    end.  For [(g1)(g2)] the two parts are the two capture groups. *)
Definition exec2 (g1 g2 : re) (l : list ascii) : option (nat * (cursor * cursor)) :=
  search_from (m g1 (fun c1 => m g2 (fun c2 => Some (c1, c2)) c1)) 0 l.

(** [String.prototype.replace] with a pattern without the [g] flag whose
    body is two capture groups in sequence, [(g1)(g2)], and a replacer
    function [f match p1 p2]. *)
Definition replace_first2 (g1 g2 : re)
    (f : string -> string -> string -> string) (s : string) : string :=
  let l := chars s in
  match exec2 g1 g2 l with
  | None => s
  | Some (i, (c1, c2)) =>
      let whole := take (pos c2 - i)%nat (drop i l) in
      let p1 := take (pos c1 - i)%nat (drop i l) in
      let p2 := take (pos c2 - pos c1)%nat (drop (pos c1) l) in
      str (take i l) +:+ f (str whole) (str p1) (str p2) +:+ str (rest c2)
  end.

(** [replace] with a pattern without the [g] flag and a replacement
    string free of [$]. *)
Definition replace_first (r : re) (rep : string) (s : string) : string :=
  let l := chars s in
  match search_from (m r Some) 0 l with
  | None => s
  | Some (i, c) => str (take i l) +:+ rep +:+ str (rest c)
  end.

(** [replace] with the [g] flag: every match from left to right, an
    empty match stepping over one character. *)
Fixpoint replace_all_loop (fuel : nat) (r : re) (rep : list ascii)
    (c : cursor) : list ascii :=
  match fuel with
  | O => rest c
  | S fuel' =>
      match search_from (m r Some) (pos c) (rest c) with
      | None => rest c
      | Some (i, ce) =>
          take (i - pos c)%nat (rest c) ++ rep ++
          (if (pos ce =? i)%nat
           then match rest ce with
                | [] => []
                | x :: t => x :: replace_all_loop fuel' r rep (Cursor (S i) t)
                end
           else replace_all_loop fuel' r rep ce)
      end
  end.

Definition replace_all (r : re) (rep : string) (s : string) : string :=
  str (replace_all_loop (S (String.length s)) r (chars rep) (Cursor 0 (chars s))).

End Regex.

Import Regex.

(** [const isSSL = /^https|wss/] *)
Definition isSSL : re := Alt (Seq Bol (lit "https")) (lit "wss").

(** [const upgradeHeader = /(^|,)\s*upgrade\s*($|,)/i] *)
Definition upgradeHeader : re :=
  Seq (Alt Bol (Chr (eqb_ci ",")))
      (Seq (Star (Chr is_space))
           (Seq (lit_ci "upgrade")
                (Seq (Star (Chr is_space))
                     (Alt Eol (Chr (eqb_ci ",")))))).

(* ===================================================================== *)
(** * JavaScript values *)
(* ===================================================================== *)

Inductive jsval : Type :=
| JUndefined
| JNull
| JBool (b : bool)
| JNum (n : Z)
| JStr (s : string)
| JObj (id : nat).            (* an opaque object: agent, Buffer, hook ... *)

(** ToBoolean *)
Definition truthy (v : jsval) : bool :=
  match v with
  | JUndefined | JNull => false
  | JBool b => b
  | JNum n => negb (n =? 0)
  | JStr s => negb (String.eqb s "")
  | JObj _ => true
  end.

(** [a || b] *)
Definition js_or (a b : jsval) : jsval := if truthy a then a else b.

(** ToString, as used by [+] with a string operand. *)
Definition to_string (v : jsval) : string :=
  match v with
  | JUndefined => "undefined"
  | JNull => "null"
  | JBool true => "true"
  | JBool false => "false"
  | JNum n => pretty n
  | JStr s => s
  | JObj _ => "[object Object]"
  end.

Fixpoint digits_value (acc : Z) (l : list ascii) : option Z :=
  match l with
  | [] => Some acc
  | c :: t =>
      if is_digit c
      then digits_value (10 * acc + Z.of_nat (code c - 48)) t
      else None
  end.

(** ToNumber ([+v]); [None] is NaN.  A string is read as a run of decimal
    digits, which is what the [port] of a URL object holds; the empty
    string is 0. *)
Definition to_number (v : jsval) : option Z :=
  match v with
  | JUndefined => None
  | JNull => Some 0
  | JBool b => Some (if b then 1 else 0)
  | JNum n => Some n
  | JStr s => digits_value 0 (chars s)
  | JObj _ => None
  end.

(** An optional string property read as a value. *)
Definition of_opt (o : option string) : jsval :=
  match o with Some s => JStr s | None => JUndefined end.

(** Faults. *)
Inductive exn : Type :=
| TypeError          (* property access or call on [undefined] *)
| InvalidURL.        (* [new URL] rejected its input *)

Inductive result (A : Type) : Type :=
| Ok (a : A)
| Throw (e : exn).
Arguments Ok {A} a.
Arguments Throw {A} e.

Definition bind {A B} (x : result A) (f : A -> result B) : result B :=
  match x with
  | Ok a => f a
  | Throw e => Throw e
  end.

Notation "'let*' x ':=' e 'in' k" := (bind e (fun x => k))
  (at level 10, x pattern, e at level 100, k at level 200).

Definition returns {A} (x : result A) : Prop := exists a, x = Ok a.

(* ===================================================================== *)
(** * URLSearchParams and the URL parser of the platform *)
(* ===================================================================== *)

Module UrlSearchParams.

Definition t : Type := list (string * string).

Definition remove (name : string) (l : t) : t :=
  List.filter (fun e => negb (String.eqb (fst e) name)) l.

(** [set(name, value)]: the first pair called [name] takes the value and
    the later ones go; without such a pair, a new one is appended. *)
Fixpoint set (name value : string) (l : t) : t :=
  match l with
  | [] => [(name, value)]
  | e :: rest =>
      if String.eqb (fst e) name
      then (name, value) :: remove name rest
      else e :: set name value rest
  end.

(** [get(name)]: the value of the first pair called [name]. *)
Fixpoint get (name : string) (l : t) : option string :=
  match l with
  | [] => None
  | e :: rest => if String.eqb (fst e) name then Some (snd e) else get name rest
  end.

Definition has (name : string) (l : t) : bool :=
  existsb (fun e => String.eqb (fst e) name) l.

Definition keys (l : t) : list string := map fst l.

End UrlSearchParams.

Module Url.

(** What the source reads of a parsed URL. [query] is [None] for a URL
    without [?]. *)
Record t : Type := Make {
  pathname : string;
  query : option string;
  searchParams : UrlSearchParams.t
}.

(** The services of the platform's URL implementation, which is not part
    of the sources: [parse s] is [new URL(s, 'http://example.com')]
    reduced to its path name and query, [None] when the constructor
    throws; [qs_parse] and [qs_serialize] are the
    application/x-www-form-urlencoded parser and serializer. *)
Class Platform : Type := {
  parse : string -> option (string * option string);
  qs_parse : string -> UrlSearchParams.t;
  qs_serialize : UrlSearchParams.t -> string
}.

Section WithPlatform.
Context {P : Platform}.

(** [new URL(s, 'http://example.com')] *)
Definition new (s : string) : result t :=
  match parse s with
  | None => Throw InvalidURL
  | Some (p, q) =>
      Ok (Make p q (qs_parse (match q with Some x => x | None => "" end)))
  end.

(** [url.searchParams.set(name, value)] with its update of the query. *)
Definition searchParams_set (name value : string) (u : t) : t :=
  let l := UrlSearchParams.set name value (searchParams u) in
  let s := qs_serialize l in
  Make (pathname u) (if String.eqb s "" then None else Some s) l.

(** [url.search] *)
Definition search (u : t) : string :=
  match query u with
  | None => ""
  | Some q => if String.eqb q "" then "" else "?" +:+ q
  end.

End WithPlatform.

End Url.

(** [s.split(':')[0]] *)
Fixpoint before_colon (l : list ascii) : list ascii :=
  match l with
  | [] => []
  | c :: t => if Ascii.eqb c ":" then [] else c :: before_colon t
  end.

(** Modelled from the spec: the [requires-port] package, which is a
    dependency and not part of the sources.  [required port protocol]
    tells whether [port] is other than the default port of the scheme,
    per the standard scheme/default-port table; the scheme is the
    protocol up to its first colon, a port that is zero or not a number
    is never required, and calling [split] on an absent protocol is a
    fault. *)
Definition required (port : jsval) (protocol : option string) : result bool :=
  match protocol with
  | None => Throw TypeError
  | Some p =>
      let scheme := str (before_colon (chars p)) in
      match to_number port with
      | None => Ok false
      | Some n =>
          if n =? 0 then Ok false
          else if String.eqb scheme "http" || String.eqb scheme "ws" then Ok (negb (n =? 80))
          else if String.eqb scheme "https" || String.eqb scheme "wss" then Ok (negb (n =? 443))
          else if String.eqb scheme "ftp" then Ok (negb (n =? 21))
          else if String.eqb scheme "gopher" then Ok (negb (n =? 70))
          else if String.eqb scheme "file" then Ok false
          else Ok true
      end
  end.

(* ===================================================================== *)
(** * The data model *)
(* ===================================================================== *)

(** A header value: a string, a list of strings for a repeated header,
    or [undefined] stored under the key. *)
Inductive hval : Type :=
| HStr (s : string)
| HList (l : list string)
| HUndefined.

Definition hval_of_opt (o : option string) : hval :=
  match o with Some s => HStr s | None => HUndefined end.

Module Target.
(** The URL-like target object; [None] and [JUndefined] stand for an
    absent property. *)
Record t : Type := Make {
  protocol : option string;
  port : jsval;
  host : option string;
  hostname : option string;
  socketPath : option string;
  pfx : jsval;
  key : jsval;
  passphrase : jsval;
  cert : jsval;
  ca : jsval;
  ciphers : jsval;
  secureProtocol : jsval;
  servername : jsval;
  pathname : option string;
  path : option string;
  searchParams : option UrlSearchParams.t
}.
End Target.

Module FollowRedirects.
Record t : Type := Make {
  maxRedirects : jsval;
  maxBodyLength : jsval;
  agents : jsval;
  beforeRedirect : jsval;
  trackRedirects : jsval
}.
End FollowRedirects.

(** [options.followRedirects]: absent, a flag, or an object. *)
Inductive follow : Type :=
| FollowAbsent
| FollowFlag (b : bool)
| FollowObject (o : FollowRedirects.t).

Module ServerOptions.
Record t : Type := Make {
  target : option Target.t;
  forward : option Target.t;
  method : jsval;
  headers : option (gmap string hval);
  auth : jsval;
  ca : jsval;
  secure : jsval;
  agent : jsval;
  localAddress : jsval;
  followRedirects : follow;
  prependPath : jsval;
  toProxy : jsval;
  ignorePath : jsval;
  changeOrigin : jsval
}.
End ServerOptions.

Module Socket.
(** What the helpers read of a connection. *)
Record t : Type := Make {
  encrypted : jsval;
  pair : jsval
}.
End Socket.

Module Request.
Record t : Type := Make {
  url : string;
  method : jsval;
  headers : gmap string hval;
  connection : option Socket.t;
  socket : option Socket.t
}.
End Request.

Module Outgoing.
Record t : Type := Make {
  port : jsval;
  host : option string;
  hostname : option string;
  socketPath : option string;
  pfx : jsval;
  key : jsval;
  passphrase : jsval;
  cert : jsval;
  ca : jsval;
  ciphers : jsval;
  secureProtocol : jsval;
  servername : jsval;
  method : jsval;
  headers : gmap string hval;
  auth : jsval;
  rejectUnauthorized : jsval;
  agent : jsval;
  localAddress : jsval;
  maxRedirects : jsval;
  maxBodyLength : jsval;
  agents : jsval;
  beforeRedirect : jsval;
  trackRedirects : jsval;
  path : jsval
}.

(** [{}]: every property reads [undefined]. *)
Definition empty : t :=
  Make JUndefined None None None JUndefined JUndefined JUndefined JUndefined
       JUndefined JUndefined JUndefined JUndefined JUndefined ∅ JUndefined
       JUndefined JUndefined JUndefined JUndefined JUndefined JUndefined
       JUndefined JUndefined JUndefined.
End Outgoing.

(** The [forward] argument: the key of the options object the target is
    read from.  The callers pass ['forward'] or nothing. *)
Inductive target_key : Type := KeyTarget | KeyForward.

Definition select (options : ServerOptions.t) (k : target_key) : option Target.t :=
  match k with
  | KeyTarget => ServerOptions.target options
  | KeyForward => ServerOptions.forward options
  end.

(** The options with the target under one key replaced.  This record
    holds the two targets as two objects; [options.target] and
    [options.forward] naming one object are treated on the store of
    references, further down. *)
Definition store (options : ServerOptions.t) (k : target_key) (t : Target.t)
    : ServerOptions.t :=
  let o := options in
  match k with
  | KeyTarget =>
      ServerOptions.Make (Some t) (ServerOptions.forward o)
        (ServerOptions.method o) (ServerOptions.headers o) (ServerOptions.auth o)
        (ServerOptions.ca o) (ServerOptions.secure o) (ServerOptions.agent o)
        (ServerOptions.localAddress o) (ServerOptions.followRedirects o)
        (ServerOptions.prependPath o) (ServerOptions.toProxy o)
        (ServerOptions.ignorePath o) (ServerOptions.changeOrigin o)
  | KeyForward =>
      ServerOptions.Make (ServerOptions.target o) (Some t)
        (ServerOptions.method o) (ServerOptions.headers o) (ServerOptions.auth o)
        (ServerOptions.ca o) (ServerOptions.secure o) (ServerOptions.agent o)
        (ServerOptions.localAddress o) (ServerOptions.followRedirects o)
        (ServerOptions.prependPath o) (ServerOptions.toProxy o)
        (ServerOptions.ignorePath o) (ServerOptions.changeOrigin o)
  end.

(* ===================================================================== *)
(** * setupOutgoing *)
(* ===================================================================== *)

(** [a || b] on strings. *)
Definition str_or (a b : string) : string :=
  if String.eqb a "" then b else a.

(** [v !== false] *)
Definition is_not_false (v : jsval) : bool :=
  match v with JBool false => false | _ => true end.

(** [String.prototype.indexOf] of a single character, [-1] when absent. *)
Fixpoint index_from (x : ascii) (l : list ascii) (i : Z) : Z :=
  match l with
  | [] => -1
  | c :: t => if Ascii.eqb c x then i else index_from x t (i + 1)
  end.

Definition indexOf (s : string) (x : ascii) : Z := index_from x (chars s) 0.

(** [function hasPort(host) { return !!~host.indexOf(':') }]; the call
    site passes [outgoing.host?.toString()], [undefined] for an absent
    host, on which [indexOf] cannot be called. *)
Definition hasPort (host : option string) : result bool :=
  match host with
  | None => Throw TypeError
  | Some h => Ok (negb (Z.lnot (indexOf h ":") =? 0))
  end.

(** [l.filter(Boolean).join('/')] *)
Fixpoint join_slash (l : list string) : string :=
  match l with
  | [] => ""
  | [x] => x
  | x :: t => x +:+ "/" +:+ join_slash t
  end.

Definition filter_nonempty (l : list string) : list string :=
  List.filter (fun s => negb (String.eqb s "")) l.

(** [s.replace(/\/+/g, '/')] *)
Definition collapse_slashes (s : string) : string :=
  replace_all (Plus (Chr (is_char "/"))) "/" s.

(** Lines 33-42: what the call does to the target object it selected. *)
Definition resolve (t : Target.t) : Target.t :=
  let sp := match Target.searchParams t with
            | None => Some []
            | Some l => Some l
            end in
  let moved := match Target.path t with
               | Some p => negb (String.eqb p "")
               | None => false
               end in
  Target.Make (Target.protocol t) (Target.port t) (Target.host t)
    (Target.hostname t) (Target.socketPath t) (Target.pfx t) (Target.key t)
    (Target.passphrase t) (Target.cert t) (Target.ca t) (Target.ciphers t)
    (Target.secureProtocol t) (Target.servername t)
    (if moved then Target.path t else Target.pathname t)
    (if moved then None else Target.path t)
    sp.

(** Lines 78-83 *)
Definition close_unless_upgrade (h : gmap string hval) : gmap string hval :=
  match h !! "connection" with
  | Some (HStr c) =>
      if test upgradeHeader c then h else <["connection" := HStr "close"]> h
  | _ => <["connection" := HStr "close"]> h
  end.

(** Line 44: [isSSL.test(target.protocol)]; [test] reads an absent
    protocol as the string [undefined]. *)
Definition sslEnabled (target : Target.t) : bool :=
  test isSSL (to_string (of_opt (Target.protocol target))).

(** [forward || 'target'] *)
Definition key_of (forward : option target_key) : target_key :=
  match forward with Some k => k | None => KeyTarget end.

(** Lines 67-69 *)
Definition reject_unauthorized (options : ServerOptions.t) : jsval :=
  match ServerOptions.secure options with
  | JUndefined => JBool true
  | v => v
  end.

(** Lines 54-58: a copy of the request headers with [options.headers]
    assigned over it. *)
Definition merged_headers (options : ServerOptions.t) (req : Request.t)
    : gmap string hval :=
  match ServerOptions.headers options with
  | Some h => h ∪ Request.headers req
  | None => Request.headers req
  end.

Section SetupOutgoing.
Context {P : Url.Platform}.

(** Lines 105-111: the request URL with the target's parameters set. *)
Definition merged_url (target : Target.t) (req : Request.t) : result Url.t :=
  let* reqUrl := Url.new (Request.url req) in
  match Target.searchParams target with
  | None => Throw TypeError
  | Some entries =>
      Ok (fold_left (fun u e => Url.searchParams_set (fst e) (snd e) u)
                    entries reqUrl)
  end.

(** Line 97 *)
Definition target_part (options : ServerOptions.t) (target : Target.t) : string :=
  if is_not_false (ServerOptions.prependPath options)
  then match Target.pathname target with
       | Some p => str_or p ""
       | None => ""
       end
  else "".

(** Lines 113-120 *)
Definition request_part (options : ServerOptions.t) (reqUrl : Url.t)
    (req : Request.t) : string :=
  let outgoingPath :=
    if negb (truthy (ServerOptions.toProxy options))
    then str_or (Url.pathname reqUrl) ""
    else Request.url req in
  if negb (truthy (ServerOptions.ignorePath options)) then outgoingPath else "".

(** Lines 97-122 *)
Definition outgoing_path (options : ServerOptions.t) (target : Target.t)
    (req : Request.t) : result string :=
  let targetPath := target_part options target in
  let* reqUrl := merged_url target req in
  let params := Url.search reqUrl in
  let outgoingPath := request_part options reqUrl req in
  Ok (collapse_slashes (join_slash (filter_nonempty [targetPath; outgoingPath]))
      +:+ params).

(** Lines 124-126 *)
Definition host_header (options : ServerOptions.t) (target : Target.t)
    (port : jsval) (host : option string) (h : gmap string hval)
    : result (gmap string hval) :=
  if truthy (ServerOptions.changeOrigin options) then
    let* req_port := required port (Target.protocol target) in
    let* suffix :=
      if req_port
      then let* hp := hasPort host in Ok (negb hp)
      else Ok false in
    Ok (<["host" := if suffix
                    then HStr (to_string (of_opt host) +:+ ":" +:+ to_string port)
                    else hval_of_opt host]> h)
  else Ok h.

(** Lines 44-128, on the target object the call selected. *)
Definition fill (outgoing : Outgoing.t) (options : ServerOptions.t)
    (req : Request.t) (target : Target.t) : result Outgoing.t :=
  let sslEnabled := sslEnabled target in
  let port := js_or (Target.port target) (JNum (if sslEnabled then 443 else 80)) in
  let method := js_or (ServerOptions.method options) (Request.method req) in
  let headers := merged_headers options req in
  let auth :=
    if truthy (ServerOptions.auth options)
    then ServerOptions.auth options else Outgoing.auth outgoing in
  let ca :=
    if truthy (ServerOptions.ca options)
    then ServerOptions.ca options else Target.ca target in
  let rejectUnauthorized :=
    if sslEnabled
    then reject_unauthorized options
    else Outgoing.rejectUnauthorized outgoing in
  let agent := js_or (ServerOptions.agent options) (JBool false) in
  let headers :=
    if negb (truthy agent) then close_unless_upgrade headers else headers in
  let fr :=
    match ServerOptions.followRedirects options with
    | FollowObject o => o
    | _ => FollowRedirects.Make
             (Outgoing.maxRedirects outgoing) (Outgoing.maxBodyLength outgoing)
             (Outgoing.agents outgoing) (Outgoing.beforeRedirect outgoing)
             (Outgoing.trackRedirects outgoing)
    end in
  let* path := outgoing_path options target req in
  let* headers := host_header options target port (Target.host target) headers in
  Ok (Outgoing.Make port (Target.host target) (Target.hostname target)
        (Target.socketPath target) (Target.pfx target) (Target.key target)
        (Target.passphrase target) (Target.cert target) ca
        (Target.ciphers target) (Target.secureProtocol target)
        (Target.servername target) method headers auth rejectUnauthorized
        agent (ServerOptions.localAddress options)
        (FollowRedirects.maxRedirects fr) (FollowRedirects.maxBodyLength fr)
        (FollowRedirects.agents fr) (FollowRedirects.beforeRedirect fr)
        (FollowRedirects.trackRedirects fr) (JStr path)).

(** [setupOutgoing(outgoing, options, req, forward)]: the descriptor, or
    the fault, and the options object as the call leaves it. *)
Definition setupOutgoing (outgoing : Outgoing.t) (options : ServerOptions.t)
    (req : Request.t) (forward : option target_key)
    : result Outgoing.t * ServerOptions.t :=
  let k := key_of forward in
  match select options k with
  | None => (Throw TypeError, options)
  | Some target =>
      let target := resolve target in
      (fill outgoing options req target, store options k target)
  end.

End SetupOutgoing.

(* ===================================================================== *)
(** * Connection helpers *)
(* ===================================================================== *)

(** [o?.f] *)
Definition opt_chain {A} (f : A -> jsval) (o : option A) : jsval :=
  match o with Some x => f x | None => JUndefined end.

(** [Boolean(req.connection?.encrypted || req.socket?.encrypted ||
             req.connection?.pair || req.socket?.pair)] *)
Definition hasEncryptedConnection (req : Request.t) : bool :=
  truthy
    (js_or (js_or (js_or (opt_chain Socket.encrypted (Request.connection req))
                         (opt_chain Socket.encrypted (Request.socket req)))
                  (opt_chain Socket.pair (Request.connection req)))
           (opt_chain Socket.pair (Request.socket req))).

(** [getPort]: the digits after the first [:] followed by a digit in the
    [host] header, else the default port of the connection. *)
Definition getPort (req : Request.t) : result string :=
  let fallback := if hasEncryptedConnection req then "443" else "80" in
  match Request.headers req !! "host" with
  | Some (HStr h) =>
      if String.eqb h "" then Ok fallback
      else match exec2 (Chr (is_char ":")) (Plus (Chr is_digit)) (chars h) with
           | Some (_, (c1, c2)) =>
               Ok (str (take (pos c2 - pos c1)%nat (drop (pos c1) (chars h))))
           | None => Ok fallback
           end
  | Some (HList _) => Throw TypeError     (* an array has no [match] *)
  | Some HUndefined | None => Ok fallback
  end.

(* ===================================================================== *)
(** * Cookie rewriting *)
(* ===================================================================== *)

(** A [Set-Cookie] value: one header string or the array of them. *)
Inductive cookie_header : Type :=
| One (s : string)
| Many (l : list string).

(** [new RegExp("(;\\s*" + property + "=)([^;]+)", 'i')].  The name
    is spliced into the pattern as it is; for a name made of letters,
    digits, [-] and [_] ([name_ok] below) it stands in the pattern for
    itself, and that is the pattern embedded here.  The callers pass
    [domain] and [path]; every property of the cookie functions is
    stated for such names. *)
Definition cookie_prefix (property : string) : re :=
  Seq (Chr (eqb_ci ";"))
      (Seq (Star (Chr is_space))
           (Seq (lit_ci property) (Chr (eqb_ci "=")))).

Definition not_semicolon (c : ascii) : bool := negb (eqb_ci ";" c).

Definition cookie_value : re := Plus (Chr not_semicolon).

Module Config.

(** What a property of the rewrite map holds: a value, or a function,
    which is truthy and which [+] with a string turns into its source
    text. *)
Inductive member : Type :=
| Data (v : jsval)
| Function (text : string).

Definition truthy (m : member) : bool :=
  match m with
  | Data v => truthy v
  | Function _ => true
  end.

Definition to_string (m : member) : string :=
  match m with
  | Data v => to_string v
  | Function text => text
  end.

(** The rewrite map is an object (the parameter is declared [Object]):
    it has its own properties and the ones it inherits through its
    prototype chain. *)
Record t : Type := Make {
  own : gmap string member;
  inherited : gmap string member
}.

(** [k in config] holds when [get config k] is some member, own or
    inherited, and [config[k]] is then that member. *)
Definition get (config : t) (k : string) : option member :=
  match own config !! k with
  | Some m => Some m
  | None => inherited config !! k
  end.

(** A built-in function, as Node prints it. *)
Definition native (name : string) : member :=
  Function ("function " +:+ name +:+ "() { [native code] }").

(** The members of [Object.prototype], which a map written as an object
    literal inherits; reading [__proto__] yields the prototype object
    itself. *)
Definition object_prototype : gmap string member :=
  list_to_map
    [("constructor", native "Object");
     ("__defineGetter__", native "__defineGetter__");
     ("__defineSetter__", native "__defineSetter__");
     ("hasOwnProperty", native "hasOwnProperty");
     ("__lookupGetter__", native "__lookupGetter__");
     ("__lookupSetter__", native "__lookupSetter__");
     ("isPrototypeOf", native "isPrototypeOf");
     ("propertyIsEnumerable", native "propertyIsEnumerable");
     ("toString", native "toString");
     ("valueOf", native "valueOf");
     ("__proto__", Data (JObj 0));
     ("toLocaleString", native "toLocaleString")].

(** The object literal [{ k1: v1, ... }]. *)
Definition literal (l : list (string * jsval)) : t :=
  Make (list_to_map (map (fun e => (fst e, Data (snd e))) l)) object_prototype.

(** A map without prototype, [Object.create(null)] with the properties
    assigned. *)
Definition bare (l : list (string * jsval)) : t :=
  Make (list_to_map (map (fun e => (fst e, Data (snd e))) l)) ∅.

End Config.

(** The replacer function of [rewriteCookieProperty]. *)
Definition rewrite_clause (config : Config.t)
    (match_ prefix previousValue : string) : string :=
  let apply newValue :=
    if Config.truthy newValue then prefix +:+ Config.to_string newValue else "" in
  match Config.get config previousValue with
  | Some newValue => apply newValue
  | None =>
      match Config.get config "*" with
      | Some newValue => apply newValue
      | None => match_
      end
  end.

Definition rewriteCookieProperty1 (header : string)
    (config : Config.t) (property : string) : string :=
  replace_first2 (cookie_prefix property) cookie_value
                 (rewrite_clause config) header.

Definition rewriteCookieProperty (header : cookie_header)
    (config : Config.t) (property : string) : cookie_header :=
  match header with
  | One s => One (rewriteCookieProperty1 s config property)
  | Many l => Many (map (fun s => rewriteCookieProperty1 s config property) l)
  end.

(** [new RegExp(';\\s*' + property + '[^;]*', 'i')] replaced by [''],
    with the name spliced in as in [cookie_prefix]. *)
Definition removeCookieProperty1 (header property : string) : string :=
  replace_first
    (Seq (Chr (eqb_ci ";"))
         (Seq (Star (Chr is_space))
              (Seq (lit_ci property) (Star (Chr not_semicolon)))))
    "" header.

Definition removeCookieProperty (header : cookie_header) (property : string)
    : cookie_header :=
  match header with
  | One s => One (removeCookieProperty1 s property)
  | Many l => Many (map (fun s => removeCookieProperty1 s property) l)
  end.

(** An argument of [mergeSetCookie]: a scalar or an array. *)
Inductive cookie_arg : Type :=
| Scalar (v : jsval)
| Array (l : list jsval).

Definition as_array (a : cookie_arg) : list jsval :=
  match a with
  | Array l => l
  | Scalar v => if truthy v then [v] else []
  end.

Definition mergeSetCookie (setCookie upstreamSetCookie : cookie_arg) : list jsval :=
  as_array setCookie ++ as_array upstreamSetCookie.

(* ===================================================================== *)
(** * Objects held by reference *)
(* ===================================================================== *)

(** The records above hold the state of one object each.  The code is
    handed references: [options.target] and [options.forward] may name
    one target object, the headers of a request are an object of their
    own, a [Set-Cookie] value may be an array.  A store holds the state
    of these objects under their references; the functions of the layer
    are state transformers on it.  A reference the store does not hold
    names no object: what is read through it is absent. *)
Definition ref : Type := nat.

Module Store.

Record t : Type := Make {
  targets : gmap ref Target.t;
  headers : gmap ref (gmap string hval);
  arrays : gmap ref (list jsval)
}.

(** A reference that names no object of the map. *)
Definition unused {A} (m : gmap ref A) : ref :=
  S (list_max ((map_to_list m).*1)).

(** An assignment to properties of a target object. *)
Definition write_target (l : ref) (x : Target.t) (st : t) : t :=
  Make (<[l := x]> (targets st)) (headers st) (arrays st).

(** A new headers object, a new array. *)
Definition new_headers (h : gmap string hval) (st : t) : ref * t :=
  let l := unused (headers st) in
  (l, Make (targets st) (<[l := h]> (headers st)) (arrays st)).

Definition new_array (a : list jsval) (st : t) : ref * t :=
  let l := unused (arrays st) in
  (l, Make (targets st) (headers st) (<[l := a]> (arrays st))).

End Store.

(** A computation on the store. *)
Definition St (A : Type) : Type := Store.t -> result A * Store.t.

Module OptionsRef.

(** The options object as the caller holds it: references to its target
    objects and to its headers object, and its other options. *)
Record t : Type := Make {
  target : option ref;
  forward : option ref;
  method : jsval;
  headers : option ref;
  auth : jsval;
  ca : jsval;
  secure : jsval;
  agent : jsval;
  localAddress : jsval;
  followRedirects : follow;
  prependPath : jsval;
  toProxy : jsval;
  ignorePath : jsval;
  changeOrigin : jsval
}.

(** [options[key]], a reference. *)
Definition at_key (o : t) (k : target_key) : option ref :=
  match k with
  | KeyTarget => target o
  | KeyForward => forward o
  end.

(** The options as they read in a store. *)
Definition load (st : Store.t) (o : t) : ServerOptions.t :=
  ServerOptions.Make
    (match target o with Some l => Store.targets st !! l | None => None end)
    (match forward o with Some l => Store.targets st !! l | None => None end)
    (method o)
    (match headers o with Some l => Store.headers st !! l | None => None end)
    (auth o) (ca o) (secure o) (agent o) (localAddress o) (followRedirects o)
    (prependPath o) (toProxy o) (ignorePath o) (changeOrigin o).

End OptionsRef.

Module RequestRef.

(** The request, with a reference to its headers object.  A request
    always has one; the properties that depend on it assume the
    reference is in the store. *)
Record t : Type := Make {
  url : string;
  method : jsval;
  headers : ref;
  connection : option Socket.t;
  socket : option Socket.t
}.

Definition load (st : Store.t) (r : t) : Request.t :=
  Request.Make (url r) (method r)
    (match Store.headers st !! headers r with Some h => h | None => ∅ end)
    (connection r) (socket r).

End RequestRef.

Section SetupOutgoingStore.
Context {P : Url.Platform}.

(** [setupOutgoing] on the store.  Lines 31-42 read the reference under
    the key and assign to the object it names; line 54 makes the headers
    of the descriptor a new object, which lines 57, 81 and 125 write;
    the rest of the body reads.  The descriptor is returned with the
    reference to its headers; on a fault the descriptor is lost, and its
    headers with it. *)
Definition setupOutgoing_st (outgoing : Outgoing.t) (options : OptionsRef.t)
    (req : RequestRef.t) (forward : option target_key) : St (Outgoing.t * ref) :=
  fun st =>
  match OptionsRef.at_key options (key_of forward) with
  | None => (Throw TypeError, st)
  | Some l =>
      match Store.targets st !! l with
      | None => (Throw TypeError, st)
      | Some target =>
          let target := resolve target in
          let st1 := Store.write_target l target st in
          match fill outgoing (OptionsRef.load st options) (RequestRef.load st req) target with
          | Ok out =>
              let '(h, st2) := Store.new_headers (Outgoing.headers out) st1 in
              (Ok (out, h), st2)
          | Throw e => (Throw e, st1)
          end
      end
  end.

End SetupOutgoingStore.

(** A [Set-Cookie] value as the cookie functions are handed it: a
    string, or a reference to an array. *)
Inductive cookie_ref : Type :=
| CStr (s : string)
| CArr (a : ref).

Fixpoint strings_of (l : list jsval) : option (list string) :=
  match l with
  | [] => Some []
  | JStr s :: t =>
      match strings_of t with
      | Some r => Some (s :: r)
      | None => None
      end
  | _ :: _ => None
  end.

(** Reading the value; an element that is not a string has no [replace]
    method, which is a fault of the call. *)
Definition load_cookie (st : Store.t) (c : cookie_ref) : result cookie_header :=
  match c with
  | CStr s => Ok (One s)
  | CArr a =>
      match Store.arrays st !! a with
      | Some vs =>
          match strings_of vs with
          | Some l => Ok (Many l)
          | None => Throw TypeError
          end
      | None => Throw TypeError
      end
  end.

(** The result: a string, or the new array that [map] returns. *)
Definition return_cookie (c : cookie_header) : St cookie_ref :=
  fun st =>
  match c with
  | One s => (Ok (CStr s), st)
  | Many l =>
      let '(a, st') := Store.new_array (map JStr l) st in (Ok (CArr a), st')
  end.

Definition rewriteCookieProperty_st (header : cookie_ref) (config : Config.t)
    (property : string) : St cookie_ref :=
  fun st =>
  match load_cookie st header with
  | Ok h => return_cookie (rewriteCookieProperty h config property) st
  | Throw e => (Throw e, st)
  end.

Definition removeCookieProperty_st (header : cookie_ref) (property : string)
    : St cookie_ref :=
  fun st =>
  match load_cookie st header with
  | Ok h => return_cookie (removeCookieProperty h property) st
  | Throw e => (Throw e, st)
  end.

(** An argument of [mergeSetCookie]: a scalar, or a reference to an
    array. *)
Inductive merge_ref : Type :=
| MScalar (v : jsval)
| MArray (a : ref).

Definition load_arg (st : Store.t) (x : merge_ref) : cookie_arg :=
  match x with
  | MScalar v => Scalar v
  | MArray a =>
      match Store.arrays st !! a with
      | Some l => Array l
      | None => Scalar JUndefined
      end
  end.

(** [concat] returns a new array. *)
Definition mergeSetCookie_st (setCookie upstreamSetCookie : merge_ref) : St ref :=
  fun st =>
  let '(a, st') :=
    Store.new_array (mergeSetCookie (load_arg st setCookie) (load_arg st upstreamSetCookie)) st in
  (Ok a, st').

(** The helpers that read the request. *)
Definition getPort_st (req : RequestRef.t) : St string :=
  fun st => (getPort (RequestRef.load st req), st).

Definition hasEncryptedConnection_st (req : RequestRef.t) : St bool :=
  fun st => (Ok (hasEncryptedConnection (RequestRef.load st req)), st).

(* ===================================================================== *)
(** * A URL platform for closed examples *)
(* ===================================================================== *)

Module OriginForm.

(** Splits at the first occurrence of [x]. *)
Fixpoint split_at (x : ascii) (l : list ascii) : list ascii * option (list ascii) :=
  match l with
  | [] => ([], None)
  | c :: t =>
      if Ascii.eqb c x then ([], Some t)
      else let '(a, b) := split_at x t in (c :: a, b)
  end.

Fixpoint split_all (fuel : nat) (x : ascii) (l : list ascii) : list (list ascii) :=
  match fuel with
  | O => [l]
  | S fuel' =>
      match split_at x l with
      | (a, None) => [a]
      | (a, Some b) => a :: split_all fuel' x b
      end
  end.

Definition pair_of (l : list ascii) : string * string :=
  match split_at "=" l with
  | (a, None) => (str a, "")
  | (a, Some b) => (str a, str b)
  end.

(** The parser of a query: the non-empty pieces between [&], each split
    at its first [=].  It is applied to the queries [parse] lets through,
    in which nothing is to be decoded. *)
Definition qs_parse (s : string) : UrlSearchParams.t :=
  map pair_of (List.filter (fun l => negb (length l =? 0)%nat)
                      (split_all (String.length s) "&" (chars s))).

Definition is_alnum (c : ascii) : bool :=
  let n := code c in
  ((48 <=? n) && (n <=? 57) || (65 <=? n) && (n <=? 90)
   || (97 <=? n) && (n <=? 122))%nat.

Definition hex_digit (n : nat) : ascii :=
  ascii_of_nat (if (n <? 10)%nat then 48 + n else 55 + n).

Definition percent (n : nat) : list ascii :=
  ["%"%char; hex_digit (n / 16); hex_digit (n mod 16)].

(** The serializer of a name or value: letters, digits, [*], [-], [.]
    and [_] stay, a space becomes [+], every other character is
    percent-encoded, through its two UTF-8 bytes when it is not ASCII. *)
Definition encode_char (c : ascii) : list ascii :=
  let n := code c in
  if (is_alnum c || (n =? 42) || (n =? 45) || (n =? 46) || (n =? 95))%nat then [c]
  else if (n =? 32)%nat then ["+"%char]
  else if (n <? 128)%nat then percent n
  else percent (192 + n / 64) ++ percent (128 + n mod 64).

Definition encode (s : string) : string := str (concat (map encode_char (chars s))).

Fixpoint qs_serialize (l : UrlSearchParams.t) : string :=
  match l with
  | [] => ""
  | [(k, v)] => encode k +:+ "=" +:+ encode v
  | (k, v) :: t => encode k +:+ "=" +:+ encode v +:+ "&" +:+ qs_serialize t
  end.

Definition path_char (c : ascii) : bool :=
  let n := code c in
  (is_alnum c || (n =? 47) || (n =? 45) || (n =? 95) || (n =? 46))%nat.

Definition query_char (c : ascii) : bool :=
  let n := code c in
  (is_alnum c || (n =? 45) || (n =? 95) || (n =? 46) || (n =? 61) || (n =? 38))%nat.

Definition dot_segment (l : list ascii) : bool :=
  String.eqb (str l) "." || String.eqb (str l) "..".

(** A path that starts with one [/] (two would open an authority), is
    written with letters, digits, [/], [-], [_] and [.] and has no dot
    segment: the URL parser keeps such a path as it is written. *)
Definition plain_path (p : list ascii) : bool :=
  match p with
  | x :: t =>
      Ascii.eqb x "/"
      && match t with y :: _ => negb (Ascii.eqb y "/") | [] => true end
      && forallb path_char p
      && negb (existsb dot_segment (split_all (length p) "/" p))
  | [] => false
  end.

Definition plain_query (q : option (list ascii)) : bool :=
  match q with
  | Some l => forallb query_char l
  | None => true
  end.

(** [new URL(s, 'http://example.com')] on the request targets this
    instance covers: the origin form [/path] or [/path?query] with a
    plain path and a query written with letters, digits, [-], [_], [.],
    [=] and [&], on which the parser returns the path and the query as
    they are written; and the empty target or a query alone, whose path
    is [/].  The instance covers no other input (an absolute URL, a
    target that opens with [//], characters the parser would encode, dot
    segments): it answers [None] there, and the closed examples stay
    within the covered targets. *)
Definition parse (s : string) : option (string * option string) :=
  let '(p, q) := split_at "?" (chars s) in
  match p with
  | [] => if plain_query q then Some ("/", option_map str q) else None
  | _ => if plain_path p && plain_query q
         then Some (str p, option_map str q) else None
  end.

Definition platform : Url.Platform := Url.Build_Platform parse qs_parse qs_serialize.

End OriginForm.

(** Inputs of the closed examples. *)
Definition api_target : Target.t :=
  Target.Make (Some "https:") (JStr "") (Some "api.example.com")
    (Some "api.example.com") None JUndefined JUndefined JUndefined JUndefined
    JUndefined JUndefined JUndefined JUndefined (Some "/") None (Some []).

Definition no_options : ServerOptions.t :=
  ServerOptions.Make None None JUndefined None JUndefined JUndefined
    JUndefined JUndefined JUndefined FollowAbsent JUndefined JUndefined
    JUndefined JUndefined.

Definition get_request (url : string) : Request.t :=
  Request.Make url (JStr "GET") ∅ None None.

(* ===================================================================== *)
(** * Specification-side definitions

    The predicates the properties are stated with, the claims of the
    specification that the code does not meet, as the specification words
    them, and the inputs of the closed examples. *)
(* ===================================================================== *)

(** What a literal consumes of the subject: the rest, when every
    character matches under [f]. *)
Fixpoint strip (f : ascii -> ascii -> bool) (l s : list ascii) : option (list ascii) :=
  match l, s with
  | [], _ => Some s
  | _ :: _, [] => None
  | x :: l', y :: s' => if f x y then strip f l' s' else None
  end.

(** The longest run of a class at the head of a list, and what follows. *)
Fixpoint run (p : ascii -> bool) (l : list ascii) : list ascii :=
  match l with
  | x :: t => if p x then x :: run p t else []
  | [] => []
  end.

Fixpoint skip (p : ascii -> bool) (l : list ascii) : list ascii :=
  match l with
  | x :: t => if p x then skip p t else l
  | [] => []
  end.

Definition after_run (p : ascii -> bool) (c : cursor) : cursor :=
  Cursor (pos c + length (run p (rest c))) (skip p (rest c)).

(** Prefix and substring. *)
Definition starts_with (p s : string) : Prop := exists t, s = p +:+ t.
Definition contains (p s : string) : Prop := exists a b, s = a +:+ p +:+ b.

Definition starts_with_ci (p s : string) : Prop :=
  exists w t, s = w +:+ t /\ map canon (chars w) = map canon (chars p).

(** C1 as the specification words it. *)
Definition encrypted_iff_scheme_ci (p : string) : Prop :=
  test isSSL p = true <-> starts_with_ci "https" p \/ starts_with_ci "wss" p.

(** Lines 107-109 on the list of pairs. *)
Definition merge_query (request target : UrlSearchParams.t) : UrlSearchParams.t :=
  fold_left (fun l e => UrlSearchParams.set (fst e) (snd e) l) target request.

Definition without (x : string) (l : list string) : list string :=
  List.filter (fun y => negb (String.eqb y x)) l.

(** The names of a list in the order of their first occurrence. *)
Fixpoint distinct (l : list string) : list string :=
  match l with
  | [] => []
  | x :: t => x :: without x (distinct t)
  end.

Definition occurrences (name : string) (l : UrlSearchParams.t) : nat :=
  length (List.filter (fun e => String.eqb (fst e) name) l).

(** C2 as the specification words it: the names the target sets come
    first, in the target's order, the names only the request has after. *)
Definition target_names_first (request target merged : UrlSearchParams.t) : Prop :=
  UrlSearchParams.keys merged =
  distinct (UrlSearchParams.keys target) ++
  List.filter (fun k => negb (UrlSearchParams.has k target)) (UrlSearchParams.keys request).

Definition minus (l a : list string) : list string :=
  List.filter (fun y => negb (existsb (String.eqb y) a)) l.

Definition query_target (entries : UrlSearchParams.t) : Target.t :=
  Target.Make (Some "http:") (JNum 8080) (Some "backend") (Some "backend")
    None JUndefined JUndefined JUndefined JUndefined JUndefined JUndefined
    JUndefined JUndefined None None (Some entries).

(** C3 as the specification words it. *)
Definition leaves_options_unchanged {P : Url.Platform} (outgoing : Outgoing.t)
    (options : ServerOptions.t) (req : Request.t) (forward : option target_key) : Prop :=
  snd (setupOutgoing outgoing options req forward) = options.

(** A target is resolved when it has its parameter container and no
    legacy [path] left to move. *)
Definition resolved (t : Target.t) : Prop :=
  is_Some (Target.searchParams t) /\
  (Target.path t = None \/ Target.path t = Some "").

Definition legacy_target : Target.t :=
  Target.Make (Some "http:") (JNum 8080) (Some "backend") (Some "backend")
    None JUndefined JUndefined JUndefined JUndefined JUndefined JUndefined
    JUndefined JUndefined None (Some "/api") None.

(** What lines 33-42 make of a target object: it has a parameter
    container, its own or an empty one; a non-empty legacy [path] has
    become its [pathname] and is gone, any other [path] and the
    [pathname] are as before; so is every other property. *)
Definition normalised (t t' : Target.t) : Prop :=
  Target.searchParams t' =
    Some (match Target.searchParams t with Some l => l | None => [] end) /\
  (forall p, Target.path t = Some p -> p <> "" ->
     Target.pathname t' = Some p /\ Target.path t' = None) /\
  (Target.path t = None \/ Target.path t = Some "" ->
     Target.pathname t' = Target.pathname t /\ Target.path t' = Target.path t) /\
  Target.protocol t' = Target.protocol t /\
  Target.port t' = Target.port t /\
  Target.host t' = Target.host t /\
  Target.hostname t' = Target.hostname t /\
  Target.socketPath t' = Target.socketPath t /\
  Target.pfx t' = Target.pfx t /\
  Target.key t' = Target.key t /\
  Target.passphrase t' = Target.passphrase t /\
  Target.cert t' = Target.cert t /\
  Target.ca t' = Target.ca t /\
  Target.ciphers t' = Target.ciphers t /\
  Target.secureProtocol t' = Target.secureProtocol t /\
  Target.servername t' = Target.servername t.

(** Every object of [m] is in [m'] as it was. *)
Definition kept {A} (m m' : gmap ref A) : Prop :=
  forall l x, m !! l = Some x -> m' !! l = Some x.

(** A call that writes no object of the store: the targets and the
    header objects are the same, and so is every array there was. *)
Definition allocates_only (st st' : Store.t) : Prop :=
  Store.targets st' = Store.targets st /\
  Store.headers st' = Store.headers st /\
  kept (Store.arrays st) (Store.arrays st').

(** The descriptor of a result. *)
Definition descriptor {A B} (r : result (A * B)) : result A :=
  match r with
  | Ok (a, _) => Ok a
  | Throw e => Throw e
  end.

(** The store as the call leaves it. *)
Definition store_after {P : Url.Platform} (outgoing : Outgoing.t)
    (options : OptionsRef.t) (req : RequestRef.t) (forward : option target_key)
    (st : Store.t) : Store.t :=
  snd (setupOutgoing_st outgoing options req forward st).

(** The headers objects of the request and of the options are objects of
    the store. *)
Definition in_store (st : Store.t) (options : OptionsRef.t) (req : RequestRef.t) : Prop :=
  is_Some (Store.headers st !! RequestRef.headers req) /\
  forall l, OptionsRef.headers options = Some l -> is_Some (Store.headers st !! l).

(** Two readings of the options that agree on everything but the
    targets. *)
Definition same_options (a b : ServerOptions.t) : Prop :=
  ServerOptions.method a = ServerOptions.method b /\
  ServerOptions.headers a = ServerOptions.headers b /\
  ServerOptions.auth a = ServerOptions.auth b /\
  ServerOptions.ca a = ServerOptions.ca b /\
  ServerOptions.secure a = ServerOptions.secure b /\
  ServerOptions.agent a = ServerOptions.agent b /\
  ServerOptions.localAddress a = ServerOptions.localAddress b /\
  ServerOptions.followRedirects a = ServerOptions.followRedirects b /\
  ServerOptions.prependPath a = ServerOptions.prependPath b /\
  ServerOptions.toProxy a = ServerOptions.toProxy b /\
  ServerOptions.ignorePath a = ServerOptions.ignorePath b /\
  ServerOptions.changeOrigin a = ServerOptions.changeOrigin b.

(** [options.target] and [options.forward] are one object. *)
Definition one_object (options : OptionsRef.t) : Prop :=
  exists l, OptionsRef.target options = Some l /\ OptionsRef.forward options = Some l.

(** One target object under both keys: the legacy target of the
    counterexample, at reference 0; the headers of the request at
    reference 1. *)
Definition shared_store : Store.t :=
  Store.Make {[ 0%nat := legacy_target ]} {[ 1%nat := ∅ ]} ∅.

Definition shared_options : OptionsRef.t :=
  OptionsRef.Make (Some 0%nat) (Some 0%nat) JUndefined None JUndefined JUndefined
    JUndefined JUndefined JUndefined FollowAbsent JUndefined JUndefined
    JUndefined JUndefined.

Definition shared_request : RequestRef.t :=
  RequestRef.Make "/users" (JStr "GET") 1%nat None None.

(** C7 as the specification words it. *)
Definition copies_target_fields (t : Target.t) (out : Outgoing.t) : Prop :=
  Outgoing.host out = Target.host t /\
  Outgoing.hostname out = Target.hostname t /\
  Outgoing.socketPath out = Target.socketPath t /\
  Outgoing.pfx out = Target.pfx t /\
  Outgoing.key out = Target.key t /\
  Outgoing.passphrase out = Target.passphrase t /\
  Outgoing.cert out = Target.cert t /\
  Outgoing.ca out = Target.ca t /\
  Outgoing.ciphers out = Target.ciphers t /\
  Outgoing.secureProtocol out = Target.secureProtocol t /\
  Outgoing.servername out = Target.servername t.

Definition tls_target : Target.t :=
  Target.Make (Some "https:") JUndefined (Some "backend") (Some "backend")
    None JUndefined (JStr "KEY") JUndefined (JStr "CERT") (JStr "TARGET-CA")
    JUndefined JUndefined JUndefined None None (Some []).

Definition with_ca (options : ServerOptions.t) (ca : jsval) : ServerOptions.t :=
  let o := options in
  ServerOptions.Make (ServerOptions.target o) (ServerOptions.forward o)
    (ServerOptions.method o) (ServerOptions.headers o) (ServerOptions.auth o)
    ca (ServerOptions.secure o) (ServerOptions.agent o)
    (ServerOptions.localAddress o) (ServerOptions.followRedirects o)
    (ServerOptions.prependPath o) (ServerOptions.toProxy o)
    (ServerOptions.ignorePath o) (ServerOptions.changeOrigin o).

(** C8 as the specification words it. *)
Definition never_prefixed (t : Target.t) (out : Outgoing.t) : Prop :=
  forall p path, Target.pathname t = Some p -> Outgoing.path out = JStr path ->
                 ~ starts_with p path.

Definition with_pathname (t : Target.t) (pathname path : option string) : Target.t :=
  Target.Make (Target.protocol t) (Target.port t) (Target.host t)
    (Target.hostname t) (Target.socketPath t) (Target.pfx t) (Target.key t)
    (Target.passphrase t) (Target.cert t) (Target.ca t) (Target.ciphers t)
    (Target.secureProtocol t) (Target.servername t) pathname path
    (Target.searchParams t).

Definition with_prependPath (options : ServerOptions.t) (v : jsval) : ServerOptions.t :=
  let o := options in
  ServerOptions.Make (ServerOptions.target o) (ServerOptions.forward o)
    (ServerOptions.method o) (ServerOptions.headers o) (ServerOptions.auth o)
    (ServerOptions.ca o) (ServerOptions.secure o) (ServerOptions.agent o)
    (ServerOptions.localAddress o) (ServerOptions.followRedirects o)
    v (ServerOptions.toProxy o)
    (ServerOptions.ignorePath o) (ServerOptions.changeOrigin o).

Definition api_path_target : Target.t :=
  Target.Make (Some "http:") (JNum 8080) (Some "backend") (Some "backend")
    None JUndefined JUndefined JUndefined JUndefined JUndefined JUndefined
    JUndefined JUndefined (Some "/api") None (Some []).

Definition has_colon (s : string) : bool := existsb (Ascii.eqb ":") (chars s).

Definition header_has_colon (v : option hval) : bool :=
  match v with
  | Some (HStr s) => has_colon s
  | _ => false
  end.

(** C4 as the specification words it: the suffix depends on the host
    header the request arrives with. *)
Definition host_header_as_specified (options : ServerOptions.t) (req : Request.t)
    (t : Target.t) (out : Outgoing.t) : Prop :=
  forall h r,
    Target.host t = Some h ->
    required (Outgoing.port out) (Target.protocol t) = Ok r ->
    Outgoing.headers out !! "host" =
      Some (HStr (if r && negb (header_has_colon (merged_headers options req !! "host"))
                  then h +:+ ":" +:+ to_string (Outgoing.port out)
                  else h)).

Definition with_changeOrigin (options : ServerOptions.t) (v : jsval) : ServerOptions.t :=
  let o := options in
  ServerOptions.Make (ServerOptions.target o) (ServerOptions.forward o)
    (ServerOptions.method o) (ServerOptions.headers o) (ServerOptions.auth o)
    (ServerOptions.ca o) (ServerOptions.secure o) (ServerOptions.agent o)
    (ServerOptions.localAddress o) (ServerOptions.followRedirects o)
    (ServerOptions.prependPath o) (ServerOptions.toProxy o)
    (ServerOptions.ignorePath o) v.

Definition request_with (url : string) (headers : list (string * hval)) : Request.t :=
  Request.Make url (JStr "GET") (list_to_map headers) None None.

Definition http_target (host : string) (port : jsval) : Target.t :=
  Target.Make (Some "http:") port (Some host) (Some host)
    None JUndefined JUndefined JUndefined JUndefined JUndefined JUndefined
    JUndefined JUndefined None None (Some []).

(** A target addressed by [hostname] and [port], without [host]. *)
Definition hostless_target : Target.t :=
  Target.Make (Some "http:") (JNum 8080) None (Some "localhost")
    None JUndefined JUndefined JUndefined JUndefined JUndefined JUndefined
    JUndefined JUndefined None None (Some []).

Definition is_spaces (l : list ascii) : Prop := Forall (fun c => is_space c = true) l.

Definition same_ci (a b : list ascii) : Prop := map canon a = map canon b.

(** The word [upgrade], in any case, as an element of a comma-separated
    list: white space may surround it, and it is bounded by the start of
    the value or a comma on the left, the end or a comma on the right. *)
Definition upgrade_token (h : string) : Prop :=
  exists pre ws1 w ws2 post,
    chars h = pre ++ ws1 ++ w ++ ws2 ++ post /\
    (pre = [] \/ exists pre', pre = pre' ++ [","%char]) /\
    is_spaces ws1 /\ same_ci w (chars "upgrade") /\ is_spaces ws2 /\
    (post = [] \/ exists post', post = ","%char :: post').

(** The parts of [upgradeHeader] from right to left: the closing
    [($|,)], the white space before it, the word, the white space before
    the word. *)
Definition upgrade_close : cursor -> option cursor := m (Alt Eol (Chr (eqb_ci ","))) Some.
Definition upgrade_trail : cursor -> option cursor := m (Star (Chr is_space)) upgrade_close.
Definition upgrade_word : cursor -> option cursor := m (lit_ci "upgrade") upgrade_trail.
Definition upgrade_lead : cursor -> option cursor := m (Star (Chr is_space)) upgrade_word.

Definition ends_item (l : list ascii) : Prop :=
  l = [] \/ exists t, l = ","%char :: t.

(** An attribute name that is literal in a pattern. *)
Definition name_ok (property : string) : Prop :=
  forallb is_name_char (chars property) = true.

(** [; name=value] as a list of characters: the name in any case, white
    space allowed before it, a value that is not empty and has no [;]. *)
Definition clause_chars (property prefix value : list ascii) : Prop :=
  exists ws name,
    prefix = ";"%char :: ws ++ name ++ ["="%char] /\
    is_spaces ws /\ same_ci name property /\
    value <> [] /\ Forall (fun c => c <> ";"%char) value.

Definition clause (property prefix value : string) : Prop :=
  clause_chars (chars property) (chars prefix) (chars value).

Definition has_clause (property header : string) : Prop :=
  exists pre prefix value post,
    header = pre +:+ prefix +:+ value +:+ post /\ clause property prefix value.

(** The first clause of the header, with its value taken up to the next
    [;] or the end. *)
Definition first_clause (property header pre prefix value post : string) : Prop :=
  header = pre +:+ prefix +:+ value +:+ post /\
  clause property prefix value /\
  (post = "" \/ exists t, post = ";" +:+ t) /\
  forall pre' prefix' value' post',
    header = pre' +:+ prefix' +:+ value' +:+ post' ->
    clause property prefix' value' ->
    (String.length pre <= String.length pre')%nat.

Definition cookie_run (property : string) (c : cursor) : option (cursor * cursor) :=
  m (cookie_prefix property) (fun c1 => m cookie_value (fun c2 => Some (c1, c2)) c1) c.

(** The pattern of [rewriteCookieProperty] after its white space. *)
Definition after_name (property : string) (c : cursor) : option (cursor * cursor) :=
  m (Seq (lit_ci property) (Chr (eqb_ci "=")))
    (fun c1 => m cookie_value (fun c2 => Some (c1, c2)) c1) c.

(** The map of the specification's example,
    [{"example.com": "proxy.local", "*": null}]. *)
Definition domain_map : Config.t :=
  Config.literal [("example.com", JStr "proxy.local"); ("*", JNull)].

(** The member the value of a clause is rewritten with: the one found
    under the value, among the own and the inherited properties, else
    the one found under [*]. *)
Definition looked_up (config : Config.t) (value : string) : option Config.member :=
  match Config.get config value with
  | Some m => Some m
  | None => Config.get config "*"
  end.

(** What the replacer makes of a clause. *)
Definition rewritten (config : Config.t) (header pre prefix value post : string)
    : string :=
  match looked_up config value with
  | Some m =>
      if Config.truthy m then pre +:+ prefix +:+ Config.to_string m +:+ post
      else pre +:+ post
  | None => header
  end.

(** The lookup as the documentation of the code has it, [config mapping
    of domain to rewritten domain]: among the entries of the map. *)
Definition documented (config : Config.t) (header pre prefix value post : string)
    : string :=
  match Config.own config !! value, Config.own config !! "*" with
  | Some m, _ | None, Some m =>
      if Config.truthy m then pre +:+ prefix +:+ Config.to_string m +:+ post
      else pre +:+ post
  | None, None => header
  end.

(** A map with a single entry, and a cookie whose [Domain] is the name
    of a member of [Object.prototype]. *)
Definition single_entry_map : Config.t :=
  Config.literal [("example.com", JStr "proxy.local")].

Definition constructor_cookie : string := "a=1; Domain=constructor; Path=/".

(** The options object as the call leaves it. *)
Definition options_after {P : Url.Platform} (outgoing : Outgoing.t)
    (options : ServerOptions.t) (req : Request.t) (forward : option target_key)
    : ServerOptions.t :=
  snd (setupOutgoing outgoing options req forward).

Definition api_options : ServerOptions.t := store no_options KeyTarget api_target.

Definition no_prepend_options : ServerOptions.t :=
  with_prependPath (store no_options KeyTarget api_path_target) (JBool false).

Definition hostless_options : ServerOptions.t :=
  with_changeOrigin (store no_options KeyTarget hostless_target) (JBool true).

(* ===================================================================== *)
(** * Definitions for the further properties *)
(* ===================================================================== *)

(** Runs of [/] reduced to one [/]; [prev] tells that a [/] was just
    written. *)
Fixpoint squeeze (prev : bool) (l : list ascii) : list ascii :=
  match l with
  | [] => []
  | x :: t =>
      if Ascii.eqb "/" x
      then if prev then squeeze true t else x :: squeeze true t
      else x :: squeeze false t
  end.

Definition no_slash (l : list ascii) : Prop := Forall (fun x => x <> "/"%char) l.

(** [/\/+/] *)
Definition slashes : re := Plus (Chr (is_char "/")).

(** Two [/] side by side. *)
Definition double_slash (l : list ascii) : Prop :=
  exists a b, l = a ++ "/"%char :: "/"%char :: b.

Definition not_slash (x : ascii) : bool := negb (Ascii.eqb "/" x).

Definition with_ignorePath (options : ServerOptions.t) (v : jsval) : ServerOptions.t :=
  let o := options in
  ServerOptions.Make (ServerOptions.target o) (ServerOptions.forward o)
    (ServerOptions.method o) (ServerOptions.headers o) (ServerOptions.auth o)
    (ServerOptions.ca o) (ServerOptions.secure o) (ServerOptions.agent o)
    (ServerOptions.localAddress o) (ServerOptions.followRedirects o)
    (ServerOptions.prependPath o) (ServerOptions.toProxy o)
    v (ServerOptions.changeOrigin o).

Definition with_toProxy (options : ServerOptions.t) (v : jsval) : ServerOptions.t :=
  let o := options in
  ServerOptions.Make (ServerOptions.target o) (ServerOptions.forward o)
    (ServerOptions.method o) (ServerOptions.headers o) (ServerOptions.auth o)
    (ServerOptions.ca o) (ServerOptions.secure o) (ServerOptions.agent o)
    (ServerOptions.localAddress o) (ServerOptions.followRedirects o)
    (ServerOptions.prependPath o) v
    (ServerOptions.ignorePath o) (ServerOptions.changeOrigin o).

Definition api_path_options : ServerOptions.t :=
  store no_options KeyTarget api_path_target.

Definition with_headers (options : ServerOptions.t) (h : list (string * hval))
    : ServerOptions.t :=
  let o := options in
  ServerOptions.Make (ServerOptions.target o) (ServerOptions.forward o)
    (ServerOptions.method o) (Some (list_to_map h)) (ServerOptions.auth o)
    (ServerOptions.ca o) (ServerOptions.secure o) (ServerOptions.agent o)
    (ServerOptions.localAddress o) (ServerOptions.followRedirects o)
    (ServerOptions.prependPath o) (ServerOptions.toProxy o)
    (ServerOptions.ignorePath o) (ServerOptions.changeOrigin o).

Definition with_agent (options : ServerOptions.t) (v : jsval) : ServerOptions.t :=
  let o := options in
  ServerOptions.Make (ServerOptions.target o) (ServerOptions.forward o)
    (ServerOptions.method o) (ServerOptions.headers o) (ServerOptions.auth o)
    (ServerOptions.ca o) (ServerOptions.secure o) v
    (ServerOptions.localAddress o) (ServerOptions.followRedirects o)
    (ServerOptions.prependPath o) (ServerOptions.toProxy o)
    (ServerOptions.ignorePath o) (ServerOptions.changeOrigin o).

(** [options.headers[k]], when there are [options.headers]. *)
Definition option_header (options : ServerOptions.t) (k : string) : option hval :=
  match ServerOptions.headers options with
  | Some h => h !! k
  | None => None
  end.

(** A [:] followed by a digit. *)
Definition port_at (l : list ascii) : Prop :=
  exists d t, l = ":"%char :: d :: t /\ is_digit d = true.

(** The first [:] of the host that a digit follows, with the digits
    after it. *)
Definition first_port (host : string) (pre ds post : list ascii) : Prop :=
  chars host = pre ++ ":"%char :: ds ++ post /\
  ds <> [] /\ Forall (fun x => is_digit x = true) ds /\
  (post = [] \/ exists x t, post = x :: t /\ is_digit x = false) /\
  forall a b, chars host = a ++ b -> (length a < length pre)%nat -> ~ port_at b.

Definition fallback_port (req : Request.t) : string :=
  if hasEncryptedConnection req then "443" else "80".

(** [/:(\d+)/] at a position. *)
Definition port_run (c : cursor) : option (cursor * cursor) :=
  m (Chr (is_char ":")) (fun c1 => m (Plus (Chr is_digit)) (fun c2 => Some (c1, c2)) c1) c.

(** The text after a [;] that begins, white space apart, with the
    attribute name in any case. *)
Definition attr_body (property : string) (body : list ascii) : Prop :=
  exists ws w u, body = ws ++ w ++ u /\ is_spaces ws /\ same_ci w (chars property).

(** The pattern of [removeCookieProperty], whole and after its white
    space. *)
Definition remove_re (property : string) : re :=
  Seq (Chr (eqb_ci ";"))
      (Seq (Star (Chr is_space))
           (Seq (lit_ci property) (Star (Chr not_semicolon)))).

Definition remove_name (property : string) (c : cursor) : option cursor :=
  m (Seq (lit_ci property) (Star (Chr not_semicolon))) Some c.



(** [typeof options.followRedirects === "object"], for a truthy value. *)
Definition follow_is_object (f : follow) : bool :=
  match f with FollowObject _ => true | _ => false end.

Definition with_auth (outgoing : Outgoing.t) (v : jsval) : Outgoing.t :=
  let o := outgoing in
  Outgoing.Make (Outgoing.port o) (Outgoing.host o) (Outgoing.hostname o)
    (Outgoing.socketPath o) (Outgoing.pfx o) (Outgoing.key o) (Outgoing.passphrase o)
    (Outgoing.cert o) (Outgoing.ca o) (Outgoing.ciphers o) (Outgoing.secureProtocol o)
    (Outgoing.servername o) (Outgoing.method o) (Outgoing.headers o) v
    (Outgoing.rejectUnauthorized o) (Outgoing.agent o) (Outgoing.localAddress o)
    (Outgoing.maxRedirects o) (Outgoing.maxBodyLength o) (Outgoing.agents o)
    (Outgoing.beforeRedirect o) (Outgoing.trackRedirects o) (Outgoing.path o).

Definition with_followRedirects (options : ServerOptions.t) (f : follow)
    : ServerOptions.t :=
  let o := options in
  ServerOptions.Make (ServerOptions.target o) (ServerOptions.forward o)
    (ServerOptions.method o) (ServerOptions.headers o) (ServerOptions.auth o)
    (ServerOptions.ca o) (ServerOptions.secure o) (ServerOptions.agent o)
    (ServerOptions.localAddress o) f
    (ServerOptions.prependPath o) (ServerOptions.toProxy o)
    (ServerOptions.ignorePath o) (ServerOptions.changeOrigin o).

Definition http_options : ServerOptions.t :=
  store no_options KeyTarget (http_target "backend" (JNum 8080)).

(* ===================================================================== *)
(** * Properties *)
(* ===================================================================== *)

Section StringFacts.

Lemma chars_str l : chars (str l) = l.
Proof. apply list_ascii_of_string_of_list_ascii. Qed.

Lemma str_chars s : str (chars s) = s.
Proof. apply string_of_list_ascii_of_string. Qed.

Lemma chars_app a b : chars (a +:+ b) = chars a ++ chars b.
Proof. induction a as [|x a IH]; simpl; [reflexivity|]. unfold chars in *. simpl. by rewrite IH. Qed.

Lemma str_app a b : str (a ++ b) = str a +:+ str b.
Proof. induction a as [|x a IH]; simpl; [reflexivity|]. unfold str in *. simpl. by rewrite IH. Qed.

Lemma chars_inj a b : chars a = chars b -> a = b.
Proof. intros H. rewrite <- (str_chars a), <- (str_chars b). by rewrite H. Qed.

Lemma string_eqb_spec (a b : string) : String.eqb a b = bool_decide (a = b).
Proof. destruct (String.eqb_spec a b); [rewrite bool_decide_eq_true_2 | rewrite bool_decide_eq_false_2]; done. Qed.

End StringFacts.

Section MatcherFacts.
Context {R : Type}.
Implicit Types (k : cursor -> option R) (c : cursor) (p : ascii -> bool).

Lemma m_literal f l k c :
  m (foldr (fun x r => Seq (Chr (f x)) r) Eps l) k c =
  match strip f l (rest c) with
  | Some t => k (Cursor (pos c + length l) t)
  | None => None
  end.
Proof.
  revert c. induction l as [|x l IH]; intros [i s]; simpl.
  - by rewrite Nat.add_0_r.
  - destruct s as [|y s]; [reflexivity|]. destruct (f x y); [|reflexivity].
    rewrite IH. simpl. by rewrite Nat.add_succ_r.
Qed.

Lemma star_chr_unfold p k c :
  m (Star (Chr p)) k c =
  match rest c with
  | x :: t =>
      if p x
      then match m (Star (Chr p)) k (advance c t) with
           | Some r => Some r
           | None => k c
           end
      else k c
  | [] => k c
  end.
Proof.
  destruct c as [i [|x t]]; [reflexivity|].
  cbn [m rest length star_loop]. destruct (p x); [|reflexivity].
  cbn [advance rest pos].
  assert ((length t <? S (length t))%nat = true) as -> by (apply Nat.ltb_lt; lia).
  reflexivity.
Qed.

Lemma run_skip p l : l = run p l ++ skip p l.
Proof. induction l as [|x t IH]; simpl; [done|]. destruct (p x); simpl; congruence. Qed.

Lemma run_Forall p l : Forall (fun x => p x = true) (run p l).
Proof. induction l as [|x t IH]; simpl; [constructor|]. destruct (p x) eqn:E; by constructor. Qed.

Lemma skip_head p l x t : skip p l = x :: t -> p x = false.
Proof.
  induction l as [|y l IH]; simpl; [done|].
  destruct (p y) eqn:E; [done|]. intros [= -> ->]. done.
Qed.

Lemma run_app_stop p a b :
  Forall (fun x => p x = true) a ->
  (b = [] \/ exists x t, b = x :: t /\ p x = false) ->
  run p (a ++ b) = a /\ skip p (a ++ b) = b.
Proof.
  intros Ha Hb. induction Ha as [|x a Hx Ha IH]; simpl.
  - destruct Hb as [->|(x & t & -> & Hx)]; simpl; [done|]. by rewrite Hx.
  - rewrite Hx. destruct IH as [-> ->]. done.
Qed.

(** A continuation that cannot start on a character of the class sees
    the class consumed whole. *)
Lemma star_chr_blocked p k c :
  (forall i x t, p x = true -> k (Cursor i (x :: t)) = None) ->
  m (Star (Chr p)) k c = k (after_run p c).
Proof.
  intros Hk. destruct c as [i s]. revert i.
  induction s as [|x t IH]; intros i; rewrite star_chr_unfold; cbn [rest].
  - unfold after_run. simpl. by rewrite Nat.add_0_r.
  - unfold after_run. cbn [rest pos run skip]. destruct (p x) eqn:E.
    + unfold advance. cbn [pos]. rewrite IH. unfold after_run. cbn [rest pos length].
      rewrite Nat.add_succ_r. simpl.
      rewrite (Hk i x t E). by destruct (k _).
    + simpl. by rewrite Nat.add_0_r.
Qed.

(** A continuation that accepts after the whole run gets it: the
    repetition is greedy. *)
Lemma star_chr_greedy p k c r :
  k (after_run p c) = Some r ->
  m (Star (Chr p)) k c = Some r.
Proof.
  destruct c as [i s]. revert i.
  induction s as [|x t IH]; intros i; rewrite star_chr_unfold; cbn [rest].
  - unfold after_run. simpl. by rewrite Nat.add_0_r.
  - unfold after_run. cbn [rest pos run skip]. destruct (p x) eqn:E.
    + intros H. unfold advance. cbn [pos]. rewrite (IH (S i)); [done|].
      unfold after_run. cbn [rest pos length] in *. by rewrite Nat.add_succ_r in H.
    + simpl. by rewrite Nat.add_0_r.
Qed.

(** Leftmost search. *)
Lemma search_from_Some (run : cursor -> option R) i s j x :
  search_from run i s = Some (j, x) <->
  exists a b, s = a ++ b /\ j = (i + length a)%nat /\ run (Cursor j b) = Some x /\
    forall a' b', s = a' ++ b' -> (length a' < length a)%nat ->
                  run (Cursor (i + length a') b') = None.
Proof.
  revert i. induction s as [|y s IH]; intros i; simpl.
  - destruct (run (Cursor i [])) eqn:E.
    + split.
      * intros [= <- <-]. exists [], []. simpl. rewrite Nat.add_0_r. repeat split; [done|].
        intros ? ? _ ?. lia.
      * intros (a & b & Hs & -> & Hr & _). symmetry in Hs. apply app_eq_nil in Hs as [-> ->].
        simpl in *. rewrite Nat.add_0_r in *. congruence.
    + split; [done|]. intros (a & b & Hs & -> & Hr & _). symmetry in Hs.
      apply app_eq_nil in Hs as [-> ->]. simpl in *. rewrite Nat.add_0_r in *. congruence.
  - destruct (run (Cursor i (y :: s))) eqn:E.
    + split.
      * intros [= <- <-]. exists [], (y :: s). simpl. rewrite Nat.add_0_r. repeat split; [done|].
        intros ? ? _ ?. lia.
      * intros (a & b & Hs & -> & Hr & Hmin). destruct a as [|z a].
        -- simpl in *. rewrite Nat.add_0_r in *. subst b. congruence.
        -- specialize (Hmin [] (y :: s) eq_refl). simpl in Hmin. rewrite Nat.add_0_r in Hmin.
           rewrite Hmin in E; [done|lia].
    + rewrite IH. split.
      * intros (a & b & -> & -> & Hr & Hmin). exists (y :: a), b. simpl.
        rewrite Nat.add_succ_r. repeat split; [done|].
        intros a' b' Hs Hl. destruct a' as [|z a'].
        -- simpl in *. subst. by rewrite Nat.add_0_r.
        -- simpl in *. injection Hs as Hy Hs. subst z. rewrite Nat.add_succ_r. apply Hmin; [done|lia].
      * intros (a & b & Hs & -> & Hr & Hmin). destruct a as [|z a].
        -- simpl in *. subst b. rewrite Nat.add_0_r in Hr. congruence.
        -- simpl in Hs. injection Hs as Hy Hs'. subst y s. exists a, b. simpl in *.
           rewrite Nat.add_succ_r in *. repeat split; [done|].
           intros a' b' Hab Hl. specialize (Hmin (z :: a') b'). simpl in Hmin.
           rewrite Nat.add_succ_r in Hmin. apply Hmin; [by rewrite Hab | lia].
Qed.

Lemma search_from_None (run : cursor -> option R) i s :
  search_from run i s = None <->
  forall a b, s = a ++ b -> run (Cursor (i + length a) b) = None.
Proof.
  revert i. induction s as [|y s IH]; intros i; simpl.
  - destruct (run (Cursor i [])) eqn:E.
    + split; [done|]. intros H. specialize (H [] [] eq_refl). simpl in H.
      rewrite Nat.add_0_r in H. congruence.
    + split; [|done]. intros _ a b Hs. symmetry in Hs. apply app_eq_nil in Hs as [-> ->].
      simpl. by rewrite Nat.add_0_r.
  - destruct (run (Cursor i (y :: s))) eqn:E.
    + split; [done|]. intros H. specialize (H [] _ eq_refl). simpl in H.
      rewrite Nat.add_0_r in H. congruence.
    + rewrite IH. split.
      * intros H a b Hs. destruct a as [|z a]; simpl in *.
        -- subst. by rewrite Nat.add_0_r.
        -- injection Hs as Hy Hs. subst y s. rewrite Nat.add_succ_r. by apply H.
      * intros H a b ->. specialize (H (y :: a) b eq_refl). simpl in H.
        by rewrite Nat.add_succ_r in H.
Qed.

End MatcherFacts.

Section MoreMatcherFacts.
Context {R : Type}.

Lemma search_from_is_Some (run : cursor -> option R) i s :
  is_Some (search_from run i s) <->
  exists a b, s = a ++ b /\ is_Some (run (Cursor (i + length a) b)).
Proof.
  revert i. induction s as [|y s IH]; intros i; simpl.
  - destruct (run (Cursor i [])) eqn:E.
    + split; [|by eauto]. intros _. exists [], []. simpl. rewrite Nat.add_0_r, E. by eauto.
    + split; [by intros [? [=]]|]. intros (a & b & Hs & Hr). symmetry in Hs.
      apply app_eq_nil in Hs as [-> ->]. simpl in Hr. rewrite Nat.add_0_r, E in Hr. done.
  - destruct (run (Cursor i (y :: s))) eqn:E.
    + split; [|by eauto]. intros _. exists [], (y :: s). simpl. rewrite Nat.add_0_r, E. by eauto.
    + rewrite IH. split.
      * intros (a & b & -> & Hr). exists (y :: a), b. simpl. by rewrite Nat.add_succ_r.
      * intros (a & b & Hs & Hr). destruct a as [|z a]; simpl in *.
        -- subst b. rewrite Nat.add_0_r, E in Hr. by destruct Hr.
        -- injection Hs as Hy Hs. subst. exists a, b. by rewrite Nat.add_succ_r in Hr.
Qed.

Lemma strip_eqb l s t : strip Ascii.eqb l s = Some t <-> s = l ++ t.
Proof.
  revert s. induction l as [|x l IH]; intros s; simpl.
  - split; congruence.
  - destruct s as [|y s]; [done|]. destruct (Ascii.eqb_spec x y) as [->|Hne].
    + rewrite IH. split; congruence.
    + split; [done|]. congruence.
Qed.

Lemma strip_ci l s t :
  strip eqb_ci l s = Some t <->
  exists w, s = w ++ t /\ map canon w = map canon l.
Proof.
  revert s. induction l as [|x l IH]; intros s; simpl.
  - split.
    + intros [= ->]. by exists [].
    + intros (w & -> & Hw). by destruct w.
  - destruct s as [|y s].
    + split; [done|]. intros (w & Hs & Hw). by destruct w.
    + unfold eqb_ci at 1. destruct (Ascii.eqb_spec (canon x) (canon y)) as [Heq|Hne].
      * rewrite IH. split.
        -- intros (w & -> & Hw). exists (y :: w). simpl. by rewrite Hw, Heq.
        -- intros (w & Hs & Hw). destruct w as [|z w]; [done|]. simpl in *.
           injection Hs as -> ->. injection Hw as _ Hw. eauto.
      * split; [done|]. intros (w & Hs & Hw). destruct w as [|z w]; [done|]. simpl in *.
        injection Hs as -> ->. injection Hw as Hc _. congruence.
Qed.

End MoreMatcherFacts.

Lemma test_true r s :
  test r s = true <->
  exists a b, chars s = a ++ b /\ is_Some (m r Some (Cursor (length a) b)).
Proof.
  unfold test. rewrite <- (search_from_is_Some (m r Some) 0 (chars s)).
  destruct (search_from _ _ _); split; try done; by eauto.
Qed.

Lemma isSSL_at i b :
  is_Some (m isSSL Some (Cursor i b)) <->
  (i = 0%nat /\ exists t, b = chars "https" ++ t) \/ (exists t, b = chars "wss" ++ t).
Proof.
  unfold isSSL. cbn [m]. unfold lit. rewrite !m_literal. cbn [pos rest].
  destruct (Nat.eqb_spec i 0) as [->|Hi].
  - destruct (strip Ascii.eqb (chars "https") b) as [t|] eqn:E1.
    + apply strip_eqb in E1. split; [|by eauto]. intros _. left. eauto.
    + destruct (strip Ascii.eqb (chars "wss") b) as [t|] eqn:E2.
      * apply strip_eqb in E2. split; [|by eauto]. intros _. right. eauto.
      * split; [by intros [? [=]]|]. intros [[_ [t Ht]]|[t Ht]].
        -- apply strip_eqb in Ht. congruence.
        -- apply strip_eqb in Ht. congruence.
  - destruct (strip Ascii.eqb (chars "wss") b) as [t|] eqn:E2.
    + apply strip_eqb in E2. split; [|by eauto]. intros _. right. eauto.
    + split; [by intros [? [=]]|]. intros [[? _]|[t Ht]]; [done|].
      apply strip_eqb in Ht. congruence.
Qed.

(** What [/^https|wss/] accepts: [https] at the start, or [wss] anywhere. *)
Lemma isSSL_test p :
  test isSSL p = true <-> starts_with "https" p \/ contains "wss" p.
Proof.
  rewrite test_true. split.
  - intros (a & b & Hs & Hm). apply isSSL_at in Hm as [[Ha [t Ht]]|[t Ht]].
    + left. apply length_zero_iff_nil in Ha. subst. simpl in Hs. exists (str t).
      apply chars_inj. by rewrite Hs, chars_app, chars_str.
    + right. exists (str a), (str t). apply chars_inj.
      by rewrite Hs, !chars_app, !chars_str, Ht.
  - intros [[t ->]|(a & b & ->)].
    + exists [], (chars "https" ++ chars t). split; [by rewrite chars_app|].
      apply isSSL_at. left. eauto.
    + exists (chars a), (chars "wss" ++ chars b). split; [by rewrite !chars_app|].
      apply isSSL_at. right. eauto.
Qed.

Section SetupFacts.
Context {P : Url.Platform}.

Lemma setupOutgoing_Ok outgoing options req forward out :
  fst (setupOutgoing outgoing options req forward) = Ok out ->
  exists t, select options (key_of forward) = Some t /\
            fill outgoing options req (resolve t) = Ok out.
Proof.
  unfold setupOutgoing. destruct (select options (key_of forward)) as [t|]; simpl; [|done].
  eauto.
Qed.

Lemma fill_Ok outgoing options req target out :
  fill outgoing options req target = Ok out ->
  exists path headers,
    outgoing_path options target req = Ok path /\
    host_header options target (Outgoing.port out) (Target.host target)
      (if negb (truthy (Outgoing.agent out))
       then close_unless_upgrade (merged_headers options req)
       else merged_headers options req) = Ok headers /\
    Outgoing.port out =
      js_or (Target.port target) (JNum (if sslEnabled target then 443 else 80)) /\
    Outgoing.agent out = js_or (ServerOptions.agent options) (JBool false) /\
    Outgoing.headers out = headers /\
    Outgoing.path out = JStr path /\
    Outgoing.rejectUnauthorized out =
      (if sslEnabled target then reject_unauthorized options
       else Outgoing.rejectUnauthorized outgoing) /\
    Outgoing.ca out =
      (if truthy (ServerOptions.ca options) then ServerOptions.ca options
       else Target.ca target) /\
    Outgoing.host out = Target.host target /\
    Outgoing.hostname out = Target.hostname target /\
    Outgoing.socketPath out = Target.socketPath target /\
    Outgoing.pfx out = Target.pfx target /\
    Outgoing.key out = Target.key target /\
    Outgoing.passphrase out = Target.passphrase target /\
    Outgoing.cert out = Target.cert target /\
    Outgoing.ciphers out = Target.ciphers target /\
    Outgoing.secureProtocol out = Target.secureProtocol target /\
    Outgoing.servername out = Target.servername target.
Proof.
  unfold fill. destruct (outgoing_path options target req) as [path|e]; simpl; [|done].
  destruct (host_header _ _ _ _ _) as [h|e] eqn:Hh; simpl; [|done].
  intros [= <-]. simpl. exists path, h. by repeat split.
Qed.

End SetupFacts.

(** C1 (counterexample): [HTTPS:] starts with [https] when case is
    ignored, and the pattern, which has no [i] flag, rejects it. *)
Lemma uppercase_scheme_not_encrypted : ~ encrypted_iff_scheme_ci "HTTPS:".
Proof.
  unfold encrypted_iff_scheme_ci. intros [_ H].
  assert (test isSSL "HTTPS:" = true) as Ht; [|by vm_compute in Ht].
  apply H. left. exists "HTTPS", ":". split; reflexivity.
Qed.

Section C1.
Context {P : Url.Platform}.

(** C1 (amended): a scheme that starts with lower-case [https] or [wss]
    is encrypted, a scheme that neither starts with [https] nor has
    [wss] in it is not, upper-case [HTTPS:] and [WSS:] are not; the
    default port is 443 for an encrypted target and 80 otherwise, and
    [rejectUnauthorized] is written for an encrypted target only. *)
Theorem isSSL_classification outgoing options req forward t p out :
  select options (key_of forward) = Some t ->
  Target.protocol t = Some p ->
  fst (setupOutgoing outgoing options req forward) = Ok out ->
  (starts_with "https" p \/ starts_with "wss" p -> sslEnabled t = true) /\
  (~ starts_with "https" p /\ ~ contains "wss" p -> sslEnabled t = false) /\
  test isSSL "HTTPS:" = false /\ test isSSL "WSS:" = false /\
  Outgoing.port out =
    js_or (Target.port t) (JNum (if sslEnabled t then 443 else 80)) /\
  Outgoing.rejectUnauthorized out =
    (if sslEnabled t then reject_unauthorized options
     else Outgoing.rejectUnauthorized outgoing).
Proof.
  intros Hsel Hp Hout. apply setupOutgoing_Ok in Hout as (t' & Hsel' & Hfill).
  assert (t' = t) as -> by congruence.
  apply fill_Ok in Hfill as (path & h & _ & _ & Hport & _ & _ & _ & Hrej & _).
  assert (sslEnabled (resolve t) = sslEnabled t) as Hssl by reflexivity.
  rewrite Hssl in *. unfold sslEnabled at 1 2. rewrite Hp. cbn [of_opt to_string].
  split; [|split; [|repeat split; done]].
  - intros [H|[u ->]]; apply isSSL_test; [by left|]. right. by exists "", u.
  - intros [H1 H2]. destruct (test isSSL p) eqn:E; [|done].
    apply isSSL_test in E as [?|?]; done.
Qed.

End C1.

(** C1 (instance): [https://api.example.com] without a port. *)
Lemma isSSL_classification_witness :
  exists out,
    fst (setupOutgoing (P:=OriginForm.platform) Outgoing.empty api_options
           (get_request "/users") None) = Ok out /\
    sslEnabled api_target = true /\
    Outgoing.port out = JNum 443 /\
    Outgoing.rejectUnauthorized out = JBool true.
Proof.
  destruct (fst (setupOutgoing (P:=OriginForm.platform) Outgoing.empty api_options
                   (get_request "/users") None)) as [out|] eqn:E;
    [|by vm_compute in E].
  exists out. split; [done|].
  destruct (isSSL_classification (P:=OriginForm.platform) Outgoing.empty api_options
              (get_request "/users") None api_target "https:" out
              eq_refl eq_refl E) as (H1 & _ & _ & _ & H3 & H4).
  assert (sslEnabled api_target = true) as Hs.
  { apply H1. left. by exists ":". }
  rewrite Hs in H3, H4. repeat split; done.
Defined.

Module UspFacts.
Import UrlSearchParams.

Lemma eqb_ne s t : s <> t -> String.eqb s t = false.
Proof. intros. by apply String.eqb_neq. Qed.

Lemma get_remove_ne k k' l : k <> k' -> get k (remove k' l) = get k l.
Proof.
  intros Hne. induction l as [|[k0 v0] l IH]; [done|].
  unfold remove in *. simpl.
  destruct (String.eqb_spec k0 k') as [->|H0]; simpl.
  - rewrite IH. by rewrite (eqb_ne k' k).
  - by rewrite IH.
Qed.

Lemma get_set k k' v l :
  get k (set k' v l) = if String.eqb k' k then Some v else get k l.
Proof.
  induction l as [|[k0 v0] l IH]; simpl.
  - by destruct (String.eqb k' k).
  - destruct (String.eqb_spec k0 k') as [->|H0]; simpl.
    + destruct (String.eqb_spec k' k) as [->|H1]; [done|].
      by rewrite get_remove_ne.
    + rewrite IH. destruct (String.eqb_spec k0 k) as [->|H1]; [|done].
      by rewrite (eqb_ne k' k).
Qed.

Lemma get_app k a b :
  get k (a ++ b) = match get k a with Some v => Some v | None => get k b end.
Proof.
  induction a as [|[k0 v0] a IH]; [done|]. simpl.
  by destruct (String.eqb k0 k).
Qed.

Lemma has_get k l : has k l = true <-> is_Some (get k l).
Proof.
  induction l as [|[k0 v0] l IH]; simpl.
  - split; [done|]. by intros [? [=]].
  - destruct (String.eqb k0 k); simpl; [|done]. split; eauto.
Qed.

Lemma merge_query_cons rq e tq :
  merge_query rq (e :: tq) = merge_query (set (fst e) (snd e) rq) tq.
Proof. reflexivity. Qed.

Lemma get_merge k rq tq :
  get k (merge_query rq tq) =
  match get k (rev tq) with Some v => Some v | None => get k rq end.
Proof.
  revert rq. induction tq as [|[k0 v0] tq IH]; intros rq; [done|].
  change (get k (merge_query (set k0 v0 rq) tq) =
          match get k (rev tq ++ [(k0, v0)]) with Some v => Some v | None => get k rq end).
  rewrite IH, get_app. destruct (get k (rev tq)); [done|].
  rewrite get_set. simpl. by destruct (String.eqb k0 k).
Qed.

(** Filters that drop the name being set do not see the update. *)
Lemma filter_remove (f : string -> bool) k l :
  f k = false ->
  List.filter (fun e => f (fst e)) (remove k l) = List.filter (fun e => f (fst e)) l.
Proof.
  intros Hf. induction l as [|[k0 v0] l IH]; [done|].
  unfold remove in *. simpl.
  destruct (String.eqb_spec k0 k) as [->|H0]; simpl.
  - by rewrite Hf.
  - by rewrite IH.
Qed.

Lemma filter_set (f : string -> bool) k v l :
  f k = false ->
  List.filter (fun e => f (fst e)) (set k v l) = List.filter (fun e => f (fst e)) l.
Proof.
  intros Hf. induction l as [|[k0 v0] l IH]; simpl.
  - by rewrite Hf.
  - destruct (String.eqb_spec k0 k) as [->|H0]; simpl.
    + rewrite Hf. by apply filter_remove.
    + by rewrite IH.
Qed.

Lemma filter_merge (f : string -> bool) rq tq :
  (forall k, has k tq = true -> f k = false) ->
  List.filter (fun e => f (fst e)) (merge_query rq tq) =
  List.filter (fun e => f (fst e)) rq.
Proof.
  revert rq. induction tq as [|[k0 v0] tq IH]; intros rq Hf; [done|].
  rewrite merge_query_cons, IH.
  - apply filter_set. apply Hf. simpl. by rewrite String.eqb_refl.
  - intros k Hk. apply Hf. simpl. rewrite Hk. by rewrite orb_true_r.
Qed.

Lemma occurrences_remove k l : occurrences k (remove k l) = 0%nat.
Proof.
  unfold occurrences, remove. induction l as [|[k0 v0] l IH]; [done|].
  simpl. destruct (String.eqb_spec k0 k) as [->|H0]; simpl; [done|].
  by rewrite (eqb_ne k0 k).
Qed.

Lemma occurrences_set k v l : occurrences k (set k v l) = 1%nat.
Proof.
  induction l as [|[k0 v0] l IH]; simpl.
  - unfold occurrences. simpl. by rewrite String.eqb_refl.
  - destruct (String.eqb_spec k0 k) as [->|H0].
    + unfold occurrences. simpl. rewrite String.eqb_refl. simpl. f_equal.
      apply occurrences_remove.
    + unfold occurrences in *. simpl. by rewrite (eqb_ne k0 k).
Qed.

Lemma occurrences_merge k rq tq :
  has k tq = true -> occurrences k (merge_query rq tq) = 1%nat.
Proof.
  revert rq. induction tq as [|[k0 v0] tq IH]; intros rq; [done|].
  rewrite merge_query_cons. simpl.
  destruct (has k tq) eqn:Hk.
  - intros _. by apply IH.
  - rewrite orb_false_r. intros ->%String.eqb_eq.
    unfold occurrences.
    rewrite (filter_merge (fun x => String.eqb x k) (set k v0 rq) tq).
    + apply occurrences_set.
    + intros k' Hk'. destruct (String.eqb_spec k' k) as [->|]; congruence.
Qed.

(** Order of first occurrence. *)
Lemma without_cons x z l :
  without x (z :: l) = if String.eqb z x then without x l else z :: without x l.
Proof. unfold without. simpl. by destruct (String.eqb z x). Qed.

Lemma without_without x y l : without x (without y l) = without y (without x l).
Proof.
  induction l as [|z l IH]; [done|]. rewrite !without_cons.
  destruct (String.eqb z y) eqn:Ey, (String.eqb z x) eqn:Ex;
    rewrite ?without_cons, ?Ey, ?Ex; congruence.
Qed.

Lemma without_idem x l : without x (without x l) = without x l.
Proof.
  induction l as [|z l IH]; [done|]. rewrite !without_cons.
  destruct (String.eqb z x) eqn:Ex; rewrite ?without_cons, ?Ex; congruence.
Qed.

Lemma without_app x a b : without x (a ++ b) = without x a ++ without x b.
Proof. apply List.filter_app. Qed.

Lemma distinct_without x l : distinct (without x l) = without x (distinct l).
Proof.
  induction l as [|z l IH]; [done|]. cbn [distinct]. rewrite !without_cons.
  destruct (String.eqb z x) eqn:Ex.
  - apply String.eqb_eq in Ex as ->. by rewrite IH, without_idem.
  - cbn [distinct]. by rewrite IH, without_without.
Qed.

Lemma keys_remove k l : keys (remove k l) = without k (keys l).
Proof.
  unfold keys, remove, without. induction l as [|[k0 v0] l IH]; [done|]. simpl.
  destruct (String.eqb k0 k); simpl; congruence.
Qed.

Lemma distinct_keys_set k v l :
  distinct (keys (set k v l)) = distinct (keys l ++ [k]).
Proof.
  induction l as [|[k0 v0] l IH]; [done|]. cbn [set fst].
  destruct (String.eqb_spec k0 k) as [->|H0].
  - cbn [keys map fst app distinct]. f_equal. fold (keys (remove k l)). fold (keys l).
    rewrite <- !distinct_without. rewrite keys_remove, without_app, without_idem.
    rewrite (without_cons k k []), String.eqb_refl. by rewrite app_nil_r.
  - cbn [keys map fst app distinct]. f_equal. fold (keys (set k v l)). fold (keys l).
    by rewrite IH.
Qed.

Lemma minus_cons l z a : minus l (z :: a) = without z (minus l a).
Proof.
  unfold minus. induction l as [|y l IH]; [done|]. cbn [List.filter existsb] in *.
  destruct (existsb (String.eqb y) a).
  - by rewrite orb_true_r.
  - rewrite orb_false_r. cbn [negb]. rewrite without_cons.
    destruct (String.eqb y z); cbn [negb]; congruence.
Qed.

Lemma distinct_app a b : distinct (a ++ b) = distinct a ++ minus (distinct b) a.
Proof.
  induction a as [|z a IH].
  - unfold minus. simpl. induction (distinct b); simpl; congruence.
  - cbn [app distinct]. by rewrite IH, without_app, minus_cons.
Qed.

Lemma existsb_without y z l :
  existsb (String.eqb y) (without z l) =
  negb (String.eqb y z) && existsb (String.eqb y) l.
Proof.
  induction l as [|x l IH].
  - simpl. by rewrite andb_false_r.
  - rewrite without_cons. destruct (String.eqb_spec x z) as [->|Hx]; cbn [existsb].
    + rewrite IH. by destruct (String.eqb y z).
    + rewrite IH. destruct (String.eqb_spec y x) as [->|Hy]; simpl; [|done].
      by rewrite (eqb_ne x z).
Qed.

Lemma existsb_distinct y l :
  existsb (String.eqb y) (distinct l) = existsb (String.eqb y) l.
Proof.
  induction l as [|x l IH]; [done|]. cbn [distinct existsb].
  rewrite existsb_without, IH. by destruct (String.eqb y x).
Qed.

Lemma distinct_app_congr a a' b :
  distinct a = distinct a' -> distinct (a ++ b) = distinct (a' ++ b).
Proof.
  intros H. rewrite !distinct_app, H. f_equal. unfold minus.
  apply List.filter_ext. intros y.
  by rewrite <- (existsb_distinct y a), H, existsb_distinct.
Qed.

Lemma distinct_keys_merge rq tq :
  distinct (keys (merge_query rq tq)) = distinct (keys rq ++ keys tq).
Proof.
  revert rq. induction tq as [|[k0 v0] tq IH]; intros rq.
  - simpl. by rewrite app_nil_r.
  - rewrite merge_query_cons, IH. cbn [keys map fst snd].
    rewrite (distinct_app_congr _ (keys rq ++ [k0])) by apply distinct_keys_set.
    by rewrite <- app_assoc.
Qed.

End UspFacts.

Section C2.
Context {P : Url.Platform}.
Import UrlSearchParams UspFacts.

Lemma searchParams_fold es u :
  Url.searchParams
    (fold_left (fun u e => Url.searchParams_set (fst e) (snd e) u) es u) =
  merge_query (Url.searchParams u) es.
Proof.
  revert u. induction es as [|e es IH]; intros u; [done|].
  cbn [fold_left]. rewrite IH. reflexivity.
Qed.

(** C2 (amended): the merged query has, for every name the target
    sets, exactly one pair, with the target's (last) value; the pairs of
    the names only the request has are kept as they are; and the names
    appear in the order of the request, followed by the names only the
    target has, in the target's order. *)
Theorem merged_query_keeps_request_order target req entries u0 :
  Target.searchParams target = Some entries ->
  Url.new (Request.url req) = Ok u0 ->
  exists u, merged_url target req = Ok u /\
    let rq := Url.searchParams u0 in
    let mq := Url.searchParams u in
    mq = merge_query rq entries /\
    (forall k, has k entries = true ->
               get k mq = get k (rev entries) /\ occurrences k mq = 1%nat) /\
    List.filter (fun e => negb (has (fst e) entries)) mq =
      List.filter (fun e => negb (has (fst e) entries)) rq /\
    distinct (keys mq) = distinct (keys rq ++ keys entries).
Proof.
  intros Hsp Hnew. unfold merged_url. rewrite Hnew, Hsp. cbn [bind].
  eexists. split; [reflexivity|]. cbn zeta. rewrite searchParams_fold.
  split; [reflexivity|]. split; [|split].
  - intros k Hk. split; [|by apply occurrences_merge].
    rewrite get_merge. destruct (get k (rev entries)) eqn:E; [done|].
    exfalso. apply has_get in Hk as [v Hv].
    assert (get k (rev (rev entries)) = None) as Hn.
    { clear Hv. revert E. generalize (rev entries). intros l.
      induction l as [|[k0 v0] l IH]; [done|]. simpl.
      destruct (String.eqb k0 k) eqn:Ek; [done|]. intros H.
      rewrite get_app, (IH H). simpl. by rewrite Ek. }
    rewrite rev_involutive in Hn. congruence.
  - apply (filter_merge (fun k => negb (has k entries))).
    intros k ->. done.
  - apply distinct_keys_merge.
Qed.

End C2.


(** C2 (instance): request [/x?a=1&b=2], target parameters [b=3], [c=4]. *)
Lemma merged_query_keeps_request_order_witness :
  exists u,
    merged_url (P:=OriginForm.platform)
      (query_target [("b", "3"); ("c", "4")]) (get_request "/x?a=1&b=2") = Ok u /\
    Url.searchParams u = [("a", "1"); ("b", "3"); ("c", "4")] /\
    Url.search u = "?a=1&b=3&c=4".
Proof.
  destruct (merged_query_keeps_request_order (P:=OriginForm.platform)
              (query_target [("b", "3"); ("c", "4")]) (get_request "/x?a=1&b=2")
              [("b", "3"); ("c", "4")]
              (Url.Make "/x" (Some "a=1&b=2") [("a", "1"); ("b", "2")])
              eq_refl eq_refl) as (u & Hu & Hm & _).
  exists u. split; [exact Hu|]. simpl in Hm.
  assert (u = Url.Make "/x" (Some "a=1&b=3&c=4") [("a", "1"); ("b", "3"); ("c", "4")]) as ->.
  { vm_compute in Hu. congruence. }
  split; reflexivity.
Defined.

(** C2 (counterexample): request [?a=1&b=2], target parameters [b=3],
    [c=4]: the merged list is [a, b, c], not [b, c, a]. *)
Lemma request_order_wins :
  ~ target_names_first [("a", "1"); ("b", "2")] [("b", "3"); ("c", "4")]
      (merge_query [("a", "1"); ("b", "2")] [("b", "3"); ("c", "4")]).
Proof. unfold target_names_first. vm_compute. discriminate. Qed.

Section StoreFacts.
Context {P : Url.Platform}.

Lemma select_store options k t : select (store options k t) k = Some t.
Proof. by destruct k. Qed.

Lemma select_store_ne options k k' t :
  k' <> k -> select (store options k t) k' = select options k'.
Proof. by destruct k, k'. Qed.

Lemma store_id options k t : select options k = Some t -> store options k t = options.
Proof. destruct options, k; simpl; by intros ->. Qed.

Lemma resolve_resolved t : resolved t -> resolve t = t.
Proof.
  destruct t as [? ? ? ? ? ? ? ? ? ? ? ? ? pn pa sp]. unfold resolved, resolve. simpl.
  intros [[l ->] [->| ->]]; reflexivity.
Qed.

Lemma resolve_idem t : resolve (resolve t) = resolve t.
Proof.
  apply resolve_resolved. destruct t as [? ? ? ? ? ? ? ? ? ? ? ? ? pn pa sp].
  unfold resolved, resolve. cbn.
  split; [by destruct sp; eauto|].
  destruct pa as [p|]; [|by left]. destruct (String.eqb_spec p "") as [->|]; simpl; auto.
Qed.

Lemma fill_store outgoing options req k t target :
  fill outgoing (store options k t) req target = fill outgoing options req target.
Proof. by destruct options, k. Qed.

End StoreFacts.

(** C3 (counterexample): a target given with the legacy [path] and without
    its parameter container is rewritten in place by the call. *)
Lemma legacy_target_is_rewritten :
  ~ leaves_options_unchanged (P:=OriginForm.platform) Outgoing.empty
      (store no_options KeyTarget legacy_target) (get_request "/users") None.
Proof. unfold leaves_options_unchanged. vm_compute. discriminate. Qed.

Section StoreObjects.

Lemma unused_fresh {A} (m : gmap ref A) : m !! Store.unused m = None.
Proof.
  destruct (m !! Store.unused m) as [x|] eqn:E; [|done]. exfalso.
  apply elem_of_map_to_list in E.
  assert (Store.unused m ∈ (map_to_list m).*1) as Hin.
  { apply (list_elem_of_fmap_2 fst _ (Store.unused m, x)), E. }
  assert (Forall (fun k => (k <= list_max ((map_to_list m).*1))%nat) ((map_to_list m).*1)) as Hall.
  { by apply list_max_le. }
  rewrite Forall_forall in Hall. specialize (Hall _ Hin). unfold Store.unused in Hall. lia.
Qed.

Lemma kept_insert {A} (m : gmap ref A) x : kept m (<[Store.unused m := x]> m).
Proof.
  intros l y Hl. rewrite lookup_insert_ne; [done|].
  intros <-. by rewrite unused_fresh in Hl.
Qed.

Lemma resolve_normalised t : normalised t (resolve t).
Proof.
  destruct t as [? ? ? ? ? ? ? ? ? ? ? ? ? pn pa sp]. unfold normalised, resolve. cbn.
  split; [by destruct sp|]. split; [|split; [|by repeat split]].
  - intros p Hpa Hp. subst pa. by destruct (String.eqb_spec p "").
  - by intros [-> | ->].
Qed.

Lemma strings_of_JStr l : strings_of (map JStr l) = Some l.
Proof. induction l as [|s l IH]; cbn; [done|]. by rewrite IH. Qed.

End StoreObjects.

Section FrameSetup.
Context {P : Url.Platform}.

Lemma setupOutgoing_st_descriptor st outgoing options req forward :
  descriptor (fst (setupOutgoing_st outgoing options req forward st)) =
  fst (setupOutgoing outgoing (OptionsRef.load st options) (RequestRef.load st req) forward).
Proof.
  unfold setupOutgoing_st, setupOutgoing.
  assert (select (OptionsRef.load st options) (key_of forward) =
          match OptionsRef.at_key options (key_of forward) with
          | Some l => Store.targets st !! l
          | None => None
          end) as ->.
  { by destruct (key_of forward). }
  destruct (OptionsRef.at_key options (key_of forward)) as [l|]; [|done].
  destruct (Store.targets st !! l) as [t|]; [|done]. cbn [fst].
  by destruct (fill outgoing (OptionsRef.load st options) (RequestRef.load st req) (resolve t)).
Qed.

(** The targets of the store after the call. *)
Lemma setupOutgoing_st_targets st outgoing options req forward :
  Store.targets (store_after outgoing options req forward st) =
  match OptionsRef.at_key options (key_of forward) with
  | Some l =>
      match Store.targets st !! l with
      | Some t => <[l := resolve t]> (Store.targets st)
      | None => Store.targets st
      end
  | None => Store.targets st
  end.
Proof.
  unfold store_after, setupOutgoing_st.
  destruct (OptionsRef.at_key options (key_of forward)) as [l|]; [|done].
  destruct (Store.targets st !! l) as [t|]; [|done].
  by destruct (fill outgoing (OptionsRef.load st options) (RequestRef.load st req) (resolve t)).
Qed.

Lemma setupOutgoing_st_headers st outgoing options req forward :
  match fst (setupOutgoing_st outgoing options req forward st) with
  | Ok (out, h) =>
      Store.headers st !! h = None /\
      Store.headers (store_after outgoing options req forward st) =
        <[h := Outgoing.headers out]> (Store.headers st)
  | Throw _ =>
      Store.headers (store_after outgoing options req forward st) = Store.headers st
  end.
Proof.
  unfold store_after, setupOutgoing_st.
  destruct (OptionsRef.at_key options (key_of forward)) as [l|]; [|done].
  destruct (Store.targets st !! l) as [t|]; [|done].
  destruct (fill outgoing (OptionsRef.load st options) (RequestRef.load st req) (resolve t));
    cbn; [|done].
  split; [apply unused_fresh|done].
Qed.

Lemma setupOutgoing_st_kept st outgoing options req forward :
  kept (Store.headers st) (Store.headers (store_after outgoing options req forward st)).
Proof.
  pose proof (setupOutgoing_st_headers st outgoing options req forward) as H.
  destruct (fst (setupOutgoing_st outgoing options req forward st)) as [[out h]|].
  - destruct H as [Hh ->]. intros l x Hl. rewrite lookup_insert_ne; [done|].
    intros ->. by rewrite Hh in Hl.
  - rewrite H. by intros l x.
Qed.

Lemma setupOutgoing_st_arrays st outgoing options req forward :
  Store.arrays (store_after outgoing options req forward st) = Store.arrays st.
Proof.
  unfold store_after, setupOutgoing_st.
  destruct (OptionsRef.at_key options (key_of forward)) as [l|]; [|done].
  destruct (Store.targets st !! l) as [t|]; [|done].
  by destruct (fill outgoing (OptionsRef.load st options) (RequestRef.load st req) (resolve t)).
Qed.

Lemma kept_headers_load st st' options req :
  kept (Store.headers st) (Store.headers st') ->
  in_store st options req ->
  RequestRef.load st' req = RequestRef.load st req /\
  ServerOptions.headers (OptionsRef.load st' options) =
    ServerOptions.headers (OptionsRef.load st options).
Proof.
  intros Hk [[h Hh] Ho]. split.
  - unfold RequestRef.load. by rewrite Hh, (Hk _ _ Hh).
  - cbn. destruct (OptionsRef.headers options) as [l|]; [|done].
    destruct (Ho l eq_refl) as [x Hx]. by rewrite Hx, (Hk _ _ Hx).
Qed.

End FrameSetup.

Section CookieStore.

Lemma allocates_only_refl st : allocates_only st st.
Proof. unfold allocates_only, kept. auto. Qed.

Lemma return_cookie_frame c st :
  allocates_only st (snd (return_cookie c st)) /\
  exists r,
    fst (return_cookie c st) = Ok r /\
    load_cookie (snd (return_cookie c st)) r = Ok c /\
    (forall a, r = CArr a -> Store.arrays st !! a = None).
Proof.
  destruct c as [s|l]; cbn.
  - split; [apply allocates_only_refl|]. exists (CStr s). by repeat split.
  - split; [split; [done|split; [done|apply kept_insert]]|].
    exists (CArr (Store.unused (Store.arrays st))). split; [done|]. split.
    + cbn. by rewrite lookup_insert_eq, strings_of_JStr.
    + intros a [= <-]. apply unused_fresh.
Qed.

Lemma rewriteCookieProperty_st_frame st header config property :
  allocates_only st (snd (rewriteCookieProperty_st header config property st)) /\
  (forall h, load_cookie st header = Ok h ->
     exists r,
       fst (rewriteCookieProperty_st header config property st) = Ok r /\
       load_cookie (snd (rewriteCookieProperty_st header config property st)) r =
         Ok (rewriteCookieProperty h config property) /\
       (forall a, r = CArr a -> Store.arrays st !! a = None)).
Proof.
  unfold rewriteCookieProperty_st. destruct (load_cookie st header) as [h|e].
  - split; [apply return_cookie_frame|]. intros h' [= <-]. apply return_cookie_frame.
  - split; [apply allocates_only_refl|done].
Qed.

Lemma removeCookieProperty_st_frame st header property :
  allocates_only st (snd (removeCookieProperty_st header property st)) /\
  (forall h, load_cookie st header = Ok h ->
     exists r,
       fst (removeCookieProperty_st header property st) = Ok r /\
       load_cookie (snd (removeCookieProperty_st header property st)) r =
         Ok (removeCookieProperty h property) /\
       (forall a, r = CArr a -> Store.arrays st !! a = None)).
Proof.
  unfold removeCookieProperty_st. destruct (load_cookie st header) as [h|e].
  - split; [apply return_cookie_frame|]. intros h' [= <-]. apply return_cookie_frame.
  - split; [apply allocates_only_refl|done].
Qed.

Lemma mergeSetCookie_st_frame st x y :
  allocates_only st (snd (mergeSetCookie_st x y st)) /\
  exists a,
    fst (mergeSetCookie_st x y st) = Ok a /\
    Store.arrays st !! a = None /\
    Store.arrays (snd (mergeSetCookie_st x y st)) !! a =
      Some (mergeSetCookie (load_arg st x) (load_arg st y)).
Proof.
  unfold mergeSetCookie_st. cbn. split; [split; [done|split; [done|apply kept_insert]]|].
  eexists. split; [done|]. split; [apply unused_fresh|]. by rewrite lookup_insert_eq.
Qed.

End CookieStore.

Section FrameOptions.
Context {P : Url.Platform}.

Lemma select_load st options k :
  select (OptionsRef.load st options) k =
  match OptionsRef.at_key options k with
  | Some l => Store.targets st !! l
  | None => None
  end.
Proof. by destruct k. Qed.

Lemma setupOutgoing_st_select st outgoing options req forward k' t :
  select (OptionsRef.load st options) k' = Some t ->
  (OptionsRef.at_key options k' = OptionsRef.at_key options (key_of forward) ->
   select (OptionsRef.load (store_after outgoing options req forward st) options) k'
     = Some (resolve t)) /\
  (OptionsRef.at_key options k' <> OptionsRef.at_key options (key_of forward) ->
   select (OptionsRef.load (store_after outgoing options req forward st) options) k'
     = Some t).
Proof.
  rewrite !select_load, setupOutgoing_st_targets.
  destruct (OptionsRef.at_key options k') as [l'|]; [|done]. intros Ht. split.
  - intros <-. rewrite Ht. by rewrite lookup_insert_eq.
  - intros Hne. destruct (OptionsRef.at_key options (key_of forward)) as [l|]; [|done].
    destruct (Store.targets st !! l) as [u|]; [|done].
    rewrite lookup_insert_ne; [done|]. congruence.
Qed.

Lemma load_after_separate st outgoing options req forward :
  in_store st options req ->
  ~ one_object options ->
  OptionsRef.load (store_after outgoing options req forward st) options =
  options_after outgoing (OptionsRef.load st options) (RequestRef.load st req) forward.
Proof.
  intros Hin Hsep.
  destruct (kept_headers_load st (store_after outgoing options req forward st) options req
              (setupOutgoing_st_kept st outgoing options req forward) Hin) as [_ Hh].
  unfold options_after, setupOutgoing. rewrite select_load.
  unfold OptionsRef.load in *. cbn in Hh. rewrite Hh, setupOutgoing_st_targets.
  destruct (key_of forward); cbn [OptionsRef.at_key].
  - destruct (OptionsRef.target options) as [l|] eqn:Et; [|reflexivity].
    destruct (Store.targets st !! l) as [t|] eqn:El; [|cbn [snd]; by rewrite ?El]. cbn [snd store ServerOptions.forward
      ServerOptions.method ServerOptions.headers ServerOptions.auth ServerOptions.ca
      ServerOptions.secure ServerOptions.agent ServerOptions.localAddress
      ServerOptions.followRedirects ServerOptions.prependPath ServerOptions.toProxy
      ServerOptions.ignorePath ServerOptions.changeOrigin].
    rewrite lookup_insert_eq. f_equal.
    destruct (OptionsRef.forward options) as [l'|] eqn:Ef; [|done].
    rewrite lookup_insert_ne; [done|]. intros <-. apply Hsep. by exists l.
  - destruct (OptionsRef.forward options) as [l|] eqn:Ef; [|reflexivity].
    destruct (Store.targets st !! l) as [t|] eqn:El; [|cbn [snd]; by rewrite ?El]. cbn [snd store ServerOptions.target
      ServerOptions.method ServerOptions.headers ServerOptions.auth ServerOptions.ca
      ServerOptions.secure ServerOptions.agent ServerOptions.localAddress
      ServerOptions.followRedirects ServerOptions.prependPath ServerOptions.toProxy
      ServerOptions.ignorePath ServerOptions.changeOrigin].
    rewrite lookup_insert_eq. f_equal.
    destruct (OptionsRef.target options) as [l'|] eqn:Et; [|done].
    rewrite lookup_insert_ne; [done|]. intros <-. apply Hsep. by exists l.
Qed.

Lemma load_after_shared st outgoing options req forward t :
  in_store st options req ->
  one_object options ->
  select (OptionsRef.load st options) (key_of forward) = Some t ->
  OptionsRef.load (store_after outgoing options req forward st) options =
  store (store (OptionsRef.load st options) KeyTarget (resolve t)) KeyForward (resolve t).
Proof.
  intros Hin (l & Et & Ef) Hsel.
  destruct (kept_headers_load st (store_after outgoing options req forward st) options req
              (setupOutgoing_st_kept st outgoing options req forward) Hin) as [_ Hh].
  rewrite select_load in Hsel.
  assert (OptionsRef.at_key options (key_of forward) = Some l) as Hk.
  { by destruct (key_of forward). }
  rewrite Hk in Hsel.
  unfold OptionsRef.load in *. cbn in Hh. rewrite Hh, setupOutgoing_st_targets, Hk, Hsel.
  rewrite Et, Ef, lookup_insert_eq. reflexivity.
Qed.

End FrameOptions.

Section C3.
Context {P : Url.Platform}.

(** C3 (amended), on the store of the objects the layer is handed.
    [setupOutgoing] returns what it returns on the objects its references
    name, and of the objects of the store it writes one: the target
    object under the selected key, which it normalises in place (an
    empty parameter container when there is none, a non-empty [path]
    moved to [pathname], every other property kept).  No other target
    object is written, and none at all when the selected one is
    normalised already or absent.  Under the other key the options read
    the normalised object when both keys name one object, the object as
    it was otherwise.  Every header object there was, those of the
    request and of the options among them, is as before: the headers of
    the descriptor are a new object.  With the headers of the request and
    the options in the store, the request reads as before, and so do the
    options but for their targets: the selected one is normalised, and
    the other one with it when the two keys name one object.  The arrays
    are as before.  The cookie rewriters (for an attribute name made of
    letters, digits, [-] and [_]) and [mergeSetCookie] write no object
    either: what they return is a string or a new array.  [getPort] and
    [hasEncryptedConnection] leave the store as it is. *)
Theorem setupOutgoing_writes_only_the_target st outgoing options req forward :
  descriptor (fst (setupOutgoing_st outgoing options req forward st)) =
    fst (setupOutgoing outgoing (OptionsRef.load st options) (RequestRef.load st req)
           forward) /\
  (forall l t,
     OptionsRef.at_key options (key_of forward) = Some l ->
     Store.targets st !! l = Some t ->
     exists t',
       Store.targets (store_after outgoing options req forward st) !! l = Some t' /\
       normalised t t') /\
  (forall l,
     OptionsRef.at_key options (key_of forward) <> Some l ->
     Store.targets (store_after outgoing options req forward st) !! l =
     Store.targets st !! l) /\
  ((forall l t,
      OptionsRef.at_key options (key_of forward) = Some l ->
      Store.targets st !! l = Some t -> resolved t) ->
   Store.targets (store_after outgoing options req forward st) = Store.targets st) /\
  (forall k' t,
     select (OptionsRef.load st options) k' = Some t ->
     (OptionsRef.at_key options k' = OptionsRef.at_key options (key_of forward) ->
      exists t',
        select (OptionsRef.load (store_after outgoing options req forward st) options) k'
          = Some t' /\
        normalised t t') /\
     (OptionsRef.at_key options k' <> OptionsRef.at_key options (key_of forward) ->
      select (OptionsRef.load (store_after outgoing options req forward st) options) k'
        = Some t)) /\
  match fst (setupOutgoing_st outgoing options req forward st) with
  | Ok (out, h) =>
      Store.headers st !! h = None /\
      Store.headers (store_after outgoing options req forward st) =
        <[h := Outgoing.headers out]> (Store.headers st)
  | Throw _ =>
      Store.headers (store_after outgoing options req forward st) = Store.headers st
  end /\
  (in_store st options req ->
   RequestRef.load (store_after outgoing options req forward st) req =
     RequestRef.load st req /\
   same_options (OptionsRef.load (store_after outgoing options req forward st) options)
                (OptionsRef.load st options) /\
   (~ one_object options ->
    OptionsRef.load (store_after outgoing options req forward st) options =
    options_after outgoing (OptionsRef.load st options) (RequestRef.load st req) forward) /\
   (one_object options ->
    forall t, select (OptionsRef.load st options) (key_of forward) = Some t ->
    OptionsRef.load (store_after outgoing options req forward st) options =
    store (store (OptionsRef.load st options) KeyTarget (resolve t)) KeyForward
          (resolve t))) /\
  Store.arrays (store_after outgoing options req forward st) = Store.arrays st /\
  (forall header config property,
     name_ok property ->
     allocates_only st (snd (rewriteCookieProperty_st header config property st)) /\
     (forall h, load_cookie st header = Ok h ->
        exists r,
          fst (rewriteCookieProperty_st header config property st) = Ok r /\
          load_cookie (snd (rewriteCookieProperty_st header config property st)) r =
            Ok (rewriteCookieProperty h config property) /\
          (forall a, r = CArr a -> Store.arrays st !! a = None))) /\
  (forall header property,
     name_ok property ->
     allocates_only st (snd (removeCookieProperty_st header property st)) /\
     (forall h, load_cookie st header = Ok h ->
        exists r,
          fst (removeCookieProperty_st header property st) = Ok r /\
          load_cookie (snd (removeCookieProperty_st header property st)) r =
            Ok (removeCookieProperty h property) /\
          (forall a, r = CArr a -> Store.arrays st !! a = None))) /\
  (forall x y,
     allocates_only st (snd (mergeSetCookie_st x y st)) /\
     exists a,
       fst (mergeSetCookie_st x y st) = Ok a /\
       Store.arrays st !! a = None /\
       Store.arrays (snd (mergeSetCookie_st x y st)) !! a =
         Some (mergeSetCookie (load_arg st x) (load_arg st y))) /\
  (forall r, snd (getPort_st r st) = st /\ snd (hasEncryptedConnection_st r st) = st).
Proof.
  split; [apply setupOutgoing_st_descriptor|].
  split.
  { intros l t Hl Ht. exists (resolve t). split; [|apply resolve_normalised].
    by rewrite setupOutgoing_st_targets, Hl, Ht, lookup_insert_eq. }
  split.
  { intros l Hl. rewrite setupOutgoing_st_targets.
    destruct (OptionsRef.at_key options (key_of forward)) as [l0|]; [|done].
    destruct (Store.targets st !! l0) as [t|]; [|done].
    rewrite lookup_insert_ne; [done|]. congruence. }
  split.
  { intros Hres. rewrite setupOutgoing_st_targets.
    destruct (OptionsRef.at_key options (key_of forward)) as [l|]; [|done].
    destruct (Store.targets st !! l) as [t|] eqn:Ht; [|done].
    rewrite (resolve_resolved t (Hres l t eq_refl Ht)). by apply insert_id. }
  split.
  { intros k' t Hk'.
    destruct (setupOutgoing_st_select st outgoing options req forward k' t Hk') as [Ha Hb].
    split; [|done]. intros He. exists (resolve t). split; [by apply Ha|].
    apply resolve_normalised. }
  split; [apply setupOutgoing_st_headers|].
  split.
  { intros Hin.
    destruct (kept_headers_load st (store_after outgoing options req forward st) options req
                (setupOutgoing_st_kept st outgoing options req forward) Hin) as [Hr Ho].
    split; [done|]. split; [by repeat split|]. split; [by apply load_after_separate|].
    intros Hone t Ht. by apply load_after_shared. }
  split; [apply setupOutgoing_st_arrays|].
  split; [intros; apply rewriteCookieProperty_st_frame|].
  split; [intros; apply removeCookieProperty_st_frame|].
  split; [intros; apply mergeSetCookie_st_frame|].
  done.
Qed.

End C3.

(** C3 (instance): [options.target] and [options.forward] are one
    object, given with the legacy [path]; a call for the forward key
    leaves it normalised, and that is what the target key reads. *)
Lemma setupOutgoing_writes_only_the_target_witness :
  exists t',
    select (OptionsRef.load
              (store_after (P:=OriginForm.platform) Outgoing.empty shared_options
                 shared_request (Some KeyForward) shared_store)
              shared_options) KeyTarget = Some t' /\
    Target.pathname t' = Some "/api" /\
    Target.path t' = None /\
    Target.searchParams t' = Some [] /\
    Target.host t' = Some "backend".
Proof.
  destruct (setupOutgoing_writes_only_the_target (P:=OriginForm.platform) shared_store
              Outgoing.empty shared_options shared_request (Some KeyForward))
    as (_ & _ & _ & _ & H & _).
  destruct (H KeyTarget legacy_target eq_refl) as [Ha _].
  destruct (Ha eq_refl) as (t' & Ht & Hsp & Hp & _ & _ & _ & Hh & _).
  exists t'. split; [exact Ht|].
  destruct (Hp "/api" eq_refl) as [Hpn Hpa]; [done|].
  repeat split; assumption.
Defined.

(** C7 (counterexample): [options.ca] takes the place of the [ca] of the
    target. *)
Lemma options_ca_overrides_target_ca :
  exists out,
    fst (setupOutgoing (P:=OriginForm.platform) Outgoing.empty
           (with_ca (store no_options KeyTarget tls_target) (JStr "TOP-CA"))
           (get_request "/") None) = Ok out /\
    ~ copies_target_fields tls_target out.
Proof.
  eexists. split; [vm_compute; reflexivity|].
  unfold copies_target_fields. cbn. intros (_ & _ & _ & _ & _ & _ & _ & H & _).
  discriminate H.
Qed.

Section C7.
Context {P : Url.Platform}.

(** C7 (amended): the descriptor has the target's [host], [hostname],
    [socketPath], [pfx], [key], [passphrase], [cert], [ciphers],
    [secureProtocol] and [servername], [undefined] where the target has
    none; its [ca] is [options.ca] when that is truthy and the target's
    [ca] otherwise. *)
Theorem target_fields_copied outgoing options req forward t out :
  select options (key_of forward) = Some t ->
  fst (setupOutgoing outgoing options req forward) = Ok out ->
  Outgoing.host out = Target.host t /\
  Outgoing.hostname out = Target.hostname t /\
  Outgoing.socketPath out = Target.socketPath t /\
  Outgoing.pfx out = Target.pfx t /\
  Outgoing.key out = Target.key t /\
  Outgoing.passphrase out = Target.passphrase t /\
  Outgoing.cert out = Target.cert t /\
  Outgoing.ciphers out = Target.ciphers t /\
  Outgoing.secureProtocol out = Target.secureProtocol t /\
  Outgoing.servername out = Target.servername t /\
  Outgoing.ca out =
    (if truthy (ServerOptions.ca options) then ServerOptions.ca options
     else Target.ca t).
Proof.
  intros Hsel Hout. apply setupOutgoing_Ok in Hout as (t' & Hsel' & Hfill).
  assert (t' = t) as -> by congruence.
  apply fill_Ok in Hfill
    as (path & h & _ & _ & _ & _ & _ & _ & _ & Hca & H1 & H2 & H3 & H4 & H5 & H6 & H7 & H8 & H9 & H10).
  repeat split; done.
Qed.

End C7.

(** C7 (instance): a target with [key], [cert] and [ca], no [options.ca]. *)
Lemma target_fields_copied_witness :
  exists out,
    fst (setupOutgoing (P:=OriginForm.platform) Outgoing.empty
           (store no_options KeyTarget tls_target) (get_request "/") None) = Ok out /\
    Outgoing.key out = JStr "KEY" /\
    Outgoing.pfx out = JUndefined /\
    Outgoing.ca out = JStr "TARGET-CA".
Proof.
  destruct (fst (setupOutgoing (P:=OriginForm.platform) Outgoing.empty
                   (store no_options KeyTarget tls_target) (get_request "/") None))
    as [out|] eqn:E; [|by vm_compute in E].
  exists out. split; [done|].
  destruct (target_fields_copied (P:=OriginForm.platform) Outgoing.empty
              (store no_options KeyTarget tls_target) (get_request "/") None
              tls_target out eq_refl E)
    as (_ & _ & _ & H4 & H5 & _ & _ & _ & _ & _ & H11).
  repeat split; done.
Defined.

(** C8 (counterexample): with [prependPath: false], target path name
    [/api] and request [/api/users], the outgoing path is [/api/users]. *)
Lemma request_path_may_start_with_pathname :
  exists out,
    fst (setupOutgoing (P:=OriginForm.platform) Outgoing.empty
           (with_prependPath (store no_options KeyTarget api_path_target) (JBool false))
           (get_request "/api/users") None) = Ok out /\
    ~ never_prefixed api_path_target out.
Proof.
  eexists. split; [vm_compute; reflexivity|].
  intros H. apply (H "/api" "/api/users"); [reflexivity..|]. by exists "/users".
Qed.

Section C8.
Context {P : Url.Platform}.

Lemma join_request_only x : join_slash (filter_nonempty [""; x]) = x.
Proof.
  unfold filter_nonempty. simpl. destruct (String.eqb_spec x "") as [->|]; reflexivity.
Qed.

(** C8 (amended): with [prependPath] explicitly [false] the target's path
    name (and legacy [path]) has no part in the result: the outgoing path
    is the request's part with runs of [/] collapsed, followed by the
    merged query. *)
Theorem prependPath_false_drops_pathname outgoing options req forward t :
  ServerOptions.prependPath options = JBool false ->
  select options (key_of forward) = Some t ->
  (forall pathname path,
     fst (setupOutgoing outgoing
            (store options (key_of forward) (with_pathname t pathname path))
            req forward) =
     fst (setupOutgoing outgoing options req forward)) /\
  (forall out,
     fst (setupOutgoing outgoing options req forward) = Ok out ->
     exists reqUrl,
       merged_url (resolve t) req = Ok reqUrl /\
       Outgoing.path out =
         JStr (collapse_slashes (request_part options reqUrl req)
               +:+ Url.search reqUrl)).
Proof.
  intros Hpp Hsel. split.
  - intros pn pa. unfold setupOutgoing. rewrite select_store, Hsel. cbn [fst].
    rewrite fill_store.
    destruct t as [? ? ? ? ? ? ? ? ? ? ? ? ? pn0 pa0 sp].
    unfold fill, outgoing_path, target_part, host_header, merged_url, sslEnabled.
    rewrite Hpp. reflexivity.
  - intros out Hout. apply setupOutgoing_Ok in Hout as (t' & Hsel' & Hfill).
    assert (t' = t) as -> by congruence.
    apply fill_Ok in Hfill as (path & h & Hpath & _ & _ & _ & _ & Hp & _).
    unfold outgoing_path, target_part in Hpath. rewrite Hpp in Hpath. cbn [is_not_false] in Hpath.
    destruct (merged_url (resolve t) req) as [u|] eqn:Hu; [|done].
    cbn [bind] in Hpath. rewrite join_request_only in Hpath.
    exists u. split; [done|]. congruence.
Qed.

End C8.

(** C8 (instance): target path name [/api], request [/users//7?x=1]. *)
Lemma prependPath_false_drops_pathname_witness :
  exists out,
    fst (setupOutgoing (P:=OriginForm.platform) Outgoing.empty no_prepend_options
           (get_request "/users//7?x=1") None) = Ok out /\
    Outgoing.path out = JStr "/users/7?x=1".
Proof.
  destruct (fst (setupOutgoing (P:=OriginForm.platform) Outgoing.empty no_prepend_options
                   (get_request "/users//7?x=1") None)) as [out|] eqn:E;
    [|by vm_compute in E].
  exists out. split; [done|].
  destruct (prependPath_false_drops_pathname (P:=OriginForm.platform) Outgoing.empty
              no_prepend_options (get_request "/users//7?x=1") None api_path_target
              eq_refl eq_refl) as [_ H].
  destruct (H out E) as (u & Hu & Hp).
  vm_compute in Hu. injection Hu as <-. rewrite Hp. vm_compute. reflexivity.
Defined.

Lemma truthy_js_or a b : truthy (js_or a b) = truthy a || truthy b.
Proof. unfold js_or. destruct (truthy a) eqn:E; simpl; [by rewrite E|done]. Qed.

Lemma opt_chain_truthy {A} (f : A -> jsval) (o : option A) :
  truthy (opt_chain f o) = true <-> exists x, o = Some x /\ truthy (f x) = true.
Proof.
  destruct o as [x|]; simpl.
  - split; [by eauto|]. by intros (? & [= <-] & ?).
  - split; [done|]. by intros (? & ? & ?).
Qed.

(** C10: [hasEncryptedConnection] is a total Boolean function, true
    exactly when the [connection] or the [socket] of its argument has a
    truthy [encrypted] or [pair]; in particular it is false for a request
    that has neither object, or objects without these flags. *)
Theorem hasEncryptedConnection_spec (req : Request.t) :
  (hasEncryptedConnection req = true <->
   exists s, (Request.connection req = Some s \/ Request.socket req = Some s) /\
             (truthy (Socket.encrypted s) = true \/ truthy (Socket.pair s) = true)) /\
  (hasEncryptedConnection req = false <->
   forall s, (Request.connection req = Some s \/ Request.socket req = Some s) ->
             truthy (Socket.encrypted s) = false /\ truthy (Socket.pair s) = false) /\
  hasEncryptedConnection (get_request "/") = false.
Proof.
  assert (hasEncryptedConnection req = true <->
          exists s, (Request.connection req = Some s \/ Request.socket req = Some s) /\
             (truthy (Socket.encrypted s) = true \/ truthy (Socket.pair s) = true)) as Hiff.
  { unfold hasEncryptedConnection. rewrite !truthy_js_or, !orb_true_iff, !opt_chain_truthy.
    split.
    - intros [[[(x & ? & ?)|(x & ? & ?)]|(x & ? & ?)]|(x & ? & ?)]; exists x; auto.
    - intros (x & [Hc|Hs] & [He|Hp]).
      + left. left. left. by exists x.
      + left. right. by exists x.
      + left. left. right. by exists x.
      + right. by exists x. }
  split; [exact Hiff|]. split; [|reflexivity].
  split.
  - intros Hf x Hx.
    destruct (truthy (Socket.encrypted x)) eqn:E1, (truthy (Socket.pair x)) eqn:E2;
      try done; exfalso;
      (assert (hasEncryptedConnection req = true) as Ht by (apply Hiff; exists x; auto));
      congruence.
  - intros H. destruct (hasEncryptedConnection req) eqn:E; [|done].
    destruct Hiff as [Hiff _]. destruct (Hiff eq_refl) as (x & Hx & Ht).
    destruct (H x Hx) as [H1 H2].
    destruct Ht; congruence.
Qed.

Lemma index_from_spec x l i :
  0 <= i ->
  (existsb (Ascii.eqb x) l = false /\ index_from x l i = -1) \/
  (existsb (Ascii.eqb x) l = true /\ i <= index_from x l i).
Proof.
  revert i. induction l as [|c l IH]; intros i Hi; simpl; [by left|].
  rewrite (Ascii.eqb_sym x c). destruct (Ascii.eqb c x); simpl.
  - right. split; [done|lia].
  - destruct (IH (i + 1)) as [[? ?]|[? ?]]; [lia|by left|right]. split; [done|lia].
Qed.

Lemma hasPort_Some h : hasPort (Some h) = Ok (has_colon h).
Proof.
  unfold hasPort, indexOf, has_colon. f_equal.
  destruct (index_from_spec ":" (chars h) 0) as [[-> ->]|[-> H]]; [lia|done|].
  apply negb_true_iff, Z.eqb_neq. unfold Z.lnot. lia.
Qed.

(** C4 (counterexample): the request arrives with [Host: proxy.local:3000],
    the target is [http://backend] on port 8080: the header becomes
    [backend:8080] although the header it replaces had a colon. *)
Lemma colon_in_request_host_is_not_looked_at :
  exists out,
    fst (setupOutgoing (P:=OriginForm.platform) Outgoing.empty
           (with_changeOrigin
              (store no_options KeyTarget (http_target "backend" (JNum 8080)))
              (JBool true))
           (request_with "/" [("host", HStr "proxy.local:3000")]) None) = Ok out /\
    ~ host_header_as_specified
        (with_changeOrigin
           (store no_options KeyTarget (http_target "backend" (JNum 8080)))
           (JBool true))
        (request_with "/" [("host", HStr "proxy.local:3000")])
        (http_target "backend" (JNum 8080)) out.
Proof.
  eexists. split; [vm_compute; reflexivity|].
  intros H. specialize (H "backend" true eq_refl eq_refl).
  vm_compute in H. discriminate H.
Qed.

Section C4.
Context {P : Url.Platform}.

(** C4 (amended): with [changeOrigin] truthy and a target that has a
    [host], the [host] header is the target's host, followed by [:] and
    the port exactly when the port is not the default one of the
    target's scheme and the target's host has no colon in it.  Port 443
    is the default of [https:], port 8080 is not the default of
    [http:]. *)
Theorem host_header_rewritten outgoing options req forward t h out :
  truthy (ServerOptions.changeOrigin options) = true ->
  select options (key_of forward) = Some t ->
  Target.host t = Some h ->
  fst (setupOutgoing outgoing options req forward) = Ok out ->
  (exists r,
     required (Outgoing.port out) (Target.protocol t) = Ok r /\
     Outgoing.headers out !! "host" =
       Some (HStr (if r && negb (has_colon h)
                   then h +:+ ":" +:+ to_string (Outgoing.port out)
                   else h))) /\
  required (JNum 443) (Some "https:") = Ok false /\
  required (JNum 8080) (Some "http:") = Ok true.
Proof.
  intros Hco Hsel Hh Hout. split; [|split; reflexivity].
  apply setupOutgoing_Ok in Hout as (t' & Hsel' & Hfill).
  assert (t' = t) as -> by congruence.
  apply fill_Ok in Hfill as (path & hd & _ & Hhost & _ & _ & Hhd & _).
  unfold host_header in Hhost. rewrite Hco in Hhost.
  change (Target.protocol (resolve t)) with (Target.protocol t) in Hhost.
  change (Target.host (resolve t)) with (Target.host t) in Hhost.
  rewrite Hh in Hhost.
  destruct (required (Outgoing.port out) (Target.protocol t)) as [r|] eqn:Hr; [|done].
  exists r. split; [done|]. cbn [bind] in Hhost. rewrite Hhd.
  destruct r; cbn [bind andb] in Hhost.
  - rewrite hasPort_Some in Hhost. cbn [bind] in Hhost. injection Hhost as <-.
    rewrite lookup_insert_eq. by destruct (has_colon h).
  - injection Hhost as <-. by rewrite lookup_insert_eq.
Qed.

End C4.

(** C4 (instance): the two examples of the specification. *)
Lemma host_header_rewritten_witness :
  (exists out,
     fst (setupOutgoing (P:=OriginForm.platform) Outgoing.empty
            (with_changeOrigin (store no_options KeyTarget api_target) (JBool true))
            (get_request "/") None) = Ok out /\
     Outgoing.headers out !! "host" = Some (HStr "api.example.com")) /\
  (exists out,
     fst (setupOutgoing (P:=OriginForm.platform) Outgoing.empty
            (with_changeOrigin
               (store no_options KeyTarget (http_target "host" (JNum 8080)))
               (JBool true))
            (get_request "/") None) = Ok out /\
     Outgoing.headers out !! "host" = Some (HStr "host:8080")).
Proof.
  split.
  - destruct (fst (setupOutgoing (P:=OriginForm.platform) Outgoing.empty
                     (with_changeOrigin (store no_options KeyTarget api_target) (JBool true))
                     (get_request "/") None)) as [out|] eqn:E; [|by vm_compute in E].
    exists out. split; [done|].
    destruct (host_header_rewritten (P:=OriginForm.platform) Outgoing.empty
                (with_changeOrigin (store no_options KeyTarget api_target) (JBool true))
                (get_request "/") None api_target "api.example.com" out
                eq_refl eq_refl eq_refl E) as [(r & Hr & Hh) _].
    rewrite Hh. vm_compute in E. injection E as <-. vm_compute in Hr.
    injection Hr as <-. reflexivity.
  - destruct (fst (setupOutgoing (P:=OriginForm.platform) Outgoing.empty
                     (with_changeOrigin
                        (store no_options KeyTarget (http_target "host" (JNum 8080)))
                        (JBool true))
                     (get_request "/") None)) as [out|] eqn:E; [|by vm_compute in E].
    exists out. split; [done|].
    destruct (host_header_rewritten (P:=OriginForm.platform) Outgoing.empty
                (with_changeOrigin
                   (store no_options KeyTarget (http_target "host" (JNum 8080)))
                   (JBool true))
                (get_request "/") None (http_target "host" (JNum 8080)) "host" out
                eq_refl eq_refl eq_refl E) as [(r & Hr & Hh) _].
    rewrite Hh. vm_compute in E. injection E as <-. vm_compute in Hr.
    injection Hr as <-. reflexivity.
Defined.

Section C5.
Context {P : Url.Platform}.

(** When [setupOutgoing] returns: the selected target is there, the
    request URL parses and, under [changeOrigin], the target has a
    protocol and, when its port calls for the suffix, a host. *)
Lemma setupOutgoing_returns_iff outgoing options req forward :
  returns (fst (setupOutgoing outgoing options req forward)) <->
  exists t,
    select options (key_of forward) = Some t /\
    is_Some (Url.parse (Request.url req)) /\
    (truthy (ServerOptions.changeOrigin options) = true ->
     exists r,
       required (js_or (Target.port t) (JNum (if sslEnabled t then 443 else 80)))
                (Target.protocol t) = Ok r /\
       (r = true -> is_Some (Target.host t))).
Proof.
  unfold setupOutgoing, returns.
  destruct (select options (key_of forward)) as [t|]; cbn [fst].
  2:{ split; [by intros [? [=]]|]. by intros (? & [=] & _). }
  unfold fill, outgoing_path, merged_url, Url.new.
  assert (Target.searchParams (resolve t) =
          Some (match Target.searchParams t with Some l => l | None => [] end)) as ->.
  { unfold resolve. cbn. by destruct (Target.searchParams t). }
  change (sslEnabled (resolve t)) with (sslEnabled t).
  change (Target.port (resolve t)) with (Target.port t).
  change (Target.host (resolve t)) with (Target.host t).
  destruct (Url.parse (Request.url req)) as [[p q]|]; cbn [bind].
  2:{ split; [by intros [? [=]]|]. intros (? & _ & [? [=]] & _). }
  unfold host_header.
  change (Target.protocol (resolve t)) with (Target.protocol t).
  destruct (truthy (ServerOptions.changeOrigin options)); cbn [bind].
  2:{ split; [|by eauto]. intros _. exists t. split; [done|]. split; [by eauto|].
      intros [=]. }
  destruct (required _ (Target.protocol t)) as [r|] eqn:Hr; cbn [bind].
  2:{ split; [by intros [? [=]]|]. intros (t' & [= <-] & _ & H).
      destruct (H eq_refl) as (r & Hx & _). congruence. }
  destruct r; cbn [bind].
  - destruct (Target.host t) as [h|] eqn:Hh.
    + rewrite hasPort_Some. cbn [bind]. split; [|by eauto].
      intros _. exists t. repeat split; [by eauto|]. intros _. exists true. split; [done|]. by eauto.
    + cbn [hasPort bind]. split; [by intros [? [=]]|].
      intros (t' & [= <-] & _ & H). destruct (H eq_refl) as (r & Hr' & Hx).
      assert (r = true) as -> by congruence.
      rewrite Hh in Hx. by destruct (Hx eq_refl).
  - split; [|by eauto]. intros _. exists t. repeat split; [by eauto|].
    intros _. exists false. split; [done|]. done.
Qed.

End C5.

(** C5 (the code at the failing input): the request URL [/] parses, the
    target is there, and the call faults, on [indexOf] of the absent
    host. *)
Theorem hostless_target_faults :
  is_Some (@Url.parse OriginForm.platform "/") /\
  select hostless_options KeyTarget = Some hostless_target /\
  truthy (ServerOptions.changeOrigin hostless_options) = true /\
  required (JNum 8080) (Target.protocol hostless_target) = Ok true /\
  Target.host hostless_target = None /\
  fst (setupOutgoing (P:=OriginForm.platform) Outgoing.empty hostless_options
         (get_request "/") None) = Throw TypeError.
Proof. split; [by eexists|]. repeat split; reflexivity. Qed.

Section CharFacts.

Lemma eqb_ci_comma x : eqb_ci "," x = Ascii.eqb "," x.
Proof. destruct x as [[] [] [] [] [] [] [] []]; reflexivity. Qed.

Lemma eqb_ci_semicolon x : eqb_ci ";" x = Ascii.eqb ";" x.
Proof. destruct x as [[] [] [] [] [] [] [] []]; reflexivity. Qed.

Lemma eqb_ci_equals x : eqb_ci "=" x = Ascii.eqb "=" x.
Proof. destruct x as [[] [] [] [] [] [] [] []]; reflexivity. Qed.

Lemma space_canon x : is_space x = true -> canon x = x.
Proof. destruct x as [[] [] [] [] [] [] [] []]; intros H; (reflexivity || discriminate H). Qed.

Lemma space_not_u x : is_space x = true -> eqb_ci "u" x = false.
Proof. destruct x as [[] [] [] [] [] [] [] []]; intros H; (reflexivity || discriminate H). Qed.

Lemma space_not_comma x : is_space x = true -> eqb_ci "," x = false.
Proof. destruct x as [[] [] [] [] [] [] [] []]; intros H; (reflexivity || discriminate H). Qed.

End CharFacts.

Section Upgrade.

Lemma upgrade_close_some i s : is_Some (upgrade_close (Cursor i s)) <-> ends_item s.
Proof.
  unfold upgrade_close, ends_item. cbn [m rest]. destruct s as [|x t].
  - split; [by left|by eauto].
  - rewrite eqb_ci_comma. destruct (Ascii.eqb_spec "," x) as [<-|Hne].
    + split; [|by eauto]. intros _. right. eauto.
    + split; [by intros [? [=]]|]. intros [[=]|[t' [= ? ?]]]. congruence.
Qed.

Lemma upgrade_close_blocked i x t : is_space x = true -> upgrade_close (Cursor i (x :: t)) = None.
Proof. intros H. unfold upgrade_close. cbn [m rest]. by rewrite (space_not_comma x H). Qed.

Lemma upgrade_trail_eq c : upgrade_trail c = upgrade_close (after_run is_space c).
Proof. unfold upgrade_trail. apply star_chr_blocked. intros. by apply upgrade_close_blocked. Qed.

Lemma upgrade_word_eq c :
  upgrade_word c = match strip eqb_ci (chars "upgrade") (rest c) with
         | Some t => upgrade_trail (Cursor (pos c + 7) t)
         | None => None
         end.
Proof. unfold upgrade_word, lit_ci. by rewrite m_literal. Qed.

Lemma upgrade_word_blocked i x t : is_space x = true -> upgrade_word (Cursor i (x :: t)) = None.
Proof. intros H. rewrite upgrade_word_eq. cbn. by rewrite (space_not_u x H). Qed.

Lemma upgrade_lead_eq c : upgrade_lead c = upgrade_word (after_run is_space c).
Proof. unfold upgrade_lead. apply star_chr_blocked. intros. by apply upgrade_word_blocked. Qed.

Lemma ends_item_stop l :
  ends_item l -> l = [] \/ exists x t, l = x :: t /\ is_space x = false.
Proof. intros [->|[t ->]]; [by left|right]. by exists ","%char, t. Qed.

Lemma same_ci_upgrade_stop w l :
  same_ci w (chars "upgrade") ->
  w ++ l = [] \/ exists x t, w ++ l = x :: t /\ is_space x = false.
Proof.
  intros H. right. destruct w as [|x w]; [done|]. exists x, (w ++ l). split; [done|].
  injection H as Hx _. destruct (is_space x) eqn:E; [|done].
  pose proof (space_not_u x E) as Hu. unfold eqb_ci in Hu.
  rewrite Hx in Hu. by vm_compute in Hu.
Qed.

Lemma upgrade_lead_some i s :
  is_Some (upgrade_lead (Cursor i s)) <->
  exists ws1 w ws2 post,
    s = ws1 ++ w ++ ws2 ++ post /\ is_spaces ws1 /\
    same_ci w (chars "upgrade") /\ is_spaces ws2 /\ ends_item post.
Proof.
  rewrite upgrade_lead_eq, upgrade_word_eq. unfold after_run. cbn [rest pos]. split.
  - destruct (strip eqb_ci (chars "upgrade") (skip is_space s)) as [t|] eqn:E;
      [|by intros [? [=]]].
    rewrite upgrade_trail_eq. unfold after_run. cbn [rest pos]. intros H%upgrade_close_some.
    apply strip_ci in E as (w & Hs & Hw).
    exists (run is_space s), w, (run is_space t), (skip is_space t).
    split; [|repeat split; auto using run_Forall].
    + rewrite <- (run_skip is_space t), <- Hs. apply run_skip.
    + apply run_Forall.
    + apply run_Forall.
  - intros (ws1 & w & ws2 & post & -> & H1 & Hw & H2 & Hp).
    destruct (run_app_stop is_space ws1 (w ++ ws2 ++ post) H1
                (same_ci_upgrade_stop w _ Hw)) as [_ ->].
    assert (strip eqb_ci (chars "upgrade") (w ++ ws2 ++ post) = Some (ws2 ++ post)) as ->.
    { apply strip_ci. by exists w. }
    rewrite upgrade_trail_eq. unfold after_run. cbn [rest pos].
    destruct (run_app_stop is_space ws2 post H2 (ends_item_stop _ Hp)) as [_ ->].
    by apply upgrade_close_some.
Qed.

Lemma m_alt_bol_chr {R} p (k : cursor -> option R) i b :
  m (Alt Bol (Chr p)) k (Cursor i b) =
  match (if (i =? 0)%nat then k (Cursor i b) else None) with
  | Some x => Some x
  | None =>
      match b with
      | x :: t => if p x then k (Cursor (S i) t) else None
      | [] => None
      end
  end.
Proof. reflexivity. Qed.

Lemma upgradeHeader_at i b :
  is_Some (m upgradeHeader Some (Cursor i b)) <->
  (i = 0%nat /\ is_Some (upgrade_lead (Cursor 0 b))) \/
  (exists t, b = ","%char :: t /\ is_Some (upgrade_lead (Cursor (S i) t))).
Proof.
  change (m upgradeHeader Some (Cursor i b))
    with (m (Alt Bol (Chr (eqb_ci ","))) upgrade_lead (Cursor i b)).
  rewrite m_alt_bol_chr.
  destruct (Nat.eqb_spec i 0) as [->|Hi].
  - destruct (upgrade_lead (Cursor 0 b)) eqn:E.
    + split; [|by eauto]. intros _. left. split; [done|by eexists].
    + destruct b as [|x t].
      * split; [by intros [? [=]]|]. intros [[_ [? [=]]]|(t & Ht & _)]. done.
      * rewrite eqb_ci_comma. destruct (Ascii.eqb_spec "," x) as [<-|Hne].
        -- split; [intros Hk; right; by eauto|].
           intros [[_ [? [=]]]|(t' & Ht & Hk)]. by injection Ht as <-.
        -- split; [by intros [? [=]]|]. intros [[_ [? [=]]]|(t' & Ht & Hk)].
           injection Ht as Hx _. congruence.
  - destruct b as [|x t].
    + split; [by intros [? [=]]|]. intros [[? _]|(t & Ht & _)]; done.
    + rewrite eqb_ci_comma. destruct (Ascii.eqb_spec "," x) as [<-|Hne].
      * split; [intros Hk; right; by eauto|].
        intros [[? _]|(t' & Ht & Hk)]; [done|]. by injection Ht as <-.
      * split; [by intros [? [=]]|]. intros [[? _]|(t' & Ht & Hk)]; [done|].
        injection Ht as Hx _. congruence.
Qed.

(** What [/(^|,)\s*upgrade\s*($|,)/i] accepts. *)
Lemma upgradeHeader_test h : test upgradeHeader h = true <-> upgrade_token h.
Proof.
  rewrite test_true. unfold upgrade_token. split.
  - intros (a & b & Hs & Hm). apply upgradeHeader_at in Hm as [[Ha Hk]|(t & -> & Hk)].
    + apply length_zero_iff_nil in Ha as ->.
      apply upgrade_lead_some in Hk as (ws1 & w & ws2 & post & -> & H1 & Hw & H2 & Hp).
      exists [], ws1, w, ws2, post. repeat split; auto.
    + apply upgrade_lead_some in Hk as (ws1 & w & ws2 & post & -> & H1 & Hw & H2 & Hp).
      exists (a ++ [","%char]), ws1, w, ws2, post. repeat split; auto.
      * by rewrite Hs, <- app_assoc.
      * right. by eauto.
  - intros (pre & ws1 & w & ws2 & post & Hs & Hpre & H1 & Hw & H2 & Hp).
    destruct Hpre as [->|[pre' ->]].
    + exists [], (ws1 ++ w ++ ws2 ++ post). split; [done|].
      apply upgradeHeader_at. left. split; [done|]. apply upgrade_lead_some.
      exists ws1, w, ws2, post. by repeat split.
    + exists pre', (","%char :: ws1 ++ w ++ ws2 ++ post).
      split; [by rewrite Hs, <- app_assoc|].
      apply upgradeHeader_at. right. eexists. split; [done|]. apply upgrade_lead_some.
      exists ws1, w, ws2, post. by repeat split.
Qed.

End Upgrade.

Section C9.
Context {P : Url.Platform}.

Lemma host_header_other options target port host h h' k :
  host_header options target port host h = Ok h' ->
  k <> "host" -> h' !! k = h !! k.
Proof.
  unfold host_header. destruct (truthy (ServerOptions.changeOrigin options)).
  - destruct (required port (Target.protocol target)) as [r|]; [|done]. cbn [bind].
    destruct r; cbn [bind].
    + destruct (hasPort host) as [hp|]; [|done]. cbn [bind].
      intros [= <-] Hk. by rewrite lookup_insert_ne.
    + intros [= <-] Hk. by rewrite lookup_insert_ne.
  - by intros [= <-].
Qed.

(** C9: without an agent the descriptor's [agent] is [false] and the
    [connection] header is [close], unless the header the request (with
    [options.headers] over it) carries is a string with an [upgrade]
    token, which is kept; [keep-alive] has no such token, [Upgrade]
    has. *)
Theorem connection_close_without_agent outgoing options req forward out :
  truthy (ServerOptions.agent options) = false ->
  fst (setupOutgoing outgoing options req forward) = Ok out ->
  Outgoing.agent out = JBool false /\
  (forall c, merged_headers options req !! "connection" = Some (HStr c) ->
             upgrade_token c ->
             Outgoing.headers out !! "connection" = Some (HStr c)) /\
  (forall c, merged_headers options req !! "connection" = Some (HStr c) ->
             ~ upgrade_token c ->
             Outgoing.headers out !! "connection" = Some (HStr "close")) /\
  (merged_headers options req !! "connection" = None ->
   Outgoing.headers out !! "connection" = Some (HStr "close")) /\
  (forall v, merged_headers options req !! "connection" = Some v ->
             (forall c, v <> HStr c) ->
             Outgoing.headers out !! "connection" = Some (HStr "close")) /\
  ~ upgrade_token "keep-alive" /\ upgrade_token "Upgrade".
Proof.
  intros Hag Hout. apply setupOutgoing_Ok in Hout as (t & Hsel & Hfill).
  apply fill_Ok in Hfill as (path & hd & _ & Hhost & _ & Hagent & Hhd & _).
  assert (Outgoing.agent out = JBool false) as Ha.
  { rewrite Hagent. unfold js_or. by rewrite Hag. }
  rewrite Ha in Hhost. cbn [truthy negb] in Hhost.
  assert ("connection" <> "host") as Hne by done.
  pose proof (host_header_other _ _ _ _ _ _ "connection" Hhost Hne) as Hc.
  rewrite Hhd, Hc. unfold close_unless_upgrade.
  split; [done|]. repeat split.
  - intros c Hl Hu. rewrite Hl. apply upgradeHeader_test in Hu. by rewrite Hu.
  - intros c -> Hu. destruct (test upgradeHeader c) eqn:E.
    + by apply upgradeHeader_test in E.
    + by rewrite lookup_insert_eq.
  - intros ->. by rewrite lookup_insert_eq.
  - intros v -> Hv. destruct v as [c| |]; [by destruct (Hv c)|..];
      by rewrite lookup_insert_eq.
  - intros H%upgradeHeader_test. by vm_compute in H.
  - by apply upgradeHeader_test.
Qed.

End C9.

(** C9 (instance): [Connection: keep-alive] and [Connection: Upgrade]. *)
Lemma connection_close_without_agent_witness :
  (exists out,
     fst (setupOutgoing (P:=OriginForm.platform) Outgoing.empty
            (store no_options KeyTarget api_target)
            (request_with "/" [("connection", HStr "keep-alive")]) None) = Ok out /\
     Outgoing.agent out = JBool false /\
     Outgoing.headers out !! "connection" = Some (HStr "close")) /\
  (exists out,
     fst (setupOutgoing (P:=OriginForm.platform) Outgoing.empty
            (store no_options KeyTarget api_target)
            (request_with "/" [("connection", HStr "Upgrade")]) None) = Ok out /\
     Outgoing.headers out !! "connection" = Some (HStr "Upgrade")).
Proof.
  split.
  - destruct (fst (setupOutgoing (P:=OriginForm.platform) Outgoing.empty
                     (store no_options KeyTarget api_target)
                     (request_with "/" [("connection", HStr "keep-alive")]) None))
      as [out|] eqn:E; [|by vm_compute in E].
    exists out. split; [done|].
    destruct (connection_close_without_agent (P:=OriginForm.platform) Outgoing.empty
                (store no_options KeyTarget api_target)
                (request_with "/" [("connection", HStr "keep-alive")]) None out
                eq_refl E) as (Ha & _ & Hclose & _ & _ & Hka & _).
    split; [exact Ha|]. exact (Hclose "keep-alive" eq_refl Hka).
  - destruct (fst (setupOutgoing (P:=OriginForm.platform) Outgoing.empty
                     (store no_options KeyTarget api_target)
                     (request_with "/" [("connection", HStr "Upgrade")]) None))
      as [out|] eqn:E; [|by vm_compute in E].
    exists out. split; [done|].
    destruct (connection_close_without_agent (P:=OriginForm.platform) Outgoing.empty
                (store no_options KeyTarget api_target)
                (request_with "/" [("connection", HStr "Upgrade")]) None out
                eq_refl E) as (_ & Hkeep & _ & _ & _ & _ & Hup).
    exact (Hkeep "Upgrade" eq_refl Hup).
Defined.

Section CookieFacts.

Lemma name_canon_not_space a : is_name_char a = true -> is_space (canon a) = false.
Proof. destruct a as [[] [] [] [] [] [] [] []]; intros H; (reflexivity || discriminate H). Qed.

Lemma space_not_equals x : is_space x = true -> eqb_ci "=" x = false.
Proof. destruct x as [[] [] [] [] [] [] [] []]; intros H; (reflexivity || discriminate H). Qed.

Lemma name_char_not_space a x :
  is_name_char a = true -> is_space x = true -> eqb_ci a x = false.
Proof.
  intros Ha Hx. unfold eqb_ci. rewrite (space_canon x Hx).
  destruct (Ascii.eqb_spec (canon a) x) as [<-|]; [|done].
  by rewrite (name_canon_not_space a Ha) in Hx.
Qed.

Lemma not_semicolon_iff x : not_semicolon x = true <-> x <> ";"%char.
Proof.
  unfold not_semicolon. rewrite eqb_ci_semicolon.
  destruct (Ascii.eqb_spec ";" x) as [<-|]; simpl; split; congruence.
Qed.

Lemma length_chars s : length (chars s) = String.length s.
Proof. induction s as [|x s IH]; simpl; [done|]. unfold chars in *. simpl. by rewrite IH. Qed.

Variable property : string.
Hypothesis Hname : name_ok property.

(** The value part. *)
Lemma value_at (c1 : cursor) j s :
  m cookie_value (fun c2 => Some (c1, c2)) (Cursor j s) =
  match s with
  | z :: t =>
      if not_semicolon z
      then Some (c1, Cursor (S j + length (run not_semicolon t)) (skip not_semicolon t))
      else None
  | [] => None
  end.
Proof.
  unfold cookie_value, Plus. cbn [m rest]. destruct s as [|z t]; [done|].
  destruct (not_semicolon z); [|done]. by apply star_chr_greedy.
Qed.

Lemma after_name_eq c :
  after_name property c =
  match strip eqb_ci (chars property) (rest c) with
  | Some (y :: t) =>
      if Ascii.eqb "=" y
      then let c1 := Cursor (S (pos c + length (chars property))) t in
           m cookie_value (fun c2 => Some (c1, c2)) c1
      else None
  | _ => None
  end.
Proof.
  unfold after_name. cbn [m]. unfold lit_ci. rewrite m_literal.
  destruct (strip _ _ _) as [[|y t]|]; [done| |done].
  cbn [m rest]. by rewrite eqb_ci_equals.
Qed.

Lemma after_name_blocked i x t :
  is_space x = true -> after_name property (Cursor i (x :: t)) = None.
Proof.
  intros Hx. rewrite after_name_eq. cbn [rest]. unfold name_ok in Hname.
  destruct (chars property) as [|a l] eqn:E; cbn [strip].
  - pose proof (space_not_equals x Hx) as H. rewrite eqb_ci_equals in H. by rewrite H.
  - simpl in Hname. apply andb_true_iff in Hname as [Ha _].
    by rewrite (name_char_not_space a x Ha Hx).
Qed.

Lemma cookie_run_eq i b :
  cookie_run property (Cursor i b) =
  match b with
  | x :: t =>
      if Ascii.eqb ";" x
      then after_name property (after_run is_space (Cursor (S i) t))
      else None
  | [] => None
  end.
Proof.
  unfold cookie_run, cookie_prefix.
  change (m (Seq (Chr (eqb_ci ";")) (Seq (Star (Chr is_space))
               (Seq (lit_ci property) (Chr (eqb_ci "=")))))
            (fun c1 => m cookie_value (fun c2 => Some (c1, c2)) c1) (Cursor i b))
    with (match b with
          | x :: t => if eqb_ci ";" x
                      then m (Star (Chr is_space)) (after_name property) (Cursor (S i) t)
                      else None
          | [] => None
          end).
  destruct b as [|x t]; [done|]. rewrite eqb_ci_semicolon.
  destruct (Ascii.eqb ";" x); [|done].
  apply star_chr_blocked. intros. by apply after_name_blocked.
Qed.

Lemma name_stop name l :
  same_ci name (chars property) ->
  name ++ "="%char :: l = [] \/
  exists x t, name ++ "="%char :: l = x :: t /\ is_space x = false.
Proof.
  intros H. right. destruct name as [|x name].
  - exists "="%char, l. by split.
  - exists x, (name ++ "="%char :: l). split; [done|].
    unfold name_ok in Hname. destruct (chars property) as [|a p]; [done|].
    injection H as Hx _. simpl in Hname. apply andb_true_iff in Hname as [Ha _].
    destruct (is_space x) eqn:E; [|done].
    pose proof (name_char_not_space a x Ha E) as Hn. unfold eqb_ci in Hn.
    rewrite Hx in Hn. by rewrite Ascii.eqb_refl in Hn.
Qed.

Lemma same_ci_length a b : same_ci a b -> length a = length b.
Proof. intros H. unfold same_ci in H. by rewrite <- (length_map canon a), H, length_map. Qed.

(** One match of the pattern at a position: what it is, and that the
    matcher finds exactly it. *)
Lemma cookie_at i b c1 c2 :
  cookie_run property (Cursor i b) = Some (c1, c2) <->
  exists prefix value post,
    b = prefix ++ value ++ post /\
    clause_chars (chars property) prefix value /\
    (post = [] \/ exists t, post = ";"%char :: t) /\
    c1 = Cursor (i + length prefix) (value ++ post) /\
    c2 = Cursor (i + length prefix + length value) post.
Proof.
  rewrite cookie_run_eq. split.
  - destruct b as [|x t]; [done|].
    destruct (Ascii.eqb_spec ";" x) as [<-|]; [|done].
    rewrite after_name_eq. unfold after_run. cbn [rest pos].
    destruct (strip eqb_ci (chars property) (skip is_space t)) as [[|y u]|] eqn:E; [done| |done].
    destruct (Ascii.eqb_spec "=" y) as [<-|]; [|done].
    cbn zeta. rewrite value_at. destruct u as [|z v]; [done|].
    destruct (not_semicolon z) eqn:Hz; [|done]. intros [= <- <-].
    apply strip_ci in E as (name & Hs & Hn).
    exists (";"%char :: run is_space t ++ name ++ ["="%char]),
           (z :: run not_semicolon v), (skip not_semicolon v).
    assert (t = run is_space t ++ name ++ "="%char :: z :: v) as Ht.
    { rewrite <- Hs. apply run_skip. }
    split; [|split; [|split; [|split]]].
    + cbn [app]. f_equal. rewrite <- !app_assoc. cbn [app].
      rewrite <- (run_skip not_semicolon v). exact Ht.
    + exists (run is_space t), name. split; [done|]. split; [apply run_Forall|].
      split; [done|]. split; [done|]. constructor.
      * by apply not_semicolon_iff.
      * eapply Forall_impl; [apply run_Forall|]. intros ?. apply not_semicolon_iff.
    + destruct (skip not_semicolon v) as [|w r] eqn:Es; [by left|right].
      apply skip_head in Es. exists r. f_equal.
      destruct (Ascii.eqb_spec ";" w) as [<-|Hne]; [done|].
      assert (w <> ";"%char) as Hne' by congruence.
      apply not_semicolon_iff in Hne'. congruence.
    + f_equal.
      * cbn [length]. rewrite !length_app. cbn [length].
        rewrite (same_ci_length _ _ Hn). lia.
      * cbn [app]. f_equal. apply run_skip.
    + f_equal. cbn [length]. rewrite !length_app. cbn [length].
      rewrite (same_ci_length _ _ Hn). lia.
  - intros (prefix & value & post & -> & (ws & name & -> & Hws & Hn & Hv & Hns) & Hp & -> & ->).
    cbn [app]. rewrite Ascii.eqb_refl. rewrite after_name_eq. unfold after_run. cbn [rest pos].
    rewrite <- !app_assoc. cbn [app].
    destruct (run_app_stop is_space ws (name ++ "="%char :: value ++ post) Hws
                (name_stop name _ Hn)) as [Hr ->].
    rewrite Hr.
    assert (strip eqb_ci (chars property) (name ++ "="%char :: value ++ post)
            = Some ("="%char :: value ++ post)) as ->.
    { apply strip_ci. by exists name. }
    rewrite Ascii.eqb_refl. cbn zeta. rewrite value_at.
    destruct value as [|z v]; [done|]. cbn [app].
    apply Forall_cons in Hns as [Hz Hv'].
    apply not_semicolon_iff in Hz. rewrite Hz.
    assert (Forall (fun x => not_semicolon x = true) v) as Hv''.
    { eapply Forall_impl; [exact Hv'|]. intros ?. apply not_semicolon_iff. }
    assert (post = [] \/ exists x t, post = x :: t /\ not_semicolon x = false) as Hp'.
    { destruct Hp as [->|[t ->]]; [by left|right]. by exists ";"%char, t. }
    destruct (run_app_stop not_semicolon v post Hv'' Hp') as [-> ->].
    f_equal. f_equal; f_equal; try done; cbn [length]; rewrite ?length_app;
      cbn [length]; rewrite ?length_app; cbn [length];
      rewrite ?(same_ci_length _ _ Hn); lia.
Qed.

End CookieFacts.

Section C6.

Lemma append_assoc a b c : (a +:+ b) +:+ c = a +:+ b +:+ c.
Proof. apply chars_inj. by rewrite !chars_app, app_assoc. Qed.

Lemma slices (a b c d : list ascii) :
  let l := a ++ b ++ c ++ d in
  let i := length a in
  take i l = a /\
  take (i + length b + length c - i) (drop i l) = b ++ c /\
  take (i + length b - i) (drop i l) = b /\
  take (i + length b + length c - (i + length b)) (drop (i + length b) l) = c.
Proof.
  cbn zeta. rewrite take_app_length, drop_app_length.
  replace (length a + length b + length c - length a)%nat
    with (length (b ++ c)) by (rewrite length_app; lia).
  replace (length a + length b - length a)%nat with (length b) by lia.
  replace (length a + length b + length c - (length a + length b))%nat
    with (length c) by lia.
  split; [done|]. split; [by rewrite (app_assoc b c d), take_app_length|].
  split; [by rewrite take_app_length|].
  rewrite (app_assoc a b (c ++ d)), <- length_app, drop_app_length.
  by rewrite take_app_length.
Qed.

Lemma exec2_cookie property l :
  exec2 (cookie_prefix property) cookie_value l = search_from (cookie_run property) 0 l.
Proof. reflexivity. Qed.

Lemma clause_extend property prefix value post :
  clause_chars property prefix value ->
  exists value2 post2,
    value ++ post = value2 ++ post2 /\
    clause_chars property prefix value2 /\
    (post2 = [] \/ exists t, post2 = ";"%char :: t).
Proof.
  intros (ws & name & Hp & Hws & Hn & Hv & Hns).
  exists (value ++ run not_semicolon post), (skip not_semicolon post).
  split; [|split].
  - by rewrite <- app_assoc, <- run_skip.
  - exists ws, name. split; [done|]. split; [done|]. split; [done|]. split.
    + by destruct value.
    + apply Forall_app. split; [done|].
      eapply Forall_impl; [apply run_Forall|]. intros ?. apply not_semicolon_iff.
  - destruct (skip not_semicolon post) as [|w r] eqn:Es; [by left|right].
    apply skip_head in Es. exists r. f_equal.
    destruct (Ascii.eqb_spec ";" w) as [<-|Hne]; [done|].
    assert (w <> ";"%char) as Hne' by congruence.
    apply not_semicolon_iff in Hne'. congruence.
Qed.

Lemma clause_found property header pre prefix value post :
  name_ok property ->
  header = pre +:+ prefix +:+ value +:+ post ->
  clause property prefix value ->
  is_Some (cookie_run property
             (Cursor (0 + length (chars pre)) (chars prefix ++ chars value ++ chars post))).
Proof.
  intros Hname -> Hc.
  destruct (clause_extend _ _ _ (chars post) Hc) as (v2 & p2 & Hvp & Hc2 & Hp2).
  rewrite Hvp. eexists (_, _). apply (cookie_at property Hname).
  exists (chars prefix), v2, p2. by repeat split.
Qed.

Lemma first_clause_exists property header :
  name_ok property ->
  has_clause property header ->
  exists pre prefix value post, first_clause property header pre prefix value post.
Proof.
  intros Hname (pre0 & prefix0 & value0 & post0 & Hh & Hc).
  assert (is_Some (search_from (cookie_run property) 0 (chars header))) as [[j [c1 c2]] Hs].
  { apply search_from_is_Some.
    exists (chars pre0), (chars prefix0 ++ chars value0 ++ chars post0).
    split; [by rewrite Hh, !chars_app|]. by apply (clause_found property header). }
  apply search_from_Some in Hs as (a & b & Hl & -> & Hr & Hmin).
  apply (cookie_at property Hname) in Hr as (prefix & value & post & -> & Hcl & Hp & _).
  exists (str a), (str prefix), (str value), (str post).
  split; [|split; [|split]].
  - apply chars_inj. by rewrite !chars_app, !chars_str.
  - unfold clause. by rewrite !chars_str.
  - destruct Hp as [->|[t ->]]; [by left|right]. by exists (str t).
  - intros pre' prefix' value' post' Hh' Hc'.
    rewrite <- !length_chars, chars_str.
    destruct (le_lt_dec (length a) (length (chars pre'))) as [|Hlt]; [done|].
    exfalso.
    destruct (clause_found property header pre' prefix' value' post' Hname Hh' Hc') as [x Hx].
    rewrite Hmin in Hx; [done| |done].
    by rewrite Hh', !chars_app.
Qed.

(** A header without a clause is left alone; a header with one is
    rewritten at its first clause. *)
Lemma rewrite_without_clause header config property :
  name_ok property ->
  ~ has_clause property header ->
  rewriteCookieProperty1 header config property = header.
Proof.
  intros Hname.
  - intros Hno. unfold rewriteCookieProperty1, replace_first2. rewrite exec2_cookie.
    assert (search_from (cookie_run property) 0 (chars header) = None) as ->; [|done].
    apply search_from_None. intros a b Hs.
    destruct (cookie_run property (Cursor (0 + length a) b)) as [[c1 c2]|] eqn:E; [|done].
    exfalso. apply Hno.
    apply (cookie_at property Hname) in E as (prefix & value & post & -> & Hc & _).
    exists (str a), (str prefix), (str value), (str post). split.
    + apply chars_inj. by rewrite !chars_app, !chars_str.
    + unfold clause. by rewrite !chars_str.
Qed.

Lemma rewrite_at_first_clause header config property pre prefix value post :
  name_ok property ->
  first_clause property header pre prefix value post ->
  rewriteCookieProperty1 header config property =
  rewritten config header pre prefix value post.
Proof.
  intros Hname.
  - intros (Hh & Hc & Hp & Hmin).
    unfold rewriteCookieProperty1, replace_first2. rewrite exec2_cookie.
    set (i := length (chars pre)).
    set (c1 := Cursor (i + length (chars prefix)) (chars value ++ chars post)).
    set (c2 := Cursor (i + length (chars prefix) + length (chars value)) (chars post)).
    assert (chars header = chars pre ++ chars prefix ++ chars value ++ chars post) as Hl.
    { by rewrite Hh, !chars_app. }
    assert (search_from (cookie_run property) 0 (chars header) = Some (i, (c1, c2))) as ->.
    { apply search_from_Some.
      exists (chars pre), (chars prefix ++ chars value ++ chars post).
      split; [done|]. split; [done|]. split.
      - apply (cookie_at property Hname).
        exists (chars prefix), (chars value), (chars post).
        split; [done|]. split; [exact Hc|]. split; [|done].
        destruct Hp as [->|[t ->]]; [by left|right]. exists (chars t).
        by rewrite chars_app.
      - intros a' b' Hs Hlt.
        destruct (cookie_run property (Cursor (0 + length a') b')) as [[d1 d2]|] eqn:E; [|done].
        exfalso.
        apply (cookie_at property Hname) in E as (prefix' & value' & post' & -> & Hc' & _).
        specialize (Hmin (str a') (str prefix') (str value') (str post')).
        rewrite <- !length_chars, !chars_str in Hmin.
        assert (length (chars pre) <= length a')%nat; [|lia].
        apply Hmin.
        + apply chars_inj. by rewrite !chars_app, !chars_str, <- Hs.
        + unfold clause. by rewrite !chars_str. }
    subst c1 c2 i. cbn [pos rest]. rewrite Hl.
    destruct (slices (chars pre) (chars prefix) (chars value) (chars post))
      as (-> & -> & -> & ->).
    rewrite str_app, !str_chars. unfold rewrite_clause, rewritten, looked_up.
    destruct (Config.get config value) as [v|].
    + destruct (Config.truthy v); [by rewrite !append_assoc|done].
    + destruct (Config.get config "*") as [v|].
      * destruct (Config.truthy v); [by rewrite !append_assoc|done].
      * by rewrite Hh, !append_assoc.
Qed.

(** Where the value of the clause and [*] name no inherited member, the
    lookup is the documented one, among the entries of the map. *)
Lemma rewritten_documented config header pre prefix value post :
  Config.inherited config !! value = None ->
  Config.inherited config !! "*" = None ->
  rewritten config header pre prefix value post =
  documented config header pre prefix value post.
Proof.
  intros Hv Hs. unfold rewritten, documented, looked_up, Config.get. rewrite Hv, Hs.
  destruct (Config.own config !! value); [done|].
  by destruct (Config.own config !! "*").
Qed.

(** What [rewriteCookieProperty] does, for an attribute name made of
    letters, digits, [-] and [_].  A header without a [; name=value]
    clause is returned as it is.  In a header with one, the first clause
    alone is touched: its value is looked up in the map with [in], so
    among the own and the inherited properties, then [*] is; a truthy
    member replaces the value in place, a falsy one removes the clause,
    and without a member the header stays as it is.  What stands before
    and after the clause is kept.  For a value that names no inherited
    member this is the lookup among the entries of the map.  An array is
    rewritten element by element. *)
Theorem rewriteCookieProperty_first_clause header config property :
  name_ok property ->
  (~ has_clause property header ->
   rewriteCookieProperty (One header) config property = One header) /\
  (has_clause property header ->
   exists pre prefix value post, first_clause property header pre prefix value post) /\
  (forall pre prefix value post,
     first_clause property header pre prefix value post ->
     rewriteCookieProperty (One header) config property =
       One (rewritten config header pre prefix value post) /\
     (Config.inherited config !! value = None ->
      Config.inherited config !! "*" = None ->
      rewritten config header pre prefix value post =
      documented config header pre prefix value post)) /\
  (forall l, exists l',
     rewriteCookieProperty (Many l) config property = Many l' /\
     Forall2 (fun h h' => rewriteCookieProperty (One h) config property = One h') l l') /\
  rewriteCookieProperty (One "sessionid=abc; Domain=example.com; Path=/") domain_map "domain"
    = One "sessionid=abc; Domain=proxy.local; Path=/" /\
  rewriteCookieProperty (One "sessionid=abc; Domain=other.com; Path=/") domain_map "domain"
    = One "sessionid=abc; Path=/".
Proof.
  intros Hname. cbn [rewriteCookieProperty].
  split; [intros Hno; f_equal; by apply rewrite_without_clause|].
  split; [by apply first_clause_exists|].
  split; [|split; [|split; reflexivity]].
  - intros pre prefix value post Hfc. split.
    + f_equal. by apply rewrite_at_first_clause.
    + apply rewritten_documented.
  - intros l. eexists. split; [reflexivity|].
    induction l as [|h l IH]; cbn [map]; by constructor.
Qed.

End C6.

(** The [Domain] clause of [id=1; Domain=example.com]. *)
Lemma rewriteCookieProperty_first_clause_witness :
  name_ok "Domain" /\
  first_clause "Domain" "id=1; Domain=example.com" "id=1" "; Domain=" "example.com" "" /\
  rewriteCookieProperty (One "id=1; Domain=example.com") domain_map "Domain"
  = One "id=1; Domain=proxy.local".
Proof.
  assert (first_clause "Domain" "id=1; Domain=example.com"
            "id=1" "; Domain=" "example.com" "") as Hfc.
  { split; [reflexivity|]. split; [|split; [by left|]].
    - exists [" "%char], (chars "Domain"). split; [reflexivity|].
      split; [by repeat constructor|]. split; [reflexivity|]. split; [done|].
      repeat constructor; done.
    - intros pre' prefix' value' post' H (ws & name & Hp & _).
      apply (f_equal chars) in H. rewrite !chars_app, Hp in H.
      rewrite <- (length_chars pre'). cbn in H.
      destruct (chars pre') as [|a [|b [|c [|d r]]]]; cbn in H |- *;
        try (injection H; intros; discriminate); lia. }
  split; [reflexivity|]. split; [exact Hfc|].
  destruct (rewriteCookieProperty_first_clause
              "id=1; Domain=example.com" domain_map "Domain" eq_refl)
    as (_ & _ & H & _).
  destruct (H _ _ _ _ Hfc) as [-> _]. reflexivity.
Defined.

(** C6 (the code at the failing input): the map has the one entry
    [example.com] and no [*], the cookie has [Domain=constructor].
    Neither key is an entry of the map, so the documented lookup leaves
    the header as it is; the code finds [constructor] with [in] on the
    prototype chain and writes the text of that function as the new
    domain. *)
Theorem inherited_key_is_rewritten :
  name_ok "domain" /\
  first_clause "domain" constructor_cookie "a=1" "; Domain=" "constructor" "; Path=/" /\
  Config.own single_entry_map !! "constructor" = None /\
  Config.own single_entry_map !! "*" = None /\
  documented single_entry_map constructor_cookie "a=1" "; Domain=" "constructor" "; Path=/"
    = constructor_cookie /\
  rewriteCookieProperty (One constructor_cookie) single_entry_map "domain"
    = One "a=1; Domain=function Object() { [native code] }; Path=/".
Proof.
  split; [reflexivity|]. split; [|repeat split; reflexivity].
  split; [reflexivity|]. split; [|split; [right; by exists " Path=/"|]].
  - exists [" "%char], (chars "Domain"). split; [reflexivity|].
    split; [by repeat constructor|]. split; [reflexivity|]. split; [done|].
    repeat constructor; done.
  - intros pre' prefix' value' post' H (ws & name & Hp & _).
    apply (f_equal chars) in H. rewrite !chars_app, Hp in H.
    rewrite <- (length_chars pre'). unfold constructor_cookie in H. cbn in H.
    destruct (chars pre') as [|a [|b [|c r]]]; cbn in H |- *;
      try (injection H; intros; discriminate); lia.
Qed.


(** The matcher and the helpers on the examples of the specification. *)
Example isSSL_examples :
  test isSSL "https:" = true /\ test isSSL "wss:" = true /\
  test isSSL "http:" = false /\ test isSSL "ws:" = false.
Proof. repeat split; reflexivity. Qed.

Example upgradeHeader_examples :
  test upgradeHeader "keep-alive, Upgrade" = true /\
  test upgradeHeader "UPGRADE" = true /\
  test upgradeHeader "upgraded" = false /\
  test upgradeHeader "close" = false.
Proof. repeat split; reflexivity. Qed.

Example collapse_slashes_example : collapse_slashes "/api//users///7/" = "/api/users/7/".
Proof. reflexivity. Qed.

Example removeCookieProperty_example :
  removeCookieProperty1 "id=1; Secure; Path=/" "secure" = "id=1; Path=/".
Proof. reflexivity. Qed.

Example mergeSetCookie_examples :
  mergeSetCookie (Array [JStr "a=1"]) (Scalar (JStr "b=2")) = [JStr "a=1"; JStr "b=2"] /\
  mergeSetCookie (Scalar JUndefined) (Scalar JUndefined) = [].
Proof. split; reflexivity. Qed.

Example getPort_examples :
  getPort (request_with "/" [("host", HStr "proxy.local:3000")]) = Ok "3000" /\
  getPort (request_with "/" [("host", HStr "proxy.local")]) = Ok "80".
Proof. split; reflexivity. Qed.

(* ===================================================================== *)
(** * Further properties of the code *)
(* ===================================================================== *)

Section Collapse.

Lemma slashes_at i l :
  m slashes Some (Cursor i l) =
  match l with
  | x :: t =>
      if Ascii.eqb "/" x
      then Some (Cursor (S i + length (run (is_char "/") t)) (skip (is_char "/") t))
      else None
  | [] => None
  end.
Proof.
  unfold slashes, Plus. cbn [m rest]. destruct l as [|x t]; [done|].
  unfold is_char at 1. destruct (Ascii.eqb "/" x); [|done].
  by apply star_chr_greedy.
Qed.

Lemma slashes_search p l :
  search_from (m slashes Some) p l =
  match l with
  | [] => None
  | x :: t =>
      if Ascii.eqb "/" x
      then Some (p, Cursor (S p + length (run (is_char "/") t)) (skip (is_char "/") t))
      else search_from (m slashes Some) (S p) t
  end.
Proof.
  destruct l as [|x t]; cbn [search_from]; rewrite slashes_at; [done|].
  by destruct (Ascii.eqb "/" x).
Qed.

Lemma squeeze_true_skip l : squeeze true l = squeeze false (skip (is_char "/") l).
Proof.
  induction l as [|x t IH]; [done|]. cbn [squeeze skip]. unfold is_char at 1.
  destruct (Ascii.eqb "/" x) eqn:E; [done|]. cbn [squeeze]. by rewrite E.
Qed.

Lemma skip_length p l : (length (skip p l) <= length l)%nat.
Proof. induction l as [|x t IH]; simpl; [lia|]. destruct (p x); simpl; lia. Qed.

(** One round of the loop: the text up to the first [/], the [/], and
    the loop again after the run. *)
Lemma search_split p l i ce :
  search_from (m slashes Some) p l = Some (i, ce) ->
  exists a t,
    l = a ++ "/"%char :: t /\ no_slash a /\ i = (p + length a)%nat /\
    ce = Cursor (S i + length (run (is_char "/") t)) (skip (is_char "/") t).
Proof.
  revert p. induction l as [|x t IH]; intros p; rewrite slashes_search; [done|].
  destruct (Ascii.eqb_spec "/" x) as [<-|Hne].
  - intros [= <- <-]. exists [], t. rewrite Nat.add_0_r. by repeat split; try constructor.
  - intros (a & t' & -> & Ha & -> & ->)%IH. exists (x :: a), t'. cbn [length app].
    rewrite Nat.add_succ_r. repeat split; try done. constructor; [congruence|done].
Qed.

Lemma search_none p l :
  search_from (m slashes Some) p l = None -> no_slash l.
Proof.
  revert p. induction l as [|x t IH]; intros p; rewrite slashes_search; [constructor|].
  destruct (Ascii.eqb_spec "/" x) as [<-|Hne]; [done|].
  intros H%IH. constructor; [congruence|done].
Qed.

Lemma squeeze_no_slash prev a l :
  no_slash a -> a <> [] -> squeeze prev (a ++ l) = a ++ squeeze false l.
Proof.
  intros Ha. revert prev. induction Ha as [|x a Hx Ha IH]; intros prev Hne; [done|].
  cbn [app squeeze]. destruct (Ascii.eqb_spec "/" x) as [<-|_]; [done|]. f_equal.
  destruct a as [|y a]; [done|]. by apply IH.
Qed.

Lemma squeeze_no_slash_all prev a : no_slash a -> squeeze prev a = a.
Proof.
  intros Ha. revert prev. induction Ha as [|x a Hx Ha IH]; intros prev; [done|].
  cbn [squeeze]. destruct (Ascii.eqb_spec "/" x) as [<-|_]; [done|]. by rewrite IH.
Qed.

Lemma squeeze_split a t :
  no_slash a -> squeeze false (a ++ "/"%char :: t) = a ++ "/"%char :: squeeze true t.
Proof.
  intros Ha. destruct a as [|x a]; [done|].
  rewrite squeeze_no_slash by done. done.
Qed.

Lemma replace_all_loop_squeeze fuel p l :
  (length l < fuel)%nat ->
  replace_all_loop fuel slashes (chars "/") (Cursor p l) = squeeze false l.
Proof.
  revert p l. induction fuel as [|fuel IH]; intros p l Hl; [lia|].
  cbn [replace_all_loop pos rest].
  destruct (search_from (m slashes Some) p l) as [[i ce]|] eqn:E.
  - apply search_split in E as (a & t & -> & Ha & -> & ->).
    replace (p + length a - p)%nat with (length a) by lia.
    rewrite take_app_length. cbn [pos].
    destruct (Nat.eqb_spec (S (p + length a) + length (run (is_char "/") t)) (p + length a));
      [lia|].
    rewrite IH.
    + rewrite squeeze_split by done. by rewrite squeeze_true_skip.
    + rewrite length_app in Hl. cbn [length] in Hl.
      pose proof (skip_length (is_char "/") t). lia.
  - apply search_none in E. by rewrite squeeze_no_slash_all.
Qed.

Lemma collapse_slashes_squeeze s : collapse_slashes s = str (squeeze false (chars s)).
Proof.
  unfold collapse_slashes, replace_all. f_equal. apply replace_all_loop_squeeze.
  unfold chars. rewrite <- (string_of_list_ascii_of_string s) at 2.
  clear. induction s as [|x s IH]; simpl; lia.
Qed.

End Collapse.

Section Squeeze.

Lemma squeeze_head_true l t : squeeze true l <> "/"%char :: t.
Proof.
  induction l as [|x l IH]; [done|]. cbn [squeeze].
  destruct (Ascii.eqb_spec "/" x) as [<-|Hne]; [done|]. congruence.
Qed.

Lemma squeeze_no_double prev l : ~ double_slash (squeeze prev l).
Proof.
  revert prev. induction l as [|x l IH]; intros prev (a & b & H).
  - by destruct a.
  - cbn [squeeze] in H. destruct (Ascii.eqb_spec "/" x) as [<-|Hne].
    + destruct prev; [apply (IH true); by exists a, b|].
      destruct a as [|y a]; cbn [app] in H.
      * injection H as H. by apply squeeze_head_true in H.
      * injection H as _ H. apply (IH true). by exists a, b.
    + destruct a as [|y a]; cbn [app] in H.
      * injection H as H _. congruence.
      * injection H as _ H. apply (IH false). by exists a, b.
Qed.

Lemma squeeze_fixed l : ~ double_slash l -> squeeze false l = l.
Proof.
  induction l as [|x l IH]; [done|]. intros Hd. cbn [squeeze].
  assert (~ double_slash l) as Hl.
  { intros (a & b & ->). apply Hd. by exists (x :: a), b. }
  destruct (Ascii.eqb_spec "/" x) as [<-|Hne]; [|by rewrite IH].
  f_equal. destruct l as [|y l]; [done|]. cbn [squeeze].
  destruct (Ascii.eqb_spec "/" y) as [<-|Hne].
  - exfalso. apply Hd. by exists [], l.
  - f_equal. specialize (IH Hl). cbn [squeeze] in IH.
    destruct (Ascii.eqb_spec "/" y); [done|]. by injection IH.
Qed.

Lemma squeeze_others prev l :
  List.filter not_slash (squeeze prev l) = List.filter not_slash l.
Proof.
  revert prev. induction l as [|x l IH]; intros prev; [done|]. cbn [squeeze].
  destruct (Ascii.eqb "/" x) eqn:E.
  - destruct prev; cbn [List.filter]; unfold not_slash at 1 3 || unfold not_slash at 1;
      rewrite ?E; cbn [negb]; rewrite IH; unfold not_slash at 2; by rewrite ?E.
  - cbn [List.filter]. by rewrite IH.
Qed.

Lemma squeeze_length prev l : (length (squeeze prev l) <= length l)%nat.
Proof.
  revert prev. induction l as [|x l IH]; intros prev; [done|]. cbn [squeeze].
  destruct (Ascii.eqb "/" x); [destruct prev|]; cbn [length];
    [specialize (IH true)|specialize (IH true)|specialize (IH false)]; lia.
Qed.

Lemma contains_double s : contains "//" s <-> double_slash (chars s).
Proof.
  unfold contains, double_slash. split.
  - intros (a & b & ->). exists (chars a), (chars b). by rewrite !chars_app.
  - intros (a & b & H). exists (str a), (str b). apply chars_inj.
    by rewrite !chars_app, !chars_str.
Qed.

End Squeeze.

Lemma collapse_slashes_squeeze_facts s :
  ~ contains "//" (collapse_slashes s) /\
  List.filter not_slash (chars (collapse_slashes s)) = List.filter not_slash (chars s).
Proof.
  split.
  - rewrite contains_double, collapse_slashes_squeeze, chars_str.
    apply squeeze_no_double.
  - rewrite collapse_slashes_squeeze, chars_str. apply squeeze_others.
Qed.

(** [collapse_slashes]: its result has no [//]; a string without [//] is
    returned as it is, so the operation is idempotent; the characters
    other than [/] are kept, in order, and the result is no longer than
    the argument. *)
Theorem collapse_slashes_spec s :
  ~ contains "//" (collapse_slashes s) /\
  (~ contains "//" s -> collapse_slashes s = s) /\
  collapse_slashes (collapse_slashes s) = collapse_slashes s /\
  List.filter not_slash (chars (collapse_slashes s)) = List.filter not_slash (chars s) /\
  (String.length (collapse_slashes s) <= String.length s)%nat.
Proof.
  assert (~ contains "//" (collapse_slashes s)) as Hno.
  { rewrite contains_double, collapse_slashes_squeeze, chars_str.
    apply squeeze_no_double. }
  assert (forall u, ~ contains "//" u -> collapse_slashes u = u) as Hfix.
  { intros u Hu. rewrite collapse_slashes_squeeze, squeeze_fixed, ?str_chars; [done|].
    by rewrite <- contains_double. }
  split; [done|]. split; [apply Hfix|]. split; [by apply Hfix|]. split.
  - rewrite collapse_slashes_squeeze, chars_str. apply squeeze_others.
  - rewrite <- !length_chars, collapse_slashes_squeeze, chars_str. apply squeeze_length.
Qed.

Section Path.
Context {P : Url.Platform}.

Lemma setupOutgoing_path outgoing options req forward t out :
  select options (key_of forward) = Some t ->
  fst (setupOutgoing outgoing options req forward) = Ok out ->
  exists reqUrl,
    merged_url (resolve t) req = Ok reqUrl /\
    Outgoing.path out =
      JStr (collapse_slashes
              (join_slash (filter_nonempty [target_part options (resolve t);
                                            request_part options reqUrl req]))
            +:+ Url.search reqUrl).
Proof.
  intros Hsel Hout. apply setupOutgoing_Ok in Hout as (t' & Hsel' & Hfill).
  assert (t' = t) as -> by congruence.
  apply fill_Ok in Hfill as (path & h & Hpath & _ & _ & _ & _ & Hp & _).
  unfold outgoing_path in Hpath.
  destruct (merged_url (resolve t) req) as [u|] eqn:Hu; [|done].
  cbn [bind] in Hpath. exists u. split; [done|]. congruence.
Qed.

(** The path of the descriptor is a part without [//], the base path
    of the target and the part of the request joined and collapsed,
    followed by the search string of the merged URL. *)
Theorem outgoing_path_has_no_double_slash outgoing options req forward t out :
  select options (key_of forward) = Some t ->
  fst (setupOutgoing outgoing options req forward) = Ok out ->
  exists reqUrl p,
    merged_url (resolve t) req = Ok reqUrl /\
    Outgoing.path out = JStr (p +:+ Url.search reqUrl) /\
    ~ contains "//" p /\
    List.filter not_slash (chars p) =
      List.filter not_slash (chars (target_part options (resolve t))) ++
      List.filter not_slash (chars (request_part options reqUrl req)).
Proof.
  intros Hsel Hout.
  destruct (setupOutgoing_path _ _ _ _ _ _ Hsel Hout) as (u & Hu & Hp).
  exists u. eexists. split; [done|]. split; [exact Hp|].
  destruct (collapse_slashes_squeeze_facts
              (join_slash (filter_nonempty [target_part options (resolve t);
                                            request_part options u req])))
    as [H1 H2].
  split; [done|]. rewrite H2. unfold filter_nonempty. cbn [List.filter].
  destruct (String.eqb_spec (target_part options (resolve t)) "") as [->|];
    destruct (String.eqb_spec (request_part options u req) "") as [->|];
    cbn [negb join_slash]; rewrite ?chars_app, ?List.filter_app, ?app_nil_r; try done.
Qed.

End Path.

Lemma outgoing_path_has_no_double_slash_witness :
  exists out,
    fst (setupOutgoing (P:=OriginForm.platform) Outgoing.empty api_path_options
           (get_request "/users///7?x=1") None) = Ok out /\
    Outgoing.path out = JStr "/api/users/7?x=1".
Proof.
  destruct (fst (setupOutgoing (P:=OriginForm.platform) Outgoing.empty api_path_options
                   (get_request "/users///7?x=1") None)) as [out|] eqn:E;
    [|by vm_compute in E].
  exists out. split; [done|].
  destruct (outgoing_path_has_no_double_slash (P:=OriginForm.platform) Outgoing.empty
              api_path_options (get_request "/users///7?x=1") None api_path_target out
              eq_refl E) as (u & p & Hu & Hp & _ & _).
  vm_compute in E. injection E as <-. reflexivity.
Defined.

Section PathOptions.
Context {P : Url.Platform}.

Lemma join_target_only x : join_slash (filter_nonempty [x; ""]) = x.
Proof.
  unfold filter_nonempty. simpl. destruct (String.eqb_spec x "") as [->|]; reflexivity.
Qed.

(** With [ignorePath] truthy the path of the request has no part in the
    outgoing path, which is the base path of the target, collapsed,
    followed by the search string of the merged URL: the query of the
    request is still merged in, and its URL still has to parse. *)
Theorem ignorePath_keeps_query_only outgoing options req forward t out :
  truthy (ServerOptions.ignorePath options) = true ->
  select options (key_of forward) = Some t ->
  fst (setupOutgoing outgoing options req forward) = Ok out ->
  exists reqUrl,
    merged_url (resolve t) req = Ok reqUrl /\
    Outgoing.path out =
      JStr (collapse_slashes (target_part options (resolve t)) +:+ Url.search reqUrl).
Proof.
  intros Hig Hsel Hout.
  destruct (setupOutgoing_path _ _ _ _ _ _ Hsel Hout) as (u & Hu & Hp).
  exists u. split; [done|]. rewrite Hp. unfold request_part. rewrite Hig.
  cbn [negb]. by rewrite join_target_only.
Qed.

(** With [toProxy] truthy (and [ignorePath] not) the raw URL of the
    request is joined to the base path in place of its parsed path, and
    the search string of the merged URL is appended all the same: the
    [//] after a scheme is collapsed, and a query in the raw URL stays
    where it is, before the appended one. *)
Theorem toProxy_uses_raw_url outgoing options req forward t out :
  truthy (ServerOptions.toProxy options) = true ->
  truthy (ServerOptions.ignorePath options) = false ->
  select options (key_of forward) = Some t ->
  fst (setupOutgoing outgoing options req forward) = Ok out ->
  exists reqUrl,
    merged_url (resolve t) req = Ok reqUrl /\
    Outgoing.path out =
      JStr (collapse_slashes
              (join_slash (filter_nonempty [target_part options (resolve t);
                                            Request.url req]))
            +:+ Url.search reqUrl).
Proof.
  intros Hto Hig Hsel Hout.
  destruct (setupOutgoing_path _ _ _ _ _ _ Hsel Hout) as (u & Hu & Hp).
  exists u. split; [done|]. rewrite Hp. unfold request_part. by rewrite Hto, Hig.
Qed.

End PathOptions.

Lemma ignorePath_keeps_query_only_witness :
  exists out,
    fst (setupOutgoing (P:=OriginForm.platform) Outgoing.empty
           (with_ignorePath api_path_options (JBool true))
           (get_request "/users/7?x=1") None) = Ok out /\
    Outgoing.path out = JStr "/api?x=1".
Proof.
  destruct (fst (setupOutgoing (P:=OriginForm.platform) Outgoing.empty
                   (with_ignorePath api_path_options (JBool true))
                   (get_request "/users/7?x=1") None)) as [out|] eqn:E;
    [|by vm_compute in E].
  exists out. split; [done|].
  destruct (ignorePath_keeps_query_only (P:=OriginForm.platform) Outgoing.empty
              (with_ignorePath api_path_options (JBool true))
              (get_request "/users/7?x=1") None api_path_target out
              eq_refl eq_refl E) as (u & Hu & Hp).
  vm_compute in Hu. injection Hu as <-. rewrite Hp. reflexivity.
Defined.

Lemma toProxy_uses_raw_url_witness :
  exists out,
    fst (setupOutgoing (P:=OriginForm.platform) Outgoing.empty
           (with_toProxy api_path_options (JBool true))
           (get_request "/users?x=1") None) = Ok out /\
    Outgoing.path out = JStr "/api/users?x=1?x=1".
Proof.
  destruct (fst (setupOutgoing (P:=OriginForm.platform) Outgoing.empty
                   (with_toProxy api_path_options (JBool true))
                   (get_request "/users?x=1") None)) as [out|] eqn:E;
    [|by vm_compute in E].
  exists out. split; [done|].
  destruct (toProxy_uses_raw_url (P:=OriginForm.platform) Outgoing.empty
              (with_toProxy api_path_options (JBool true))
              (get_request "/users?x=1") None api_path_target out
              eq_refl eq_refl eq_refl E) as (u & Hu & Hp).
  vm_compute in Hu. injection Hu as <-. rewrite Hp. reflexivity.
Defined.

Section Sharing.
Context {P : Url.Platform}.

Lemma store_store options k t1 t2 :
  store (store options k t1) k t2 = store options k t2.
Proof. by destruct options, k. Qed.

(** A truthy legacy [path] takes the place of [pathname]: the call
    behaves as on the target whose [pathname] is that path. *)
Theorem legacy_path_replaces_pathname outgoing options req forward t p :
  Target.path t = Some p -> p <> "" ->
  setupOutgoing outgoing (store options (key_of forward) t) req forward =
  setupOutgoing outgoing
    (store options (key_of forward) (with_pathname t (Some p) None)) req forward.
Proof.
  intros Hp Hne. unfold setupOutgoing. rewrite !select_store, !store_store, !fill_store.
  assert (resolve t = resolve (with_pathname t (Some p) None)) as <-; [|done].
  destruct t as [? ? ? ? ? ? ? ? ? ? ? ? ? pn pa sp]. cbn in Hp. subst pa.
  unfold resolve, with_pathname. cbn.
  destruct (String.eqb_spec p "") as [->|]; [done|]. cbn. by destruct sp.
Qed.

(** What a call has done to the options object does not show in later
    calls: on the options a call left behind, any call with the same key
    returns what it would have returned on the original options, and
    leaves the object as it found it. *)
Theorem earlier_call_is_not_seen outgoing0 req0 outgoing options req forward :
  fst (setupOutgoing outgoing (options_after outgoing0 options req0 forward) req forward) =
    fst (setupOutgoing outgoing options req forward) /\
  snd (setupOutgoing outgoing (options_after outgoing0 options req0 forward) req forward) =
    options_after outgoing0 options req0 forward.
Proof.
  unfold options_after, setupOutgoing.
  destruct (select options (key_of forward)) as [t|] eqn:Hsel; cbn [snd fst].
  - rewrite select_store. cbn [fst snd]. rewrite store_store, !fill_store, resolve_idem.
    done.
  - by rewrite Hsel.
Qed.

End Sharing.

Lemma legacy_path_replaces_pathname_witness :
  exists out,
    fst (setupOutgoing (P:=OriginForm.platform) Outgoing.empty
           (store no_options KeyTarget (with_pathname api_path_target (Some "/old") (Some "/v2")))
           (get_request "/users") None) = Ok out /\
    Outgoing.path out = JStr "/v2/users".
Proof.
  pose proof (legacy_path_replaces_pathname (P:=OriginForm.platform) Outgoing.empty
                no_options (get_request "/users") None
                (with_pathname api_path_target (Some "/old") (Some "/v2")) "/v2"
                eq_refl ltac:(discriminate)) as H.
  cbn [key_of] in H. rewrite H. eexists. split; reflexivity.
Defined.

Section Headers.
Context {P : Url.Platform}.

Lemma merged_headers_lookup options req k :
  merged_headers options req !! k =
  match option_header options k with
  | Some v => Some v
  | None => Request.headers req !! k
  end.
Proof.
  unfold merged_headers, option_header.
  destruct (ServerOptions.headers options) as [h|]; [|done].
  rewrite lookup_union. destruct (h !! k) as [v|]; [|by rewrite (left_id_L None _)].
  by destruct (Request.headers req !! k).
Qed.

Lemma close_unless_upgrade_other h k :
  k <> "connection" -> close_unless_upgrade h !! k = h !! k.
Proof.
  intros Hk. unfold close_unless_upgrade.
  destruct (h !! "connection") as [[c| |]|]; try destruct (test upgradeHeader c);
    try done; by rewrite lookup_insert_ne.
Qed.

(** Every header other than [connection] and [host] reaches the
    descriptor as [options.headers] has it, else as the request has it;
    [host] does too when [changeOrigin] is falsy. *)
Theorem headers_pass_through outgoing options req forward out :
  fst (setupOutgoing outgoing options req forward) = Ok out ->
  (forall k, k <> "connection" -> k <> "host" ->
     Outgoing.headers out !! k =
     match option_header options k with
     | Some v => Some v
     | None => Request.headers req !! k
     end) /\
  (truthy (ServerOptions.changeOrigin options) = false ->
   Outgoing.headers out !! "host" =
   match option_header options "host" with
   | Some v => Some v
   | None => Request.headers req !! "host"
   end).
Proof.
  intros Hout. apply setupOutgoing_Ok in Hout as (t & Hsel & Hfill).
  apply fill_Ok in Hfill as (path & hd & _ & Hhost & _ & _ & Hhd & _).
  rewrite Hhd. split.
  - intros k Hc Hh. rewrite (host_header_other _ _ _ _ _ _ k Hhost Hh).
    rewrite <- merged_headers_lookup.
    destruct (negb (truthy (Outgoing.agent out))); [|done].
    by apply close_unless_upgrade_other.
  - intros Hco. unfold host_header in Hhost. rewrite Hco in Hhost.
    injection Hhost as <-. rewrite <- merged_headers_lookup.
    destruct (negb (truthy (Outgoing.agent out))); [|done].
    by apply close_unless_upgrade_other.
Qed.

(** With an agent configured the descriptor carries that agent and the
    [connection] header is left as it comes, whatever it is. *)
Theorem agent_keeps_connection outgoing options req forward out :
  truthy (ServerOptions.agent options) = true ->
  fst (setupOutgoing outgoing options req forward) = Ok out ->
  Outgoing.agent out = ServerOptions.agent options /\
  Outgoing.headers out !! "connection" = merged_headers options req !! "connection".
Proof.
  intros Hag Hout. apply setupOutgoing_Ok in Hout as (t & Hsel & Hfill).
  apply fill_Ok in Hfill as (path & hd & _ & Hhost & _ & Hagent & Hhd & _).
  assert (Outgoing.agent out = ServerOptions.agent options) as Ha.
  { rewrite Hagent. unfold js_or. by rewrite Hag. }
  split; [done|]. rewrite Ha, Hag in Hhost. cbn [negb] in Hhost.
  assert ("connection" <> "host") as Hne by done.
  by rewrite Hhd, (host_header_other _ _ _ _ _ _ "connection" Hhost Hne).
Qed.

End Headers.

Lemma headers_pass_through_witness :
  exists out,
    fst (setupOutgoing (P:=OriginForm.platform) Outgoing.empty
           (with_headers api_options [("x-a", HStr "config")])
           (request_with "/" [("x-a", HStr "request"); ("x-b", HStr "request")]) None)
      = Ok out /\
    Outgoing.headers out !! "x-a" = Some (HStr "config") /\
    Outgoing.headers out !! "x-b" = Some (HStr "request") /\
    Outgoing.headers out !! "host" = None.
Proof.
  destruct (fst (setupOutgoing (P:=OriginForm.platform) Outgoing.empty
                   (with_headers api_options [("x-a", HStr "config")])
                   (request_with "/" [("x-a", HStr "request"); ("x-b", HStr "request")])
                   None)) as [out|] eqn:E; [|by vm_compute in E].
  exists out. split; [done|].
  destruct (headers_pass_through (P:=OriginForm.platform) Outgoing.empty
              (with_headers api_options [("x-a", HStr "config")])
              (request_with "/" [("x-a", HStr "request"); ("x-b", HStr "request")])
              None out E) as [H1 H2].
  split; [|split].
  - by rewrite (H1 "x-a").
  - by rewrite (H1 "x-b").
  - by rewrite (H2 eq_refl).
Defined.

Lemma agent_keeps_connection_witness :
  exists out,
    fst (setupOutgoing (P:=OriginForm.platform) Outgoing.empty
           (with_agent api_options (JObj 1))
           (request_with "/" [("connection", HStr "keep-alive")]) None) = Ok out /\
    Outgoing.agent out = JObj 1 /\
    Outgoing.headers out !! "connection" = Some (HStr "keep-alive").
Proof.
  destruct (fst (setupOutgoing (P:=OriginForm.platform) Outgoing.empty
                   (with_agent api_options (JObj 1))
                   (request_with "/" [("connection", HStr "keep-alive")]) None))
    as [out|] eqn:E; [|by vm_compute in E].
  exists out. split; [done|].
  destruct (agent_keeps_connection (P:=OriginForm.platform) Outgoing.empty
              (with_agent api_options (JObj 1))
              (request_with "/" [("connection", HStr "keep-alive")]) None out
              eq_refl E) as [H1 H2].
  split; [exact H1|]. by rewrite H2.
Defined.

Section Faults.
Context {P : Url.Platform}.

(** The faults of [setupOutgoing], in the order the code meets them: an
    absent target is a TypeError whatever the request is; with a target,
    a URL that does not parse is the URL fault whatever the other options
    are; and the call returns exactly when the target is there, the URL
    parses and, under [changeOrigin], the target has a protocol and, if
    its port calls for the suffix, a host. *)
Theorem setupOutgoing_faults outgoing options req forward :
  (select options (key_of forward) = None ->
   fst (setupOutgoing outgoing options req forward) = Throw TypeError) /\
  (forall t, select options (key_of forward) = Some t ->
     Url.parse (Request.url req) = None ->
     fst (setupOutgoing outgoing options req forward) = Throw InvalidURL) /\
  (returns (fst (setupOutgoing outgoing options req forward)) <->
   exists t,
     select options (key_of forward) = Some t /\
     is_Some (Url.parse (Request.url req)) /\
     (truthy (ServerOptions.changeOrigin options) = true ->
      exists r,
        required (js_or (Target.port t) (JNum (if sslEnabled t then 443 else 80)))
                 (Target.protocol t) = Ok r /\
        (r = true -> is_Some (Target.host t)))).
Proof.
  split; [|split; [|apply setupOutgoing_returns_iff]].
  - intros Hsel. unfold setupOutgoing. by rewrite Hsel.
  - intros t Hsel Hp. unfold setupOutgoing. rewrite Hsel. cbn [fst].
    unfold fill, outgoing_path, merged_url, Url.new. by rewrite Hp.
Qed.

End Faults.

(** [sslEnabled] is true exactly for a target whose protocol starts with
    [https] or has [wss] somewhere in it; a target without protocol is
    not encrypted. *)
Theorem sslEnabled_exact t :
  sslEnabled t = true <->
  exists p, Target.protocol t = Some p /\ (starts_with "https" p \/ contains "wss" p).
Proof.
  unfold sslEnabled. destruct (Target.protocol t) as [p|]; cbn [of_opt to_string].
  - rewrite isSSL_test. split; [by eauto|]. by intros (? & [= <-] & ?).
  - split; [by vm_compute|]. by intros (? & [=] & _).
Qed.

(** [hasPort] holds exactly of the hosts with a [:] in them; on an absent
    host it is a fault. *)
Theorem hasPort_spec :
  (forall h, hasPort (Some h) = Ok true <-> contains ":" h) /\
  (forall h, hasPort (Some h) = Ok false <-> ~ contains ":" h) /\
  hasPort None = Throw TypeError.
Proof.
  assert (forall h, has_colon h = true <-> contains ":" h) as Hc.
  { intros h. unfold has_colon, contains. rewrite existsb_exists. split.
    - intros (x & Hin & Hx). apply Ascii.eqb_eq in Hx as <-.
      apply in_split in Hin as (a & b & Hab). exists (str a), (str b).
      apply chars_inj. by rewrite !chars_app, !chars_str.
    - intros (a & b & ->). exists ":"%char. split; [|done].
      rewrite !chars_app. apply in_or_app. right. by left. }
  split; [|split; [|done]]; intros h; rewrite hasPort_Some, <- Hc.
  - split; congruence.
  - split; [intros [= ->]; done|]. by destruct (has_colon h).
Qed.

Section GetPort.

Lemma m_chr_cons {R} p (k : cursor -> option R) i x t :
  m (Chr p) k (Cursor i (x :: t)) = if p x then k (Cursor (S i) t) else None.
Proof. reflexivity. Qed.

Lemma m_chr_nil {R} p (k : cursor -> option R) i : m (Chr p) k (Cursor i []) = None.
Proof. reflexivity. Qed.

Lemma m_plus {R} a (k : cursor -> option R) c : m (Plus a) k c = m a (m (Star a) k) c.
Proof. reflexivity. Qed.

Lemma slice_after (a : list ascii) x (w r : list ascii) p n :
  p = S (length a) -> n = length w ->
  take n (drop p (a ++ x :: w ++ r)) = w.
Proof.
  intros -> ->.
  replace (a ++ x :: w ++ r) with ((a ++ [x]) ++ w ++ r) by (by rewrite <- app_assoc).
  replace (S (length a)) with (length (a ++ [x])) by (rewrite length_app; simpl; lia).
  by rewrite drop_app_length, take_app_length.
Qed.

Lemma port_run_eq i b :
  port_run (Cursor i b) =
  match b with
  | x :: d :: u =>
      if Ascii.eqb ":" x && is_digit d
      then Some (Cursor (S i) (d :: u),
                 Cursor (S (S i) + length (run is_digit u)) (skip is_digit u))
      else None
  | _ => None
  end.
Proof.
  unfold port_run. destruct b as [|x [|d u]]; [done| |].
  - rewrite m_chr_cons, m_plus, m_chr_nil. by destruct (is_char ":" x).
  - rewrite m_chr_cons, m_plus, m_chr_cons. unfold is_char.
    destruct (Ascii.eqb ":" x); [|done]. cbn [andb].
    destruct (is_digit d); [|done]. by apply star_chr_greedy.
Qed.

Lemma port_run_Some i b c1 c2 :
  port_run (Cursor i b) = Some (c1, c2) ->
  exists d u, b = ":"%char :: d :: u /\ is_digit d = true /\
    c1 = Cursor (S i) (d :: u) /\
    c2 = Cursor (S (S i) + length (run is_digit u)) (skip is_digit u).
Proof.
  rewrite port_run_eq. destruct b as [|x [|d u]]; [done..|].
  destruct (Ascii.eqb_spec ":" x) as [<-|]; [|done]. cbn [andb].
  destruct (is_digit d) eqn:Hd; [|done]. intros [= <- <-]. by exists d, u.
Qed.

Lemma port_run_None i b : port_run (Cursor i b) = None -> ~ port_at b.
Proof.
  rewrite port_run_eq. intros H (d & t & -> & Hd). rewrite Hd in H. done.
Qed.

Lemma port_at_run i b : port_at b -> is_Some (port_run (Cursor i b)).
Proof. intros (d & t & -> & Hd). rewrite port_run_eq, Hd. by eexists. Qed.

Lemma exec2_port l :
  exec2 (Chr (is_char ":")) (Plus (Chr is_digit)) l = search_from port_run 0 l.
Proof. reflexivity. Qed.

Lemma getPort_string req h :
  Request.headers req !! "host" = Some (HStr h) ->
  getPort req =
  match search_from port_run 0 (chars h) with
  | Some (_, (c1, c2)) =>
      Ok (str (take (pos c2 - pos c1)%nat (drop (pos c1) (chars h))))
  | None => Ok (fallback_port req)
  end.
Proof.
  intros Hh. unfold getPort. rewrite Hh, exec2_port. fold (fallback_port req).
  destruct (String.eqb_spec h "") as [->|]; [|done]. reflexivity.
Qed.

Lemma forallb_digits l : Forall (fun x => is_digit x = true) l -> forallb is_digit l = true.
Proof. induction 1; simpl; [done|]. by apply andb_true_iff. Qed.

(** A host header with a port: [getPort] returns the digits that follow
    the first [:] that has a digit after it. *)
Theorem getPort_first_port req h pre ds post :
  Request.headers req !! "host" = Some (HStr h) ->
  first_port h pre ds post ->
  getPort req = Ok (str ds).
Proof.
  intros Hh (Hl & Hne & Hds & Hpost & Hmin). rewrite (getPort_string req h Hh).
  destruct ds as [|d u]; [done|]. apply Forall_cons in Hds as [Hd Hu].
  assert (post = [] \/ exists x t, post = x :: t /\ is_digit x = false) as Hstop by done.
  destruct (run_app_stop is_digit u post Hu Hstop) as [Hrun Hskip].
  assert (search_from port_run 0 (chars h) =
          Some (length pre, (Cursor (S (length pre)) (d :: u ++ post),
                             Cursor (S (S (length pre)) + length u) post))) as ->.
  { apply search_from_Some. exists pre, (":"%char :: d :: u ++ post).
    split; [done|]. split; [done|]. split.
    - rewrite port_run_eq, Hd. cbn [andb]. by rewrite Hrun, Hskip.
    - intros a b Hab Hlt.
      destruct (port_run (Cursor (0 + length a) b)) as [[e1 e2]|] eqn:E; [|done].
      exfalso. apply (Hmin a b Hab Hlt).
      apply port_run_Some in E as (d' & u' & -> & Hd' & _). by exists d', u'. }
  cbn [pos]. f_equal. f_equal. rewrite Hl.
  apply (slice_after pre ":"%char (d :: u) post); simpl; lia.
Qed.

(** Whatever the host header is, a port that [getPort] returns is a
    non-empty run of decimal digits; without a host header, with an empty
    one, or with one that has no [:] followed by a digit, it is [443] on
    an encrypted connection and [80] otherwise. *)
Theorem getPort_digits req :
  (forall s, getPort req = Ok s -> s <> "" /\ forallb is_digit (chars s) = true) /\
  (Request.headers req !! "host" = None -> getPort req = Ok (fallback_port req)) /\
  (forall h, Request.headers req !! "host" = Some (HStr h) ->
     (forall a b, chars h = a ++ b -> ~ port_at b) ->
     getPort req = Ok (fallback_port req)).
Proof.
  assert (fallback_port req <> "" /\ forallb is_digit (chars (fallback_port req)) = true) as Hf.
  { unfold fallback_port. by destruct (hasEncryptedConnection req). }
  split; [|split].
  - intros s. destruct (Request.headers req !! "host") as [[h| |]|] eqn:Hh.
    + rewrite (getPort_string req h Hh).
      destruct (search_from port_run 0 (chars h)) as [[j [c1 c2]]|] eqn:E.
      * apply search_from_Some in E as (a & b & Hl & -> & Hr & _).
        apply port_run_Some in Hr as (d & u & -> & Hd & -> & ->). cbn [pos].
        intros [= <-].
        assert (a ++ ":"%char :: d :: u =
                a ++ ":"%char :: (d :: run is_digit u) ++ skip is_digit u) as Hu.
        { cbn [app]. by rewrite <- run_skip. }
        rewrite Hl, Hu.
        rewrite (slice_after a ":"%char (d :: run is_digit u) (skip is_digit u));
          [|simpl; lia..].
        split; [done|]. rewrite chars_str.
        apply forallb_digits. constructor; [done|apply run_Forall].
      * by intros [= <-].
    + unfold getPort. by rewrite Hh.
    + unfold getPort. rewrite Hh. fold (fallback_port req). by intros [= <-].
    + unfold getPort. rewrite Hh. fold (fallback_port req). by intros [= <-].
  - intros Hh. unfold getPort. by rewrite Hh.
  - intros h Hh Hno. rewrite (getPort_string req h Hh).
    assert (search_from port_run 0 (chars h) = None) as ->; [|done].
    apply search_from_None. intros a b Hab.
    destruct (port_run (Cursor (0 + length a) b)) as [[e1 e2]|] eqn:E; [|done].
    exfalso. apply (Hno a b Hab).
    apply port_run_Some in E as (d' & u' & -> & Hd' & _). by exists d', u'.
Qed.

End GetPort.

(** The host [[::1]:3000]: the first [:] with a digit after it is the
    one before [1]. *)
Lemma getPort_first_port_witness :
  getPort (request_with "/" [("host", HStr "[::1]:3000")]) = Ok "1".
Proof.
  apply (getPort_first_port (request_with "/" [("host", HStr "[::1]:3000")])
           "[::1]:3000" (chars "[:") (chars "1") (chars "]:3000")).
  - reflexivity.
  - split; [reflexivity|]. split; [done|]. split; [by repeat constructor|].
    split; [right; by exists "]"%char, (chars ":3000")|].
    intros a b Hab Hlt (d & t & -> & Hd). cbn in Hab.
    destruct a as [|a0 [|a1 a]]; cbn in Hab, Hlt; [| |lia].
    + discriminate Hab.
    + injection Hab as _ Hd' _. subst d. by vm_compute in Hd.
Defined.

Section RemoveFacts.

Lemma space_not_semicolon x : is_space x = true -> not_semicolon x = true.
Proof. destruct x as [[] [] [] [] [] [] [] []]; intros H; (reflexivity || discriminate H). Qed.

Lemma name_canon_not_semicolon a :
  is_name_char a = true -> Ascii.eqb ";" (canon a) = false.
Proof. destruct a as [[] [] [] [] [] [] [] []]; intros H; (reflexivity || discriminate H). Qed.

Lemma canon_semicolon x : canon x = ";"%char -> x = ";"%char.
Proof. destruct x as [[] [] [] [] [] [] [] []]; intros H; (reflexivity || discriminate H). Qed.

Lemma skip_app_all p a b :
  Forall (fun x => p x = true) a -> skip p (a ++ b) = skip p b.
Proof. induction 1 as [|x a Hx Ha IH]; [done|]. cbn [app skip]. by rewrite Hx. Qed.

Variable property : string.
Hypothesis Hname : name_ok property.

Lemma same_ci_not_semicolon w l :
  forallb is_name_char l = true -> same_ci w l ->
  Forall (fun x => not_semicolon x = true) w.
Proof.
  revert l. induction w as [|x w IH]; intros l Hl Hw; [constructor|].
  destruct l as [|a l]; [done|]. injection Hw as Hx Hw.
  simpl in Hl. apply andb_true_iff in Hl as [Ha Hl].
  constructor; [|by apply (IH l)].
  apply not_semicolon_iff. intros ->.
  pose proof (name_canon_not_semicolon a Ha) as H. rewrite <- Hx in H. done.
Qed.

Lemma same_ci_nil w : same_ci w [] -> w = [].
Proof. by destruct w. Qed.

Lemma remove_name_eq c :
  remove_name property c =
  match strip eqb_ci (chars property) (rest c) with
  | Some u =>
      Some (Cursor (pos c + length (chars property) + length (run not_semicolon u))
                   (skip not_semicolon u))
  | None => None
  end.
Proof.
  unfold remove_name. cbn [m]. unfold lit_ci. rewrite m_literal.
  destruct (strip _ _ _) as [u|]; [|done]. by apply star_chr_greedy.
Qed.

Lemma remove_name_spaces c :
  m (Star (Chr is_space)) (remove_name property) c =
  remove_name property (after_run is_space c).
Proof.
  destruct (chars property) as [|a l] eqn:E.
  - destruct (remove_name property (after_run is_space c)) as [r|] eqn:Hr.
    + by apply star_chr_greedy.
    + rewrite remove_name_eq, E in Hr. done.
  - apply star_chr_blocked. intros i x t Hx. rewrite remove_name_eq, E. cbn [rest strip].
    unfold name_ok in Hname. rewrite E in Hname. simpl in Hname.
    apply andb_true_iff in Hname as [Ha _]. by rewrite (name_char_not_space a x Ha Hx).
Qed.

Lemma remove_run_eq i b :
  m (remove_re property) Some (Cursor i b) =
  match b with
  | x :: t =>
      if Ascii.eqb ";" x
      then remove_name property (after_run is_space (Cursor (S i) t))
      else None
  | [] => None
  end.
Proof.
  change (m (remove_re property) Some (Cursor i b))
    with (m (Chr (eqb_ci ";")) (m (Star (Chr is_space)) (remove_name property)) (Cursor i b)).
  destruct b as [|x t]; [done|]. rewrite m_chr_cons, eqb_ci_semicolon.
  destruct (Ascii.eqb ";" x); [|done]. apply remove_name_spaces.
Qed.

Lemma attr_body_strip t :
  attr_body property t <-> is_Some (strip eqb_ci (chars property) (skip is_space t)).
Proof.
  split.
  - intros (ws & w & u & -> & Hws & Hw).
    destruct (chars property) as [|a l] eqn:E; [by eexists|].
    assert (w ++ u = [] \/ exists x r, w ++ u = x :: r /\ is_space x = false) as Hstop.
    { right. destruct w as [|x w]; [done|]. exists x, (w ++ u). split; [done|].
      injection Hw as Hx _. unfold name_ok in Hname. rewrite E in Hname. simpl in Hname.
      apply andb_true_iff in Hname as [Ha _].
      destruct (is_space x) eqn:Es; [|done].
      pose proof (name_char_not_space a x Ha Es) as Hn. unfold eqb_ci in Hn.
      rewrite Hx in Hn. by rewrite Ascii.eqb_refl in Hn. }
    destruct (run_app_stop is_space ws (w ++ u) Hws Hstop) as [_ ->].
    exists u. apply strip_ci. by exists w.
  - intros [u (w & Hs & Hw)%strip_ci]. exists (run is_space t), w, u.
    split; [|split; [apply run_Forall|done]]. rewrite <- Hs. apply run_skip.
Qed.

(** A match at a position: it starts at a [;] before the name, and ends
    before the next [;]. *)
Lemma remove_at i b c :
  m (remove_re property) Some (Cursor i b) = Some c ->
  exists t, b = ";"%char :: t /\ attr_body property t /\ rest c = skip not_semicolon t.
Proof.
  rewrite remove_run_eq. destruct b as [|x t]; [done|].
  destruct (Ascii.eqb_spec ";" x) as [<-|]; [|done].
  rewrite remove_name_eq. unfold after_run. cbn [rest pos].
  destruct (strip eqb_ci (chars property) (skip is_space t)) as [u|] eqn:E; [|done].
  intros [= <-]. exists t. split; [done|]. split; [apply attr_body_strip; by eexists|].
  cbn [rest]. apply strip_ci in E as (w & Hs & Hw).
  replace (skip not_semicolon t)
    with (skip not_semicolon (run is_space t ++ w ++ u))
    by (by rewrite <- Hs, <- run_skip).
  rewrite skip_app_all.
  - rewrite skip_app_all; [done|]. by apply (same_ci_not_semicolon w (chars property)).
  - eapply Forall_impl; [apply run_Forall|]. intros ?. apply space_not_semicolon.
Qed.

Lemma remove_found i t :
  attr_body property t ->
  is_Some (m (remove_re property) Some (Cursor i (";"%char :: t))).
Proof.
  intros [u Hu]%attr_body_strip. rewrite remove_run_eq, Ascii.eqb_refl, remove_name_eq.
  unfold after_run. cbn [rest]. rewrite Hu. by eexists.
Qed.

End RemoveFacts.

(** For an attribute name made of letters, digits, [-] and [_],
    [removeCookieProperty] takes out of the header the first stretch that
    goes from a [;] followed, white space apart, by the name in any case,
    up to the next [;] or the end, whether or not a value follows the
    name and whether or not the name goes on: what is before and after
    stays.  A header without such a stretch is returned as it is. *)
Theorem removeCookieProperty_first_attribute header property :
  name_ok property ->
  (forall pre body post,
     chars header = pre ++ ";"%char :: body ++ post ->
     attr_body property body ->
     Forall (fun x => x <> ";"%char) body ->
     (post = [] \/ exists t, post = ";"%char :: t) ->
     (forall a t, chars header = a ++ ";"%char :: t -> (length a < length pre)%nat ->
                  ~ attr_body property t) ->
     removeCookieProperty1 header property = str (pre ++ post)) /\
  ((forall a t, chars header = a ++ ";"%char :: t -> ~ attr_body property t) ->
   removeCookieProperty1 header property = header).
Proof.
  intros Hname.
  change (removeCookieProperty1 header property)
    with (replace_first (remove_re property) "" header).
  unfold replace_first. split.
  - intros pre body post Hl (ws & w & u & Hb & Hws & Hw) Hns Hpost Hmin.
    assert (exists c, search_from (m (remove_re property) Some) 0 (chars header)
                      = Some (length pre, c) /\ rest c = post) as (c & -> & Hc).
    { assert (attr_body property (body ++ post)) as Hab.
      { exists ws, w, (u ++ post). rewrite Hb, <- !app_assoc. by repeat split. }
      destruct (remove_found property Hname (0 + length pre) _ Hab) as [c Hc].
      exists c. split.
      - apply search_from_Some. exists pre, (";"%char :: body ++ post).
        split; [done|]. split; [done|]. split; [done|].
        intros a b Hs Hlt.
        destruct (m (remove_re property) Some (Cursor (0 + length a) b)) as [e|] eqn:E;
          [|done].
        exfalso. apply (remove_at property Hname) in E as (t & -> & Ht & _).
        by apply (Hmin a t).
      - apply (remove_at property Hname) in Hc as (t & [= <-] & _ & ->).
        assert (Forall (fun x => not_semicolon x = true) body) as Hb'.
        { eapply Forall_impl; [exact Hns|]. intros ?. apply not_semicolon_iff. }
        assert (post = [] \/ exists x r, post = x :: r /\ not_semicolon x = false) as Hp'.
        { destruct Hpost as [->|[r ->]]; [by left|right]. by exists ";"%char, r. }
        by destruct (run_app_stop not_semicolon body post Hb' Hp') as [_ ->]. }
    rewrite Hl, take_app_length, Hc. by rewrite str_app.
  - intros Hno.
    assert (search_from (m (remove_re property) Some) 0 (chars header) = None) as ->; [|done].
    apply search_from_None. intros a b Hs.
    destruct (m (remove_re property) Some (Cursor (0 + length a) b)) as [e|] eqn:E; [|done].
    exfalso. apply (remove_at property Hname) in E as (t & -> & Ht & _).
    by apply (Hno a t).
Qed.

(** [; Secure] has no value and goes; with the name [path] the attribute
    [Pathological] goes, since the name is only a prefix of the match. *)
Lemma removeCookieProperty_first_attribute_witness :
  removeCookieProperty1 "id=1; Pathological=1; Path=/" "path" = "id=1; Path=/".
Proof.
  destruct (removeCookieProperty_first_attribute "id=1; Pathological=1; Path=/" "path"
              eq_refl) as [H _].
  apply (H (chars "id=1") (chars " Pathological=1") (chars "; Path=/")).
  - reflexivity.
  - exists [" "%char], (chars "Path"), (chars "ological=1"). split; [reflexivity|].
    split; [by repeat constructor|reflexivity].
  - repeat constructor; done.
  - right. by eexists.
  - intros a t Hab Hlt _. cbn in Hab.
    destruct a as [|a0 [|a1 [|a2 [|a3 a]]]]; cbn in Hab, Hlt; try discriminate Hab; lia.
Defined.

Section Extensionality.
Context {R : Type}.

Lemma star_loop_ext (step : (cursor -> option R) -> cursor -> option R) k1 k2 :
  (forall j1 j2, (forall c, j1 c = j2 c) -> forall c, step j1 c = step j2 c) ->
  (forall c, k1 c = k2 c) ->
  forall fuel c, star_loop step k1 fuel c = star_loop step k2 fuel c.
Proof.
  intros Hstep Hk fuel. induction fuel as [|fuel IH]; intros c; cbn [star_loop]; [done|].
  rewrite Hk. erewrite Hstep; [reflexivity|].
  intros c'. cbn beta. by destruct (_ <? _)%nat.
Qed.

(** The matcher only looks at what its continuation returns. *)
Lemma m_ext r (k1 k2 : cursor -> option R) :
  (forall c, k1 c = k2 c) -> forall c, m r k1 c = m r k2 c.
Proof.
  revert k1 k2. induction r as [|p| | |a IHa b IHb|a IHa b IHb|a IHa];
    intros k1 k2 Hk c; cbn [m].
  - done.
  - destruct (rest c) as [|x t]; [done|]. by destruct (p x).
  - by destruct (pos c =? 0)%nat.
  - by destruct (rest c).
  - apply IHa. intros c'. by apply IHb.
  - rewrite (IHa k1 k2 Hk), (IHb k1 k2 Hk). done.
  - apply star_loop_ext; [|done]. intros j1 j2 Hj c'. by apply IHa.
Qed.

Lemma search_from_ext (run1 run2 : cursor -> option R) :
  (forall c, run1 c = run2 c) ->
  forall i s, search_from run1 i s = search_from run2 i s.
Proof.
  intros H i s. revert i. induction s as [|x s IH]; intros i; cbn [search_from]; rewrite H.
  - done.
  - by rewrite IH.
Qed.

Lemma strip_same_ci l1 l2 s :
  same_ci l1 l2 -> strip eqb_ci l1 s = strip eqb_ci l2 s.
Proof.
  revert l2 s. induction l1 as [|x l1 IH]; intros [|y l2] s H; try done.
  injection H as Hx H. cbn [strip]. destruct s as [|z s]; [done|].
  unfold eqb_ci. rewrite Hx. destruct (Ascii.eqb _ _); [by apply IH|done].
Qed.

Lemma lit_ci_same p1 p2 (k : cursor -> option R) c :
  same_ci (chars p1) (chars p2) -> m (lit_ci p1) k c = m (lit_ci p2) k c.
Proof.
  intros H. unfold lit_ci. rewrite !m_literal, (strip_same_ci _ _ _ H).
  by rewrite (same_ci_length _ _ H).
Qed.

End Extensionality.

Section NameCase.

Lemma cookie_prefix_same {R} p1 p2 (k : cursor -> option R) c :
  same_ci (chars p1) (chars p2) ->
  m (cookie_prefix p1) k c = m (cookie_prefix p2) k c.
Proof.
  intros H. unfold cookie_prefix.
  change (m (Chr (eqb_ci ";")) (m (Star (Chr is_space))
            (fun c' => m (lit_ci p1) (m (Chr (eqb_ci "=")) k) c')) c =
          m (Chr (eqb_ci ";")) (m (Star (Chr is_space))
            (fun c' => m (lit_ci p2) (m (Chr (eqb_ci "=")) k) c')) c).
  apply m_ext. intros c1. apply m_ext. intros c2. by apply lit_ci_same.
Qed.

Lemma remove_re_same {R} p1 p2 (k : cursor -> option R) c :
  same_ci (chars p1) (chars p2) ->
  m (remove_re p1) k c = m (remove_re p2) k c.
Proof.
  intros H. unfold remove_re.
  change (m (Chr (eqb_ci ";")) (m (Star (Chr is_space))
            (fun c' => m (lit_ci p1) (m (Star (Chr not_semicolon)) k) c')) c =
          m (Chr (eqb_ci ";")) (m (Star (Chr is_space))
            (fun c' => m (lit_ci p2) (m (Star (Chr not_semicolon)) k) c')) c).
  apply m_ext. intros c1. apply m_ext. intros c2. by apply lit_ci_same.
Qed.

(** For attribute names made of letters, digits, [-] and [_], the case
    of the name that is passed does not matter, for a single header and
    for an array of them. *)
Theorem property_name_case_is_ignored header config p1 p2 :
  name_ok p1 -> name_ok p2 ->
  same_ci (chars p1) (chars p2) ->
  rewriteCookieProperty header config p1 = rewriteCookieProperty header config p2 /\
  removeCookieProperty header p1 = removeCookieProperty header p2.
Proof.
  intros _ _ H.
  assert (forall s, rewriteCookieProperty1 s config p1 = rewriteCookieProperty1 s config p2)
    as Hrw.
  { intros s. unfold rewriteCookieProperty1, replace_first2, exec2.
    rewrite (search_from_ext _ (m (cookie_prefix p2)
               (fun c1 => m cookie_value (fun c2 => Some (c1, c2)) c1))); [done|].
    intros c. by apply cookie_prefix_same. }
  assert (forall s, removeCookieProperty1 s p1 = removeCookieProperty1 s p2) as Hrm.
  { intros s. change (replace_first (remove_re p1) "" s = replace_first (remove_re p2) "" s).
    unfold replace_first.
    rewrite (search_from_ext _ (m (remove_re p2) Some)); [done|].
    intros c. by apply remove_re_same. }
  destruct header as [s|l]; cbn [rewriteCookieProperty removeCookieProperty].
  - by rewrite Hrw, Hrm.
  - split; f_equal; apply map_ext; auto.
Qed.

End NameCase.

Lemma property_name_case_is_ignored_witness :
  rewriteCookieProperty (One "id=1; Domain=example.com") domain_map "DOMAIN"
  = One "id=1; Domain=proxy.local".
Proof.
  destruct (property_name_case_is_ignored (One "id=1; Domain=example.com") domain_map
              "DOMAIN" "domain" eq_refl eq_refl eq_refl) as [-> _].
  reflexivity.
Defined.

(** [mergeSetCookie]: a falsy scalar gives nothing, a truthy scalar one
    element, an array its elements as they are; merging in two steps,
    whichever way the steps are grouped, gives the same list. *)
Theorem mergeSetCookie_composes a b c :
  mergeSetCookie (Array (mergeSetCookie a b)) c =
    mergeSetCookie a (Array (mergeSetCookie b c)) /\
  (forall v, truthy v = false ->
     mergeSetCookie (Scalar v) b = as_array b /\ mergeSetCookie a (Scalar v) = as_array a) /\
  (forall v, truthy v = true -> mergeSetCookie (Scalar v) b = v :: as_array b) /\
  (forall l, mergeSetCookie (Array l) b = l ++ as_array b) /\
  length (mergeSetCookie a b) = (length (as_array a) + length (as_array b))%nat.
Proof.
  unfold mergeSetCookie. cbn [as_array]. split; [by rewrite app_assoc|].
  split; [|split; [|split]].
  - intros v ->. by rewrite app_nil_r.
  - by intros v ->.
  - done.
  - apply length_app.
Qed.

Section Base.
Context {P : Url.Platform}.

(** What the call leaves of the base object it is given: [auth] when
    [options.auth] is falsy, the five redirect fields when
    [options.followRedirects] is not an object (absent, or a bare flag),
    [rejectUnauthorized] when the target is not encrypted.  The other
    fields of the base object are overwritten. *)
Theorem base_fields_survive outgoing options req forward t out :
  select options (key_of forward) = Some t ->
  fst (setupOutgoing outgoing options req forward) = Ok out ->
  (truthy (ServerOptions.auth options) = false ->
   Outgoing.auth out = Outgoing.auth outgoing) /\
  (follow_is_object (ServerOptions.followRedirects options) = false ->
   Outgoing.maxRedirects out = Outgoing.maxRedirects outgoing /\
   Outgoing.maxBodyLength out = Outgoing.maxBodyLength outgoing /\
   Outgoing.agents out = Outgoing.agents outgoing /\
   Outgoing.beforeRedirect out = Outgoing.beforeRedirect outgoing /\
   Outgoing.trackRedirects out = Outgoing.trackRedirects outgoing) /\
  (sslEnabled t = false ->
   Outgoing.rejectUnauthorized out = Outgoing.rejectUnauthorized outgoing) /\
  Outgoing.method out = js_or (ServerOptions.method options) (Request.method req) /\
  Outgoing.localAddress out = ServerOptions.localAddress options.
Proof.
  intros Hsel Hout. apply setupOutgoing_Ok in Hout as (t' & Hsel' & Hfill).
  assert (t' = t) as -> by congruence.
  unfold fill in Hfill.
  destruct (outgoing_path options (resolve t) req) as [path|]; [|done].
  cbn [bind] in Hfill. destruct (host_header _ _ _ _ _) as [h|]; [|done].
  cbn [bind] in Hfill. injection Hfill as <-. cbn.
  split; [by intros ->|]. split; [|split; [|done]].
  - by destruct (ServerOptions.followRedirects options).
  - change (sslEnabled (resolve t)) with (sslEnabled t). by intros ->.
Qed.

Lemma query_fold es u :
  es <> [] ->
  Url.query (fold_left (fun u e => Url.searchParams_set (fst e) (snd e) u) es u) =
  (let s := Url.qs_serialize
              (Url.searchParams
                 (fold_left (fun u e => Url.searchParams_set (fst e) (snd e) u) es u)) in
   if String.eqb s "" then None else Some s).
Proof.
  revert u. induction es as [|e es IH]; intros u Hne; [done|]. cbn [fold_left].
  destruct es as [|e' es]; [done|]. by apply IH.
Qed.

(** The search string at the end of the outgoing path: when the target
    has no parameters it is the one of the request URL as the parser
    gives it; when the target has some, it is [?] and the serialisation
    of the merged list, or nothing when that serialisation is empty. *)
Theorem outgoing_search_string target req u0 :
  Url.new (Request.url req) = Ok u0 ->
  ((Target.searchParams target = None \/ Target.searchParams target = Some []) ->
   merged_url (resolve target) req = Ok u0) /\
  (forall entries,
     Target.searchParams target = Some entries -> entries <> [] ->
     exists u,
       merged_url (resolve target) req = Ok u /\
       Url.pathname u = Url.pathname u0 /\
       Url.search u =
         (let s := Url.qs_serialize (merge_query (Url.searchParams u0) entries) in
          if String.eqb s "" then "" else "?" +:+ s)).
Proof.
  intros Hnew. split.
  - intros Hsp. unfold merged_url. rewrite Hnew. cbn [bind].
    assert (Target.searchParams (resolve target) = Some []) as ->; [|done].
    unfold resolve. cbn. by destruct Hsp as [-> | ->].
  - intros entries Hsp Hne. unfold merged_url. rewrite Hnew. cbn [bind].
    assert (Target.searchParams (resolve target) = Some entries) as ->.
    { unfold resolve. cbn. by rewrite Hsp. }
    eexists. split; [reflexivity|]. split.
    + clear Hne Hsp. revert u0 Hnew. generalize (Request.url req). intros _ u0 _.
      revert u0. induction entries as [|e es IH]; intros u0; [done|].
      cbn [fold_left]. by rewrite IH.
    + unfold Url.search. rewrite (query_fold entries u0 Hne). cbn zeta.
      rewrite searchParams_fold.
      destruct (String.eqb (Url.qs_serialize (merge_query (Url.searchParams u0) entries)) "")
        eqn:Hs; [done|]. by rewrite Hs.
Qed.

End Base.

Lemma base_fields_survive_witness :
  exists out,
    fst (setupOutgoing (P:=OriginForm.platform) (with_auth Outgoing.empty (JStr "user:pw"))
           (with_followRedirects http_options (FollowFlag true))
           (get_request "/") None) = Ok out /\
    Outgoing.auth out = JStr "user:pw" /\
    Outgoing.maxRedirects out = JUndefined /\
    Outgoing.rejectUnauthorized out = JUndefined.
Proof.
  destruct (fst (setupOutgoing (P:=OriginForm.platform)
                   (with_auth Outgoing.empty (JStr "user:pw"))
                   (with_followRedirects http_options (FollowFlag true))
                   (get_request "/") None)) as [out|] eqn:E; [|by vm_compute in E].
  exists out. split; [done|].
  destruct (base_fields_survive (P:=OriginForm.platform)
              (with_auth Outgoing.empty (JStr "user:pw"))
              (with_followRedirects http_options (FollowFlag true))
              (get_request "/") None (http_target "backend" (JNum 8080)) out eq_refl E)
    as (H1 & H2 & H3 & _).
  split; [by rewrite (H1 eq_refl)|]. split.
  - by destruct (H2 eq_refl) as [-> _].
  - by rewrite (H3 eq_refl).
Defined.

Lemma outgoing_search_string_witness :
  exists u,
    merged_url (P:=OriginForm.platform)
      (resolve (query_target [("b", "3"); ("c", "4")])) (get_request "/x?a=1&b=2") = Ok u /\
    Url.search u = "?a=1&b=3&c=4".
Proof.
  destruct (outgoing_search_string (P:=OriginForm.platform)
              (query_target [("b", "3"); ("c", "4")]) (get_request "/x?a=1&b=2")
              (Url.Make "/x" (Some "a=1&b=2") [("a", "1"); ("b", "2")]) eq_refl)
    as [_ H].
  destruct (H [("b", "3"); ("c", "4")] eq_refl ltac:(discriminate)) as (u & Hu & _ & Hs).
  exists u. split; [exact Hu|]. rewrite Hs. reflexivity.
Defined.
